(** * HarbourBridge: schema editing, interleaving and row conversion

    A shallow embedding of the parts of the HarbourBridge web backend
    ([web/web.go]) and of the PostgreSQL data path (package [postgres])
    that the properties below speak about.

    Conventions of the embedding:
    - Go [int64] values are integers [Z]; wrap-around is written out
      where the code can reach it ([wrap64]).
    - Go maps are finite maps [gmap string _].  A map that lives inside a
      struct stored in another map is read through the zero value of the
      struct when the outer key is absent, as Go does.
    - Go maps and slices are references.  The code copies a table out
      of [SpSchema], changes the copy (and, through it, the shared column
      map) and stores the copy back, so the new stored table is what the
      edit leaves; no two entries of the model share one map object.
    - A Go run-time panic (index out of range, assignment to an entry of
      a nil map) is the result [None] of a computation in [option]; what a
      panicking handler leaves behind is not modelled.
    - The HTTP request and response are left out: a handler is the
      function from the decoded request and the model to the new model. *)

From stdpp Require Import gmap strings list fin_maps.
From Stdlib Require Import ZArith Lia.

#[local] Set Warnings "-clear-no-such-hyp".

Local Open Scope string_scope.
Local Open Scope Z_scope.
Local Open Scope list_scope.

(** ** Go built-ins *)

(** The zero value that indexing a map gives for an absent key. *)
Definition index {V} (zero : V) (m : gmap string V) (k : string) : V :=
  default zero (m !! k).

(** [append(slice[:s], slice[s+1:]...)]: the slice without position [s]. *)
Definition remove_at {A} (slice : list A) (s : nat) : list A :=
  take s slice ++ drop (S s) slice.

(** Position of the first element satisfying [p], as a
    [for i, x := range l { if p(x) { ...; break } }] loop finds it. *)
Fixpoint find_index {A} (p : A → bool) (l : list A) : option nat :=
  match l with
  | [] => None
  | x :: l' => if p x then Some 0%nat else S <$> find_index p l'
  end.

Definition String_eqb (a b : string) : bool := bool_decide (a = b).

(** The loop [for i, x := range l { if p(x) { l = remove(l, i); break } }]:
    the slice without its first element satisfying [p]. *)
Definition remove_first {A} (p : A → bool) (l : list A) : list A :=
  match find_index p l with
  | Some i => remove_at l i
  | None => l
  end.

(** Two's-complement wrap-around of a 64-bit signed integer. *)
Definition wrap64 (z : Z) : Z := (z + 2 ^ 63) `mod` 2 ^ 64 - 2 ^ 63.

(** ** Package [ddl]: the Spanner schema *)

Module ddl.

Definition Bool : string := "BOOL".
Definition Bytes : string := "BYTES".
Definition Date : string := "DATE".
Definition Float64 : string := "FLOAT64".
Definition Int64 : string := "INT64".
Definition String : string := "STRING".
Definition Timestamp : string := "TIMESTAMP".
Definition Numeric : string := "NUMERIC".

(** Modelled from the spec: the length that stands for an unbounded
    (max) STRING or BYTES column; the constant [ddl.MaxLength] is declared
    in package [ddl], whose source is not embedded here.  It is the largest
    [int64]. *)
Definition MaxLength : Z := 2 ^ 63 - 1.

Record Type_ := mkType {
  Name : string;
  Len : Z;
  IsArray : bool
}.

Record ColumnDef := mkColumnDef {
  cdName : string;
  T : Type_;
  NotNull : bool;
  Comment : string
}.

Record IndexKey := mkIndexKey {
  Col : string;
  Desc : bool
}.

Record Foreignkey := mkForeignkey {
  Columns : list string;
  ReferTable : string;
  ReferColumns : list string
}.

(** [ColDefs] is [None] for the nil map of a zero-valued table. *)
Record CreateTable := mkCreateTable {
  ctName : string;
  ColNames : list string;
  ColDefs : option (gmap string ColumnDef);
  Pks : list IndexKey;
  Fks : list Foreignkey;
  Parent : string
}.

Definition with_ColNames (f : list string → list string) (sp : CreateTable) :=
  mkCreateTable (ctName sp) (f (ColNames sp)) (ColDefs sp) (Pks sp) (Fks sp)
    (Parent sp).

Definition with_ColDefs
    (f : option (gmap string ColumnDef) → option (gmap string ColumnDef))
    (sp : CreateTable) :=
  mkCreateTable (ctName sp) (ColNames sp) (f (ColDefs sp)) (Pks sp) (Fks sp)
    (Parent sp).

Definition with_Pks (f : list IndexKey → list IndexKey) (sp : CreateTable) :=
  mkCreateTable (ctName sp) (ColNames sp) (ColDefs sp) (f (Pks sp)) (Fks sp)
    (Parent sp).

Definition with_T (ty : Type_) (cd : ColumnDef) : ColumnDef :=
  mkColumnDef (cdName cd) ty (NotNull cd) (Comment cd).

Definition with_NotNull (b : bool) (cd : ColumnDef) : ColumnDef :=
  mkColumnDef (cdName cd) (T cd) b (Comment cd).

Definition zeroType : Type_ := mkType "" 0 false.
Definition zeroColumnDef : ColumnDef := mkColumnDef "" zeroType false "".
Definition zeroCreateTable : CreateTable :=
  mkCreateTable "" [] None [] [] "".

End ddl.

(** ** Package [schema]: the source schema *)

Module schema.

Record Type_ := mkType {
  Name : string;
  Mods : list Z;
  ArrayBounds : list Z
}.

Record Ignored := mkIgnored {
  Check : bool;
  Default : bool;
  ForeignKey : bool;
  AutoIncrement : bool
}.

Record Column := mkColumn {
  colName : string;
  Type' : Type_;
  NotNull : bool;
  Unique : bool;
  Ignored' : Ignored
}.

Record Table := mkTable {
  tName : string;
  ColNames : list string;
  ColDefs : gmap string Column;
  PrimaryKeys : list string
}.

Definition zeroColumn : Column :=
  mkColumn "" (mkType "" [] []) false false (mkIgnored false false false false).
Definition zeroTable : Table := mkTable "" [] ∅ [].

End schema.

(** ** Package [internal]: the conversion state *)

Module internal.

Inductive SchemaIssue :=
  | DefaultValue
  | AutoIncrement
  | MultiDimensionalArray
  | OtherIssue (tag : string).

(** One direction of the table and column correspondence. *)
Record NameAndCols := mkNameAndCols {
  Name : string;
  Cols : gmap string string
}.

Record SyntheticPKey := mkSyntheticPKey {
  Col : string;
  Sequence : Z
}.

(** Statistics of a run: rows per source table, bad rows per source
    table, and the reported unexpected conditions ([Stats.Unexpected]). *)
Record stats := mkStats {
  Rows : gmap string Z;
  BadRows : gmap string Z;
  UnexpectedCount : gmap string Z
}.

(** A rejected row kept for diagnostics. *)
Record row := mkRow {
  rowTable : string;
  rowCols : list string;
  rowVals : list string
}.

(** The fields of [Conv] that the embedded code reads or writes.  The
    entries of [ToSource], [ToSpanner] and [Issues] are made with
    allocated inner maps and no code here stores a nil one, so an inner
    nil map is exactly an absent outer key. *)
Record Conv := mkConv {
  SpSchema : gmap string ddl.CreateTable;
  SyntheticPKeys : gmap string SyntheticPKey;
  SrcSchema : gmap string schema.Table;
  Issues : gmap string (gmap string (list SchemaIssue));
  ToSpanner : gmap string NameAndCols;
  ToSource : gmap string NameAndCols;
  Stats : stats;
  sampleBadRows : list row;
  dataMode : bool;
  Location : string
}.

Definition zeroNameAndCols : NameAndCols := mkNameAndCols "" ∅.

Definition with_SpSchema (f : gmap string ddl.CreateTable → gmap string ddl.CreateTable)
    (c : Conv) : Conv :=
  mkConv (f (SpSchema c)) (SyntheticPKeys c) (SrcSchema c) (Issues c)
    (ToSpanner c) (ToSource c) (Stats c) (sampleBadRows c) (dataMode c)
    (Location c).

Definition with_SyntheticPKeys
    (f : gmap string SyntheticPKey → gmap string SyntheticPKey) (c : Conv) : Conv :=
  mkConv (SpSchema c) (f (SyntheticPKeys c)) (SrcSchema c) (Issues c)
    (ToSpanner c) (ToSource c) (Stats c) (sampleBadRows c) (dataMode c)
    (Location c).

Definition with_Issues
    (f : gmap string (gmap string (list SchemaIssue)) →
         gmap string (gmap string (list SchemaIssue))) (c : Conv) : Conv :=
  mkConv (SpSchema c) (SyntheticPKeys c) (SrcSchema c) (f (Issues c))
    (ToSpanner c) (ToSource c) (Stats c) (sampleBadRows c) (dataMode c)
    (Location c).

Definition with_ToSpanner
    (f : gmap string NameAndCols → gmap string NameAndCols) (c : Conv) : Conv :=
  mkConv (SpSchema c) (SyntheticPKeys c) (SrcSchema c) (Issues c)
    (f (ToSpanner c)) (ToSource c) (Stats c) (sampleBadRows c) (dataMode c)
    (Location c).

Definition with_ToSource
    (f : gmap string NameAndCols → gmap string NameAndCols) (c : Conv) : Conv :=
  mkConv (SpSchema c) (SyntheticPKeys c) (SrcSchema c) (Issues c)
    (ToSpanner c) (f (ToSource c)) (Stats c) (sampleBadRows c) (dataMode c)
    (Location c).

Definition with_Stats (f : stats → stats) (c : Conv) : Conv :=
  mkConv (SpSchema c) (SyntheticPKeys c) (SrcSchema c) (Issues c)
    (ToSpanner c) (ToSource c) (f (Stats c)) (sampleBadRows c) (dataMode c)
    (Location c).

Definition with_sampleBadRows (f : list row → list row) (c : Conv) : Conv :=
  mkConv (SpSchema c) (SyntheticPKeys c) (SrcSchema c) (Issues c)
    (ToSpanner c) (ToSource c) (Stats c) (f (sampleBadRows c)) (dataMode c)
    (Location c).

(** [m[k].Cols] with [m[k]] read through the zero value. *)
Definition colsOf (m : gmap string NameAndCols) (k : string) : gmap string string :=
  Cols (index zeroNameAndCols m k).

(** [delete(m[k].Cols, c)]: the inner map is shared by reference, so the
    entry of [m] changes in place; nothing happens for an absent [k]. *)
Definition deleteCol (k c : string) (m : gmap string NameAndCols) :
    gmap string NameAndCols :=
  alter (λ nc, mkNameAndCols (Name nc) (delete c (Cols nc))) k m.

(** [m[k].Cols[c] = v]: panics on the nil map of an absent [k]. *)
Definition setCol (k c v : string) (m : gmap string NameAndCols) :
    option (gmap string NameAndCols) :=
  nc ← m !! k;
  Some (<[k := mkNameAndCols (Name nc) (<[c := v]> (Cols nc))]> m).

(** Modelled from the spec: [conv.Unexpected], the report of an unexpected
    condition; the method belongs to package [internal], whose source is not
    embedded here.  The condition is counted under its message in the
    statistics of the run. *)
Definition Unexpected (u : string) (conv : Conv) : Conv :=
  with_Stats
    (λ st, mkStats (Rows st) (BadRows st)
             (<[u := index 0 (UnexpectedCount st) u + 1]> (UnexpectedCount st)))
    conv.

(** Modelled from the spec: [conv.DataMode], a method of package
    [internal]: whether the run converts data. *)
Definition DataMode (conv : Conv) : bool := dataMode conv.

(** Modelled from the spec: [conv.StatsAddBadRow], a method of package
    [internal]: the row is counted as a bad row against the source table's
    statistics; the flag is the data mode of the run. *)
Definition StatsAddBadRow (srcTable : string) (b : bool) (conv : Conv) : Conv :=
  if b then
    with_Stats
      (λ st, mkStats (Rows st)
               (<[srcTable := index 0 (BadRows st) srcTable + 1]> (BadRows st))
               (UnexpectedCount st))
      conv
  else conv.

(** Modelled from the spec: [conv.CollectBadRow], a method of package
    [internal]: the stringified row joins the sample of bad rows as long as
    the bound of the sample, the policy [hasRoom], admits it. *)
Definition CollectBadRow (hasRoom : list row → row → bool)
    (srcTable : string) (srcCols vals : list string) (conv : Conv) : Conv :=
  let r := mkRow srcTable srcCols vals in
  if hasRoom (sampleBadRows conv) r
  then with_sampleBadRows (λ rows, rows ++ [r]) conv
  else conv.

End internal.

(** ** Package [web]: the schema edit protocol *)

Module web.

(** [sp.ColDefs[k]] read through the zero value; a nil map reads as empty. *)
Definition colDef (sp : ddl.CreateTable) (k : string) : ddl.ColumnDef :=
  default ddl.zeroColumnDef (ddl.ColDefs sp ≫= (.!! k)).

(** [sp.ColDefs[k] = cd]: panics on the nil map. *)
Definition setColDef (k : string) (cd : ddl.ColumnDef) (sp : ddl.CreateTable) :
    option ddl.CreateTable :=
  g ← ddl.ColDefs sp;
  Some (ddl.with_ColDefs (λ _, Some (<[k := cd]> g)) sp).

Definition remove (slice : list string) (s : nat) : list string :=
  remove_at slice s.
Definition removePk (slice : list ddl.IndexKey) (s : nat) : list ddl.IndexKey :=
  remove_at slice s.
Definition removeFk (slice : list ddl.Foreignkey) (s : nat) :
    list ddl.Foreignkey :=
  remove_at slice s.

(** [for i, col := range sp.ColNames { if col == c { ... remove ... } }]. *)
Definition dropName (c : string) (names : list string) : list string :=
  remove_first (λ col, String_eqb col c) names.

(** [for i, pk := range sp.Pks { if pk.Col == c { ... removePk ... } }]. *)
Definition dropPk (c : string) (pks : list ddl.IndexKey) : list ddl.IndexKey :=
  remove_first (λ pk, String_eqb (ddl.Col pk) c) pks.

Definition removeColumn (table colName srcTableName : string)
    (conv : internal.Conv) : internal.Conv :=
  let sp := index ddl.zeroCreateTable (internal.SpSchema conv) table in
  let sp := ddl.with_ColNames (dropName colName) sp in
  let sp := ddl.with_ColDefs (fmap (delete colName)) sp in
  let sp := ddl.with_Pks (dropPk colName) sp in
  let srcColName :=
    index "" (internal.colsOf (internal.ToSource conv) table) colName in
  let conv := internal.with_ToSource (internal.deleteCol table colName) conv in
  let conv :=
    internal.with_ToSpanner (internal.deleteCol srcTableName srcColName) conv in
  let conv := internal.with_Issues (alter (delete srcColName) srcTableName) conv in
  internal.with_SpSchema (<[table := sp]>) conv.

Definition renameColumn (newName table colName srcTableName : string)
    (conv : internal.Conv) : option internal.Conv :=
  let sp := index ddl.zeroCreateTable (internal.SpSchema conv) table in
  let sp :=
    match find_index (λ col, String_eqb col colName) (ddl.ColNames sp) with
    | Some i => ddl.with_ColNames (<[i := newName]>) sp
    | None => sp
    end in
  let sp :=
    match ddl.ColDefs sp ≫= (.!! colName) with
    | Some cd =>
        ddl.with_ColDefs
          (fmap (λ g, delete colName
             (<[newName := ddl.mkColumnDef newName (ddl.T cd) (ddl.NotNull cd)
                             (ddl.Comment cd)]> g))) sp
    | None => sp
    end in
  let sp :=
    match find_index (λ pk, String_eqb (ddl.Col pk) colName) (ddl.Pks sp) with
    | Some i =>
        ddl.with_Pks (alter (λ pk, ddl.mkIndexKey newName (ddl.Desc pk)) i) sp
    | None => sp
    end in
  let srcColName :=
    index "" (internal.colsOf (internal.ToSource conv) table) colName in
  toSpanner ← internal.setCol srcTableName srcColName newName
                 (internal.ToSpanner conv);
  let conv := internal.with_ToSpanner (λ _, toSpanner) conv in
  toSource ← internal.setCol table newName srcColName (internal.ToSource conv);
  let conv := internal.with_ToSource (λ _, toSource) conv in
  let conv := internal.with_ToSource (internal.deleteCol table colName) conv in
  Some (internal.with_SpSchema (<[table := sp]>) conv).

Definition pkChanged (pkChange table colName : string) (conv : internal.Conv) :
    internal.Conv :=
  let sp := index ddl.zeroCreateTable (internal.SpSchema conv) table in
  let sp :=
    if String_eqb pkChange "REMOVED" then ddl.with_Pks (dropPk colName) sp
    else sp in
  let sp :=
    if String_eqb pkChange "ADDED" then
      let sp :=
        match internal.SyntheticPKeys conv !! table with
        | Some sPk =>
            let sp := ddl.with_ColNames (dropName (internal.Col sPk)) sp in
            let sp := ddl.with_ColDefs (fmap (delete (internal.Col sPk))) sp in
            ddl.with_Pks (dropPk (internal.Col sPk)) sp
        | None => sp
        end in
      ddl.with_Pks (λ pks, pks ++ [ddl.mkIndexKey colName false]) sp
    else sp in
  internal.with_SpSchema (<[table := sp]>) conv.

Definition updateNotNull (notNullChange table newColName : string)
    (conv : internal.Conv) : option internal.Conv :=
  let sp := index ddl.zeroCreateTable (internal.SpSchema conv) table in
  sp ← (if String_eqb notNullChange "ADDED" then
          setColDef newColName (ddl.with_NotNull true (colDef sp newColName)) sp
        else if String_eqb notNullChange "REMOVED" then
          setColDef newColName (ddl.with_NotNull false (colDef sp newColName)) sp
        else Some sp);
  Some (internal.with_SpSchema (<[table := sp]>) conv).

(** The actions on one column, as decoded from the request. *)
Record updateCol := mkUpdateCol {
  Removed : bool;
  Rename : string;
  PK : string;
  NotNull : string;
  ToType : string
}.

(** The test [v.Rename != "" && v.Rename != colName]. *)
Definition renamed (colName : string) (v : updateCol) : bool :=
  negb (String_eqb (Rename v) "") && negb (String_eqb (Rename v) colName).

Section TypeMapper.

(** The two dialect type mappers live in other files of the package:
    source type name, wanted Spanner type and modifiers to a Spanner
    type and the issues of the mapping. *)
Variable toSpannerTypeMySQL toSpannerTypePostgres :
  string → string → list Z → ddl.Type_ * list internal.SchemaIssue.

(** [conv.AddPrimaryKeys], of package [internal]: the model that it
    leaves, or [None] when it panics. *)
Variable AddPrimaryKeys : internal.Conv → option internal.Conv.

(** The [switch app.driver] of the retype paths; [None] is the
    unsupported driver. *)
Definition mapType (driver srcTypeName newType : string) (mods : list Z) :
    option (ddl.Type_ * list internal.SchemaIssue) :=
  if String_eqb driver "mysql" || String_eqb driver "mysqldump" then
    Some (toSpannerTypeMySQL srcTypeName newType mods)
  else if String_eqb driver "pg_dump" || String_eqb driver "postgres" then
    Some (toSpannerTypePostgres srcTypeName newType mods)
  else None.

(** What both retype paths do with the mapper's answer: the override for
    several array bounds, the issues that do not depend on the wanted
    type, and the array flag. *)
Definition retyped (srcCol : schema.Column)
    (r : ddl.Type_ * list internal.SchemaIssue) :
    ddl.Type_ * list internal.SchemaIssue :=
  let '(ty, issues) := r in
  let bounds := length (schema.ArrayBounds (schema.Type' srcCol)) in
  let '(ty, issues) :=
    if bool_decide (1 < bounds)%nat then
      (ddl.mkType ddl.String ddl.MaxLength false,
       issues ++ [internal.MultiDimensionalArray])
    else (ty, issues) in
  let issues :=
    if schema.Default (schema.Ignored' srcCol)
    then issues ++ [internal.DefaultValue] else issues in
  let issues :=
    if schema.AutoIncrement (schema.Ignored' srcCol)
    then issues ++ [internal.AutoIncrement] else issues in
  (ddl.mkType (ddl.Name ty) (ddl.Len ty) (bool_decide (bounds = 1%nat)), issues).

(** [app.conv.Issues[t][c] = issues] when there are issues: panics on
    the nil map of an absent source table. *)
Definition setIssues (srcTableName srcColName : string)
    (issues : list internal.SchemaIssue) (conv : internal.Conv) :
    option internal.Conv :=
  if bool_decide (0 < length issues)%nat then
    m ← internal.Issues conv !! srcTableName;
    Some (internal.with_Issues (<[srcTableName := <[srcColName := issues]> m]>) conv)
  else Some conv.

Definition updateType (driver newType table newColName srcTableName : string)
    (conv : internal.Conv) : option internal.Conv :=
  let sp := index ddl.zeroCreateTable (internal.SpSchema conv) table in
  let srcColName :=
    index "" (internal.colsOf (internal.ToSource conv) table) newColName in
  let srcCol :=
    index schema.zeroColumn
      (schema.ColDefs (index schema.zeroTable (internal.SrcSchema conv) srcTableName))
      srcColName in
  match mapType driver (schema.Name (schema.Type' srcCol)) newType
          (schema.Mods (schema.Type' srcCol)) with
  | None => Some conv
  | Some r =>
      let '(ty, issues) := retyped srcCol r in
      conv ← setIssues srcTableName (schema.colName srcCol) issues conv;
      sp ← setColDef newColName (ddl.with_T ty (colDef sp newColName)) sp;
      Some (internal.with_SpSchema (<[table := sp]>) conv)
  end.

(** The body of the loop of [updateTableSchema] for one entry of
    [UpdateCols]. *)
Definition updateColumn (driver table srcTableName colName : string)
    (v : updateCol) (conv : internal.Conv) : option internal.Conv :=
  if Removed v then Some (removeColumn table colName srcTableName conv)
  else
    conv ← (if renamed colName v
            then renameColumn (Rename v) table colName srcTableName conv
            else Some conv);
    let newColName := if renamed colName v then Rename v else colName in
    let conv :=
      if negb (String_eqb (PK v) "") then pkChanged (PK v) table newColName conv
      else conv in
    conv ← (if negb (String_eqb (ToType v) "")
            then updateType driver (ToType v) table newColName srcTableName conv
            else Some conv);
    if negb (String_eqb (NotNull v) "")
    then updateNotNull (NotNull v) table newColName conv
    else Some conv.

(** The loop of [updateTableSchema]: [edits] lists the entries of
    [UpdateCols] in the order in which the [range] over the map visits
    them. *)
Fixpoint updateColumns (driver table srcTableName : string)
    (edits : list (string * updateCol)) (conv : internal.Conv) :
    option internal.Conv :=
  match edits with
  | [] => Some conv
  | (colName, v) :: edits' =>
      conv ← updateColumn driver table srcTableName colName v conv;
      updateColumns driver table srcTableName edits' conv
  end.

Definition updateTableSchema (driver table : string)
    (edits : list (string * updateCol)) (conv : internal.Conv) :
    option internal.Conv :=
  let srcTableName :=
    internal.Name (index internal.zeroNameAndCols (internal.ToSource conv) table) in
  conv ← updateColumns driver table srcTableName edits conv;
  AddPrimaryKeys conv.

(** The body of the two loops of [setTypeMapGlobal] for the column [col]
    of the table [t]; [inr] is the early return on an unsupported driver. *)
Definition setTypeMapGlobal_col (driver : string) (typeMap : gmap string string)
    (t col : string) (conv : internal.Conv) :
    option (internal.Conv + internal.Conv) :=
  let spSchema := index ddl.zeroCreateTable (internal.SpSchema conv) t in
  let sourceTable :=
    internal.Name (index internal.zeroNameAndCols (internal.ToSource conv) t) in
  let sourceCol := index "" (internal.colsOf (internal.ToSource conv) t) col in
  let srcCol :=
    index schema.zeroColumn
      (schema.ColDefs (index schema.zeroTable (internal.SrcSchema conv) sourceTable))
      sourceCol in
  match typeMap !! schema.Name (schema.Type' srcCol) with
  | None => Some (inl conv)
  | Some newType =>
      match mapType driver (schema.Name (schema.Type' srcCol)) newType
              (schema.Mods (schema.Type' srcCol)) with
      | None => Some (inr conv)
      | Some r =>
          let '(ty, issues) := retyped srcCol r in
          conv ← setIssues sourceTable (schema.colName srcCol) issues conv;
          sp ← setColDef col (ddl.with_T ty (colDef spSchema col)) spSchema;
          Some (inl (internal.with_SpSchema (<[t := sp]>) conv))
      end
  end.

(** [setTypeMapGlobal]: [visit] lists the (table, column) pairs in the
    order in which the two nested [range] loops reach them. *)
Fixpoint setTypeMapGlobal (driver : string) (typeMap : gmap string string)
    (visit : list (string * string)) (conv : internal.Conv) :
    option internal.Conv :=
  match visit with
  | [] => Some conv
  | (t, col) :: visit' =>
      match setTypeMapGlobal_col driver typeMap t col conv with
      | None => None
      | Some (inr conv') => Some conv'
      | Some (inl conv') => setTypeMapGlobal driver typeMap visit' conv'
      end
  end.

End TypeMapper.

(** *** Interleaving *)

Record TableInterleaveStatus := mkTableInterleaveStatus {
  Possible : bool;
  Parent : string;
  Comment : string
}.

(** The loop of [checkPrimaryKeyPrefix] from position [i] on, over the
    rest of the parent's key.  The four tests of the [if] are taken in
    source order and short-circuit; [fk.Columns[i]] panics when the
    foreign key has no local column at [i]. *)
Fixpoint prefixLoop (i : nat) (parentPks childPks : list ddl.IndexKey)
    (fk : ddl.Foreignkey) : option bool :=
  match parentPks with
  | [] => Some true
  | pk :: rest =>
      if bool_decide (length (ddl.ReferColumns fk) ≤ i)%nat then Some false
      else
        r ← ddl.ReferColumns fk !! i;
        if negb (String_eqb (ddl.Col pk) r) then Some false
        else
          c ← childPks !! i;
          if negb (String_eqb (ddl.Col pk) (ddl.Col c)) then Some false
          else
            l ← ddl.Columns fk !! i;
            if negb (String_eqb l r) then Some false
            else prefixLoop (S i) rest childPks fk
  end.

Definition checkPrimaryKeyPrefix (table refTable : string) (fk : ddl.Foreignkey)
    (conv : internal.Conv) : option bool :=
  let childPks :=
    ddl.Pks (index ddl.zeroCreateTable (internal.SpSchema conv) table) in
  let parentPks :=
    ddl.Pks (index ddl.zeroCreateTable (internal.SpSchema conv) refTable) in
  if bool_decide (length parentPks ≤ length childPks)%nat
  then prefixLoop 0 parentPks childPks fk
  else Some false.

(** The loop of [checkForInterleavedTables] over the foreign keys that
    the table had on entry, from position [i] on. *)
Fixpoint interleaveLoop (table : string) (i : nat) (fks : list ddl.Foreignkey)
    (conv : internal.Conv) (st : TableInterleaveStatus) :
    option (internal.Conv * TableInterleaveStatus) :=
  match fks with
  | [] => Some (conv, st)
  | fk :: rest =>
      let refTable := ddl.ReferTable fk in
      if bool_decide (is_Some (internal.SyntheticPKeys conv !! refTable))
      then interleaveLoop table (S i) rest conv st
      else
        ok ← checkPrimaryKeyPrefix table refTable fk conv;
        if ok : bool then
          let sp := index ddl.zeroCreateTable (internal.SpSchema conv) table in
          let sp :=
            ddl.mkCreateTable (ddl.ctName sp) (ddl.ColNames sp) (ddl.ColDefs sp)
              (ddl.Pks sp) (removeFk (ddl.Fks sp) i) refTable in
          Some (internal.with_SpSchema (<[table := sp]>) conv,
                mkTableInterleaveStatus (Possible st) refTable (Comment st))
        else interleaveLoop table (S i) rest conv st
  end.

(** [checkForInterleavedTables]; the status is [None] when the request
    is refused because no driver is configured. *)
Definition checkForInterleavedTables (driver table : string)
    (conv : internal.Conv) :
    option (internal.Conv * option TableInterleaveStatus) :=
  if String_eqb driver "" then Some (conv, None)
  else
    let st := mkTableInterleaveStatus true "" "" in
    let st :=
      if bool_decide (is_Some (internal.SyntheticPKeys conv !! table))
      then mkTableInterleaveStatus false (Parent st) "Has synthetic pk"
      else st in
    if Possible st then
      '(conv, st) ←
        interleaveLoop table 0
          (ddl.Fks (index ddl.zeroCreateTable (internal.SpSchema conv) table))
          conv st;
      let st :=
        if String_eqb (Parent st) ""
        then mkTableInterleaveStatus false (Parent st) "No valid prefix"
        else st in
      Some (conv, Some st)
    else Some (conv, Some st).

(** *** Conversion rating *)

(** [rateSchema]: the cases of the [switch] in source order. *)
Definition rateSchema (cols warnings : Z) (missingPKey : bool) : string :=
  let good (total badCount : Z) := bool_decide (badCount < total ÷ 20) in
  let ok (total badCount : Z) := bool_decide (badCount < total ÷ 3) in
  if bool_decide (cols = 0) then "GRAY"
  else if bool_decide (warnings = 0) && negb missingPKey then "GREEN"
  else if bool_decide (warnings = 0) && missingPKey then "BLUE"
  else if good cols warnings && negb missingPKey then "BLUE"
  else if good cols warnings && missingPKey then "BLUE"
  else if ok cols warnings && negb missingPKey then "YELLOW"
  else if ok cols warnings && missingPKey then "YELLOW"
  else if negb missingPKey then "RED"
  else "RED".

End web.

(** ** Package [postgres]: data conversion *)

Module postgres.

(** The result of a Go function that returns a value and an [error]. *)
Inductive result (A : Type) :=
  | Ok (a : A)
  | Err (msg : string).
Arguments Ok {A} a.
Arguments Err {A} msg.

(** What the data path takes from the Go runtime, from the database
    driver and from the other files of the package: the representations of
    floating-point numbers, times, dates and converted arrays, the value
    parsers ([convBool], ..., [convArray]), the numeric conversions and the
    formatting functions, the two name lookups of package [internal], and
    the policy that bounds the sample of bad rows.  The lookups are handed
    the model by pointer: they answer with the model that they leave. *)
Class Runtime := {
  float64 : Type;
  Time : Type;
  CivilDate : Type;
  ArrayValue : Type;
  convBool : string → result bool;
  convDate : string → result CivilDate;
  convInt64 : string → result Z;
  convFloat64 : string → result float64;
  convTimestamp : string → string → string → result Time;
  convArray : ddl.Type_ → string → string → string → result ArrayValue;
  DateOf : Time → CivilDate;
  int64_of_float : float64 → Z;
  float_of_int64 : Z → float64;
  FormatInt : Z → string;
  FormatFloat : float64 → string;
  Time_String : Time → string;
  GetSpannerTable : internal.Conv → string → result string * internal.Conv;
  GetSpannerCols :
    internal.Conv → string → list string → result (list string) * internal.Conv;
  sampleHasRoom : list internal.row → internal.row → bool
}.

Section DataPath.

Context `{Runtime}.

(** A value as [rows.Scan] delivers it into an [interface{}]. *)
Inductive sqlval :=
  | SqlNil
  | SqlBool (b : bool)
  | SqlBytes (s : string)
  | SqlInt64 (n : Z)
  | SqlFloat64 (f : float64)
  | SqlString (s : string)
  | SqlTime (t : Time)
  | SqlOther (goType : string).

(** A value as it is handed to Spanner. *)
Inductive spval :=
  | SpBool (b : bool)
  | SpBytes (s : string)
  | SpDate (d : CivilDate)
  | SpInt64 (n : Z)
  | SpFloat64 (f : float64)
  | SpString (s : string)
  | SpTimestamp (t : Time)
  | SpArray (a : ArrayValue).

Definition is_nil (v : sqlval) : bool :=
  match v with SqlNil => true | _ => false end.

(** [reflect.TypeOf(val)], printed with [%s]; the type of [nil] is the
    nil [reflect.Type]. *)
Definition goTypeOf (v : sqlval) : string :=
  match v with
  | SqlNil => "%!s(<nil>)"
  | SqlBool _ => "bool"
  | SqlBytes _ => "[]uint8"
  | SqlInt64 _ => "int64"
  | SqlFloat64 _ => "float64"
  | SqlString _ => "string"
  | SqlTime _ => "time.Time"
  | SqlOther ty => ty
  end.

Definition map_result {A B} (f : A → B) (r : result A) : result B :=
  match r with Ok a => Ok (f a) | Err e => Err e end.

Definition cvtSQLArray (conv : internal.Conv) (srcCd : schema.Column)
    (spCd : ddl.ColumnDef) (val : sqlval) : result spval :=
  match val with
  | SqlBytes a =>
      map_result SpArray
        (convArray (ddl.T spCd) (schema.Name (schema.Type' srcCd))
           (internal.Location conv) a)
  | _ => Err "can't convert array values to []byte"
  end.

Definition FormatBool (b : bool) : string := if b then "true" else "false".

(** The outer switch is on the name of the Spanner type, the inner ones
    on the dynamic type of the value; every pair without a case falls
    through to the error at the end. *)
Definition cvtSQLScalar (conv : internal.Conv) (srcCd : schema.Column)
    (spCd : ddl.ColumnDef) (val : sqlval) : result spval :=
  let fail :=
    Err ("can't convert value of type " +:+ goTypeOf val +:+
         " to Spanner type ddl.Type") in
  let ty := ddl.Name (ddl.T spCd) in
  if String_eqb ty ddl.Bool then
    match val with
    | SqlBool v => Ok (SpBool v)
    | SqlString v => map_result SpBool (convBool v)
    | _ => fail
    end
  else if String_eqb ty ddl.Bytes then
    match val with
    | SqlBytes v => Ok (SpBytes v)
    | _ => fail
    end
  else if String_eqb ty ddl.Date then
    match val with
    | SqlString v => map_result SpDate (convDate v)
    | SqlTime v => Ok (SpDate (DateOf v))
    | _ => fail
    end
  else if String_eqb ty ddl.Int64 then
    match val with
    | SqlBytes v => map_result SpInt64 (convInt64 v)
    | SqlInt64 v => Ok (SpInt64 v)
    | SqlFloat64 v => Ok (SpInt64 (int64_of_float v))
    | SqlString v => map_result SpInt64 (convInt64 v)
    | _ => fail
    end
  else if String_eqb ty ddl.Float64 then
    match val with
    | SqlBytes v => map_result SpFloat64 (convFloat64 v)
    | SqlInt64 v => Ok (SpFloat64 (float_of_int64 v))
    | SqlFloat64 v => Ok (SpFloat64 v)
    | SqlString v => map_result SpFloat64 (convFloat64 v)
    | _ => fail
    end
  else if String_eqb ty ddl.String then
    match val with
    | SqlBool v => Ok (SpString (FormatBool v))
    | SqlBytes v => Ok (SpString v)
    | SqlInt64 v => Ok (SpString (FormatInt v))
    | SqlFloat64 v => Ok (SpString (FormatFloat v))
    | SqlString v => Ok (SpString v)
    | SqlTime v => Ok (SpString (Time_String v))
    | _ => fail
    end
  else if String_eqb ty ddl.Timestamp then
    match val with
    | SqlString v =>
        map_result SpTimestamp
          (convTimestamp (schema.Name (schema.Type' srcCd))
             (internal.Location conv) v)
    | SqlTime v => Ok (SpTimestamp v)
    | _ => fail
    end
  else fail.

(** [bits.Reverse64] on the low [n] bits: the lowest bit becomes the
    highest, the others follow reversed below it. *)
Fixpoint reverse_bits (n : nat) (x : Z) : Z :=
  match n with
  | O => 0
  | S n' => Z.b2z (Z.odd x) * 2 ^ Z.of_nat n' + reverse_bits n' (Z.div2 x)
  end.

Definition Reverse64 (x : Z) : Z := reverse_bits 64 x.

(** [int64(bits.Reverse64(uint64(seq)))]. *)
Definition reversed_sequence (seq : Z) : Z :=
  wrap64 (Reverse64 (seq `mod` 2 ^ 64)).

(** The loop of [ConvertSQLRow] from position [i] on, [todo] being
    [srcCols[i:]]: [inl] is the error return, [inr] the columns and values
    gathered.  Indexing [spCols] or [srcVals] out of range panics. *)
Fixpoint convertColumns (conv : internal.Conv) (srcTable : string)
    (srcSchema : schema.Table) (spCols : list string) (spSchema : ddl.CreateTable)
    (srcVals : list sqlval) (i : nat) (todo : list string)
    (cs : list string) (vs : list spval) :
    option (string + list string * list spval) :=
  match todo with
  | [] => Some (inr (cs, vs))
  | srcColName :: todo' =>
      spColName ← spCols !! i;
      match schema.ColDefs srcSchema !! srcColName,
            ddl.ColDefs spSchema ≫= (.!! spColName) with
      | Some srcCd, Some spCd =>
          val ← srcVals !! i;
          if is_nil val then
            convertColumns conv srcTable srcSchema spCols spSchema srcVals
              (S i) todo' cs vs
          else
            match (if ddl.IsArray (ddl.T spCd)
                   then cvtSQLArray conv srcCd spCd val
                   else cvtSQLScalar conv srcCd spCd val) with
            | Err err =>
                Some (inl ("can't convert sql data for column " +:+ srcColName +:+
                           " of table " +:+ srcTable +:+ ": " +:+ err))
            | Ok spVal =>
                convertColumns conv srcTable srcSchema spCols spSchema srcVals
                  (S i) todo' (cs ++ [srcColName]) (vs ++ [spVal])
            end
      | _, _ =>
          Some (inl ("data conversion: can't find schema for column " +:+
                     srcColName +:+ " of table " +:+ srcTable))
      end
  end.

(** [ConvertSQLRow]: the columns, the values and the error that it
    returns, and the model it leaves. *)
Definition ConvertSQLRow (conv : internal.Conv) (srcTable : string)
    (srcCols : list string) (srcSchema : schema.Table) (spTable : string)
    (spCols : list string) (spSchema : ddl.CreateTable) (srcVals : list sqlval) :
    option (list string * list spval * option string * internal.Conv) :=
  r ← convertColumns conv srcTable srcSchema spCols spSchema srcVals 0 srcCols [] [];
  match r with
  | inl err => Some ([], [], Some err, conv)
  | inr (cs, vs) =>
      match internal.SyntheticPKeys conv !! spTable with
      | Some aux =>
          let cs := cs ++ [internal.Col aux] in
          let vs := vs ++ [SpInt64 (reversed_sequence (internal.Sequence aux))] in
          let aux :=
            internal.mkSyntheticPKey (internal.Col aux)
              (wrap64 (internal.Sequence aux + 1)) in
          Some (cs, vs, None,
                internal.with_SyntheticPKeys (<[spTable := aux]>) conv)
      | None => Some (cs, vs, None, conv)
      end
  end.

(** [fmt.Sprintf("%v", val)] of the Go runtime. *)
Variable Sprint : sqlval → string.

Definition valsToStrings (vals : list sqlval) : list string :=
  let toString (val : sqlval) :=
    if is_nil val then "NULL" else Sprint val in
  toString <$> vals.

Definition buildTableName (schema name : string) : string :=
  if String_eqb schema "public" then name else schema +:+ "." +:+ name.

Record schemaAndName := mkSchemaAndName {
  schema : string;
  name : string
}.

(** The rows of a query: the answer of [rows.Columns], and the values
    that each [rows.Scan] after a successful [rows.Next] delivers, or its
    error.  A scan fills as many values as the query has columns. *)
Record Rows := mkRows {
  Columns : result (list string);
  scans : list (result (list sqlval))
}.

(** The database: the rows of the query of [getTables] over the
    information schema, and the answer to a data query. *)
Record DB := mkDB {
  tableRows : result (list (string * string));
  Query : string → result Rows
}.

Definition ignored : list string :=
  ["information_schema"; "postgres"; "pg_catalog"; "pg_temp_1"; "pg_toast";
   "pg_toast_temp_1"].

Definition getTables (db : DB) : result (list schemaAndName) :=
  match tableRows db with
  | Err err => Err ("couldn't get tables: " +:+ err)
  | Ok rows =>
      Ok ((λ r, mkSchemaAndName r.1 r.2) <$>
          filter (λ r, r.1 ∉ ignored) rows)
  end.

(** The double-quote character. *)
Definition dquote : string := String (Ascii.ascii_of_nat 34) EmptyString.

(** [SELECT * FROM "schema"."name";] *)
Definition selectAll (t : schemaAndName) : string :=
  "SELECT * FROM " +:+ dquote +:+ schema t +:+ dquote +:+ "." +:+ dquote +:+
  name t +:+ dquote +:+ ";".

(** An [error] printed with [%s]. *)
Definition errText {A} (r : result A) : string :=
  match r with Ok _ => "%!s(<nil>)" | Err e => e end.

Definition is_Err {A} (r : result A) : bool :=
  match r with Ok _ => false | Err _ => true end.

(** The value that Go returns next to a non-nil error. *)
Definition value_or {A} (zero : A) (r : result A) : A :=
  match r with Ok a => a | Err _ => zero end.

(** A row handed to the sink: [conv.WriteRow(srcTable, spTable, cols,
    vals)]. *)
Record written := mkWritten {
  wSrcTable : string;
  wSpTable : string;
  wCols : list string;
  wVals : list spval
}.

(** The model and the rows written so far. *)
Record state := mkState {
  conv : internal.Conv;
  sink : list written
}.

(** Modelled from the spec: [conv.WriteRow], a method of package
    [internal], emits the converted row to the sink. *)
Definition WriteRow (srcTable spTable : string) (cols : list string)
    (vals : list spval) (st : state) : state :=
  mkState (conv st) (sink st ++ [mkWritten srcTable spTable cols vals]).

(** The loop [for rows.Next()] of [ProcessSQLData]. *)
Fixpoint processRows (srcTable : string) (srcCols : list string)
    (srcSchema : schema.Table) (spTable : string) (spCols : list string)
    (spSchema : ddl.CreateTable) (rows : list (result (list sqlval)))
    (st : state) : option state :=
  match rows with
  | [] => Some st
  | Err err :: rows' =>
      let c := internal.Unexpected ("Couldn't process sql data row: " +:+ err)
                 (conv st) in
      let c := internal.StatsAddBadRow srcTable (internal.DataMode c) c in
      processRows srcTable srcCols srcSchema spTable spCols spSchema rows'
        (mkState c (sink st))
  | Ok v :: rows' =>
      '(cvtCols, cvtVals, err, c) ←
        ConvertSQLRow (conv st) srcTable srcCols srcSchema spTable spCols
          spSchema v;
      match err with
      | Some err =>
          let c := internal.Unexpected ("Couldn't process sql data row: " +:+ err)
                     c in
          let c := internal.StatsAddBadRow srcTable (internal.DataMode c) c in
          let c := internal.CollectBadRow sampleHasRoom srcTable srcCols
                     (valsToStrings v) c in
          processRows srcTable srcCols srcSchema spTable spCols spSchema rows'
            (mkState c (sink st))
      | None =>
          processRows srcTable srcCols srcSchema spTable spCols spSchema rows'
            (WriteRow srcTable spTable cvtCols cvtVals (mkState c (sink st)))
      end
  end.

(** [conv.Stats.BadRows[srcTable] += conv.Stats.Rows[srcTable]]. *)
Definition allRowsBad (srcTable : string) (c : internal.Conv) : internal.Conv :=
  internal.with_Stats
    (λ st, internal.mkStats (internal.Rows st)
             (<[srcTable := wrap64 (index 0 (internal.BadRows st) srcTable +
                                    index 0 (internal.Rows st) srcTable)]>
                (internal.BadRows st))
             (internal.UnexpectedCount st))
    c.

(** The body of the loop over the tables of [ProcessSQLData].  The two
    lookups run one after the other on the model, and what follows runs on
    the model that they leave. *)
Definition processTable (db : DB) (t : schemaAndName) (st : state) :
    option state :=
  match Query db (selectAll t) with
  | Err err =>
      Some (mkState
              (internal.Unexpected ("Couldn't get data for table: " +:+ err)
                 (conv st))
              (sink st))
  | Ok rows =>
      let srcTable := buildTableName (schema t) (name t) in
      let err1 := Columns rows in
      let srcCols := value_or [] err1 in
      let looked := GetSpannerTable (conv st) srcTable in
      let err2 := looked.1 in
      let spTable := value_or "" err2 in
      let looked := GetSpannerCols looked.2 srcTable srcCols in
      let err3 := looked.1 in
      let spCols := value_or [] err3 in
      let c := looked.2 in
      let ok1 := internal.SpSchema c !! spTable in
      let ok2 := internal.SrcSchema c !! srcTable in
      match ok1, ok2 with
      | Some spSchema, Some srcSchema =>
          if is_Err err1 || is_Err err2 || is_Err err3 then
            let c := allRowsBad srcTable c in
            Some (mkState
                    (internal.Unexpected
                       ("Can't get cols and schemas for table " +:+ srcTable +:+
                        ": err1=" +:+ errText err1 +:+ ", err2=" +:+ errText err2 +:+
                        ", err3=" +:+ errText err3 +:+ ", ok1=true, ok2=true") c)
                    (sink st))
          else
            processRows srcTable srcCols srcSchema spTable spCols spSchema
              (scans rows) (mkState c (sink st))
      | _, _ =>
          let c := allRowsBad srcTable c in
          Some (mkState
                  (internal.Unexpected
                     ("Can't get cols and schemas for table " +:+ srcTable +:+
                      ": err1=" +:+ errText err1 +:+ ", err2=" +:+ errText err2 +:+
                      ", err3=" +:+ errText err3 +:+
                      ", ok1=" +:+ FormatBool (bool_decide (is_Some ok1)) +:+
                      ", ok2=" +:+ FormatBool (bool_decide (is_Some ok2))) c)
                  (sink st))
      end
  end.

Fixpoint processTables (db : DB) (tables : list schemaAndName) (st : state) :
    option state :=
  match tables with
  | [] => Some st
  | t :: tables' =>
      st ← processTable db t st;
      processTables db tables' st
  end.

Definition ProcessSQLData (db : DB) (st : state) : option state :=
  match getTables db with
  | Err err =>
      Some (mkState
              (internal.Unexpected ("Couldn't get list of table: " +:+ err)
                 (conv st))
              (sink st))
  | Ok tables => processTables db tables st
  end.

End DataPath.

End postgres.

(** ** Package [postgres]: schema extraction

    The functions of the package that read the information schema.  The
    answer of a query stands for the query: the rows that [rows.Next] and
    [rows.Scan] deliver in order, each the scanned values or the error of
    the scan. *)

Module infoschema.

(** [schema.Fkey]. *)
Record Fkey := mkFkey {
  Column : list string;
  ReferTable : string;
  ReferColumn : list string
}.

(** [toType]: the cases of the [switch] in source order.  A
    [sql.NullString] or [sql.NullInt64] is [None] when it is not [Valid];
    its value then reads as the zero value. *)
Definition toType (dataType : string) (elementDataType : option string)
    (charLen numericPrecision numericScale : option Z) : schema.Type_ :=
  if String_eqb dataType "ARRAY" && bool_decide (is_Some elementDataType) then
    schema.mkType (default "" elementDataType) [] [-1]
  else if bool_decide (is_Some charLen) then
    schema.mkType dataType [default 0 charLen] []
  else if String_eqb dataType "numeric" &&
          bool_decide (is_Some numericPrecision) &&
          bool_decide (is_Some numericScale) &&
          negb (bool_decide (default 0 numericScale = 0)) then
    schema.mkType dataType [default 0 numericPrecision; default 0 numericScale] []
  else if String_eqb dataType "numeric" &&
          bool_decide (is_Some numericPrecision) then
    schema.mkType dataType [default 0 numericPrecision] []
  else schema.mkType dataType [] [].

(** [toNotNull]: the answer and the model, which takes the report of an
    unknown value. *)
Definition toNotNull (isNullable : string) (conv : internal.Conv) :
    bool * internal.Conv :=
  if String_eqb isNullable "YES" then (false, conv)
  else if String_eqb isNullable "NO" then (true, conv)
  else (false,
        internal.Unexpected
          ("isNullable column has unknown value: " +:+ isNullable) conv).

(** A row of the query of [getColumns], as [cols.Scan] delivers it. *)
Record columnRow := mkColumnRow {
  colName : string;
  dataType : string;
  elementDataType : option string;
  isNullable : string;
  colDefault : option string;
  charMaxLen : option Z;
  numericPrecision : option Z;
  numericScale : option Z
}.

(** The loop [for _, c := range constraints[colName]] of
    [processColumns]: the flag [unique] and the ignored constraints. *)
Definition constraintFlags (cs : list string) : bool * schema.Ignored :=
  foldl
    (λ '(unique, ignored) c,
       if String_eqb c "UNIQUE" then (true, ignored)
       else if String_eqb c "FOREIGN KEY" then
         (unique,
          schema.mkIgnored (schema.Check ignored) (schema.Default ignored) true
            (schema.AutoIncrement ignored))
       else if String_eqb c "CHECK" then
         (unique,
          schema.mkIgnored true (schema.Default ignored)
            (schema.ForeignKey ignored) (schema.AutoIncrement ignored))
       else (unique, ignored))
    (false, schema.mkIgnored false false false false) cs.

(** The column that [processColumns] builds from a scanned row. *)
Definition column (r : columnRow) (constraints : gmap string (list string))
    (conv : internal.Conv) : schema.Column * internal.Conv :=
  let '(unique, ignored) := constraintFlags (index [] constraints (colName r)) in
  let ignored :=
    schema.mkIgnored (schema.Check ignored)
      (bool_decide (is_Some (colDefault r))) (schema.ForeignKey ignored)
      (schema.AutoIncrement ignored) in
  let '(notNull, conv) := toNotNull (isNullable r) conv in
  (schema.mkColumn (colName r)
     (toType (dataType r) (elementDataType r) (charMaxLen r)
        (numericPrecision r) (numericScale r))
     notNull unique ignored,
   conv).

(** The loop [for cols.Next()] of [processColumns]. *)
Fixpoint processColumns_loop (cols : list (postgres.result columnRow))
    (constraints : gmap string (list string))
    (colDefs : gmap string schema.Column) (colNames : list string)
    (conv : internal.Conv) :
    gmap string schema.Column * list string * internal.Conv :=
  match cols with
  | [] => (colDefs, colNames, conv)
  | postgres.Err err :: cols' =>
      processColumns_loop cols' constraints colDefs colNames
        (internal.Unexpected ("Can't scan: " +:+ err) conv)
  | postgres.Ok r :: cols' =>
      let '(c, conv) := column r constraints conv in
      processColumns_loop cols' constraints (<[colName r := c]> colDefs)
        (colNames ++ [colName r]) conv
  end.

Definition processColumns (conv : internal.Conv)
    (cols : list (postgres.result columnRow))
    (constraints : gmap string (list string)) :
    gmap string schema.Column * list string * internal.Conv :=
  processColumns_loop cols constraints ∅ [] conv.

(** The loop [for rows.Next()] of [getConstraints]. *)
Fixpoint getConstraints_loop (rows : list (postgres.result (string * string)))
    (primaryKeys : list string) (m : gmap string (list string))
    (conv : internal.Conv) :
    list string * gmap string (list string) * internal.Conv :=
  match rows with
  | [] => (primaryKeys, m, conv)
  | postgres.Err err :: rows' =>
      getConstraints_loop rows' primaryKeys m
        (internal.Unexpected ("Can't scan: " +:+ err) conv)
  | postgres.Ok (col, constraint) :: rows' =>
      if String_eqb col "" || String_eqb constraint "" then
        getConstraints_loop rows' primaryKeys m
          (internal.Unexpected "Got empty col or constraint" conv)
      else if String_eqb constraint "PRIMARY KEY" then
        getConstraints_loop rows' (primaryKeys ++ [col]) m conv
      else
        getConstraints_loop rows' primaryKeys
          (<[col := index [] m col ++ [constraint]]> m) conv
  end.

(** [getConstraints]: [q] is the answer of [db.Query]. *)
Definition getConstraints (conv : internal.Conv)
    (q : postgres.result (list (postgres.result (string * string)))) :
    postgres.result (list string * gmap string (list string)) * internal.Conv :=
  match q with
  | postgres.Err err => (postgres.Err err, conv)
  | postgres.Ok rows =>
      let '(primaryKeys, m, conv) := getConstraints_loop rows [] ∅ conv in
      (postgres.Ok (primaryKeys, m), conv)
  end.

(** [getRefTables]: the error of [rows.Scan] is not looked at, so a row
    of the answer is what the two scanned variables hold after the scan. *)
Definition getRefTables (q : postgres.result (list (string * string))) :
    postgres.result (list postgres.schemaAndName) :=
  match q with
  | postgres.Err err => postgres.Err ("couldn't get reference tables: " +:+ err)
  | postgres.Ok rows =>
      postgres.Ok ((λ r, postgres.mkSchemaAndName r.1 r.2) <$> rows)
  end.

(** The loop [for rows.Next()] of [getForeignKey]. *)
Fixpoint getForeignKey_loop (rows : list (postgres.result (string * string)))
    (cols refCols : list string) (conv : internal.Conv) :
    list string * list string * internal.Conv :=
  match rows with
  | [] => (cols, refCols, conv)
  | postgres.Err err :: rows' =>
      getForeignKey_loop rows' cols refCols
        (internal.Unexpected ("Can't scan: " +:+ err) conv)
  | postgres.Ok (col, refCol) :: rows' =>
      getForeignKey_loop rows' (cols ++ [col]) (refCols ++ [refCol]) conv
  end.

Definition getForeignKey (conv : internal.Conv)
    (q : postgres.result (list (postgres.result (string * string))))
    (refTable : postgres.schemaAndName) : postgres.result Fkey * internal.Conv :=
  match q with
  | postgres.Err err => (postgres.Err err, conv)
  | postgres.Ok rows =>
      let '(cols, refCols, conv) := getForeignKey_loop rows [] [] conv in
      (postgres.Ok
         (mkFkey cols
            (postgres.buildTableName (postgres.schema refTable)
               (postgres.name refTable))
            refCols),
       conv)
  end.

(** The loop of [getForeignKeys] over the referenced tables; [fkQuery]
    answers the query of [getForeignKey] for a referenced table. *)
Fixpoint getForeignKeys_loop
    (fkQuery : postgres.schemaAndName →
               postgres.result (list (postgres.result (string * string))))
    (refTables : list postgres.schemaAndName) (foreignKeys : list Fkey)
    (conv : internal.Conv) : postgres.result (list Fkey) * internal.Conv :=
  match refTables with
  | [] => (postgres.Ok foreignKeys, conv)
  | refTable :: refTables' =>
      match getForeignKey conv (fkQuery refTable) refTable with
      | (postgres.Err err, conv) => (postgres.Err err, conv)
      | (postgres.Ok fkey, conv) =>
          getForeignKeys_loop fkQuery refTables' (foreignKeys ++ [fkey]) conv
      end
  end.

Definition getForeignKeys (conv : internal.Conv)
    (refQuery : postgres.result (list (string * string)))
    (fkQuery : postgres.schemaAndName →
               postgres.result (list (postgres.result (string * string)))) :
    postgres.result (list Fkey) * internal.Conv :=
  match getRefTables refQuery with
  | postgres.Err err => (postgres.Err err, conv)
  | postgres.Ok refTables => getForeignKeys_loop fkQuery refTables [] conv
  end.

(** The answer of a [SELECT COUNT( * )] query: the query fails, or there
    is no row, or the scan of the count fails, or there is a count. *)
Inductive countAnswer :=
  | QueryFails (err : string)
  | NoRow
  | ScanFails (err : string)
  | Count (count : Z).

(** The body of the loop of [SetRowStats]. *)
Definition setRowStats (countQuery : postgres.schemaAndName → countAnswer)
    (t : postgres.schemaAndName) (conv : internal.Conv) : internal.Conv :=
  let tableName := postgres.buildTableName (postgres.schema t) (postgres.name t) in
  match countQuery t with
  | QueryFails _ =>
      internal.Unexpected
        ("Couldn't get number of rows for table " +:+ tableName) conv
  | NoRow => conv
  | ScanFails err => internal.Unexpected ("Can't get row count: " +:+ err) conv
  | Count count =>
      internal.with_Stats
        (λ st, internal.mkStats
                 (<[tableName := wrap64 (index 0 (internal.Rows st) tableName + count)]>
                    (internal.Rows st))
                 (internal.BadRows st) (internal.UnexpectedCount st))
        conv
  end.

Section RowStats.

Context `{postgres.Runtime}.

(** [SetRowStats]: [countQuery] is the answer of the count query of a
    table. *)
Definition SetRowStats (db : postgres.DB)
    (countQuery : postgres.schemaAndName → countAnswer) (conv : internal.Conv) :
    internal.Conv :=
  match postgres.getTables db with
  | postgres.Err err =>
      internal.Unexpected ("Couldn't get list of table: " +:+ err) conv
  | postgres.Ok tables =>
      foldl (λ conv t, setRowStats countQuery t conv) conv tables
  end.

End RowStats.

End infoschema.

(** ** Package [web]: the type map of the conversion *)

Module typemap.

Section TypeMap.

(** [typeIssue], and the two tables that [init] fills. *)
Variable typeIssue : Type.
Variable mysqlTypeMap postgresTypeMap : gmap string (list typeIssue).

(** The answers of the handler: the two refusals, and the filtered map
    sent with [http.StatusOK]. *)
Inductive response :=
  | StatusNotFound
  | StatusBadRequest
  | StatusOK (filteredTypeMap : gmap string (list typeIssue)).

(** The two nested loops of [getTypeMap]; [visit] lists the column
    definitions of the source schema in the order in which the loops reach
    them.  A type name without entry in [typeMap] reads as the nil slice. *)
Definition filterTypeMap (typeMap : gmap string (list typeIssue))
    (visit : list schema.Column) : gmap string (list typeIssue) :=
  foldl
    (λ filteredTypeMap colDef,
       let name := schema.Name (schema.Type' colDef) in
       match filteredTypeMap !! name with
       | Some _ => filteredTypeMap
       | None => <[name := index [] typeMap name]> filteredTypeMap
       end)
    ∅ visit.

(** [getTypeMap]; [conv] is [None] for the nil pointer. *)
Definition getTypeMap (conv : option internal.Conv) (driver : string)
    (visit : list schema.Column) : response :=
  match conv with
  | None => StatusNotFound
  | Some _ =>
      if String_eqb driver "" then StatusNotFound
      else if String_eqb driver "mysql" || String_eqb driver "mysqldump" then
        StatusOK (filterTypeMap mysqlTypeMap visit)
      else if String_eqb driver "postgres" || String_eqb driver "pg_dump" then
        StatusOK (filterTypeMap postgresTypeMap visit)
      else StatusBadRequest
  end.

End TypeMap.

Arguments StatusNotFound {typeIssue}.
Arguments StatusBadRequest {typeIssue}.
Arguments StatusOK {typeIssue} filteredTypeMap.

End typemap.

(** * Properties *)

Example rateSchema_samples :
  web.rateSchema 0 5 true = "GRAY" ∧ web.rateSchema 40 0 false = "GREEN" ∧
  web.rateSchema 40 0 true = "BLUE" ∧ web.rateSchema 40 1 true = "BLUE" ∧
  web.rateSchema 40 2 false = "YELLOW" ∧ web.rateSchema 40 13 false = "RED" ∧
  web.rateSchema (-40) (-3) false = "BLUE".
Proof. repeat split; reflexivity. Qed.

(** C10: [rateSchema] is total into the five labels, and each label is
    returned exactly under the condition of its place in the cascade: GRAY
    iff there are no columns; otherwise GREEN iff there is no warning and
    the key is not missing; otherwise BLUE iff there is no warning or fewer
    warnings than a twentieth of the columns (truncating division);
    otherwise YELLOW iff fewer than a third; otherwise RED.  The
    missing-key flag changes the label only when there is no warning. *)
Theorem rateSchema_classifier (cols warnings : Z) (missingPKey : bool) :
  let r := web.rateSchema cols warnings missingPKey in
  r ∈ ["GRAY"; "GREEN"; "BLUE"; "YELLOW"; "RED"] ∧
  (r = "GRAY" ↔ cols = 0) ∧
  (r = "GREEN" ↔ cols ≠ 0 ∧ warnings = 0 ∧ missingPKey = false) ∧
  (r = "BLUE" ↔ cols ≠ 0 ∧ ¬ (warnings = 0 ∧ missingPKey = false) ∧
                 (warnings = 0 ∨ warnings < cols ÷ 20)) ∧
  (r = "YELLOW" ↔ cols ≠ 0 ∧ warnings ≠ 0 ∧ ¬ warnings < cols ÷ 20 ∧
                   warnings < cols ÷ 3) ∧
  (r = "RED" ↔ cols ≠ 0 ∧ warnings ≠ 0 ∧ ¬ warnings < cols ÷ 20 ∧
                ¬ warnings < cols ÷ 3) ∧
  (web.rateSchema cols warnings true = web.rateSchema cols warnings false
   ∨ warnings = 0).
Proof.
  unfold web.rateSchema.
  destruct missingPKey; simpl; repeat case_bool_decide; simpl;
    (split; [set_solver |]); intuition (first [discriminate | lia]).
Qed.

(** ** Interleaving *)

(** The condition of the specification at the ordinal position [k] of
    the parent's key [pk]: (a) the parent's key column is the foreign
    key's referenced column, (b) the child's key column is the foreign
    key's local column, (c) the local and the referenced column have the
    same name. *)
Definition prefix_ok_at (childPks : list ddl.IndexKey) (fk : ddl.Foreignkey)
    (k : nat) (pk : ddl.IndexKey) : Prop :=
  ddl.ReferColumns fk !! k = Some (ddl.Col pk) ∧
  (∃ c, childPks !! k = Some c ∧ ddl.Columns fk !! k = Some (ddl.Col c)) ∧
  (∃ l, ddl.Columns fk !! k = Some l ∧ ddl.ReferColumns fk !! k = Some l).

(** Co-location of [table] under [refTable] through [fk], in the words of
    the specification. *)
Definition colocatable (conv : internal.Conv) (table refTable : string)
    (fk : ddl.Foreignkey) : Prop :=
  let childPks :=
    ddl.Pks (index ddl.zeroCreateTable (internal.SpSchema conv) table) in
  let parentPks :=
    ddl.Pks (index ddl.zeroCreateTable (internal.SpSchema conv) refTable) in
  (length parentPks ≤ length childPks)%nat ∧
  ∀ i pk, parentPks !! i = Some pk → prefix_ok_at childPks fk i pk.

Lemma prefixLoop_true i parentPks childPks fk :
  web.prefixLoop i parentPks childPks fk = Some true ↔
  ∀ j pk, parentPks !! j = Some pk → prefix_ok_at childPks fk (i + j) pk.
Proof.
  revert i. induction parentPks as [|pk rest IH]; intros i; simpl.
  { split; [intros _ j pk Hj; by rewrite lookup_nil in Hj | done]. }
  assert (Hhead : (∀ j pk', (pk :: rest) !! j = Some pk' →
                     prefix_ok_at childPks fk (i + j) pk') →
                  prefix_ok_at childPks fk i pk).
  { intros H. specialize (H 0%nat pk eq_refl). by rewrite Nat.add_0_r in H. }
  case_bool_decide as Hlen.
  { split; [done |]. intros H. apply Hhead in H as [Hr _].
    apply lookup_lt_Some in Hr. lia. }
  destruct (ddl.ReferColumns fk !! i) as [r|] eqn:Er; simpl;
    [| apply lookup_ge_None in Er; lia].
  unfold String_eqb. case_bool_decide as Hpr; simpl;
    [| split; [done |]; intros H; apply Hhead in H as [Hr _]; congruence].
  destruct (childPks !! i) as [c|] eqn:Ec; simpl;
    [| split; [done |]; intros H; apply Hhead in H as (_ & (c & Hc & _) & _);
       congruence].
  case_bool_decide as Hpc; simpl;
    [| split; [done |]; intros H;
       apply Hhead in H as (Hr & (c' & Hc & Hl) & (l & Hl' & Hr')); congruence].
  destruct (ddl.Columns fk !! i) as [l|] eqn:El; simpl;
    [| split; [done |]; intros H; apply Hhead in H as (_ & _ & (l & Hl & _));
       congruence].
  case_bool_decide as Hlr; simpl;
    [| split; [done |]; intros H; apply Hhead in H as (Hr & _ & (l' & Hl & Hr'));
       congruence].
  rewrite IH. split.
  - intros H [|j] pk' Hj; simpl in Hj.
    + injection Hj as <-. rewrite Nat.add_0_r. subst.
      repeat split; eauto. exists c. split; [done |]. by rewrite El, <- Hpc.
    + replace (i + S j)%nat with (S i + j)%nat by lia. by apply H.
  - intros H j pk' Hj. replace (S i + j)%nat with (i + S j)%nat by lia.
    by apply H.
Qed.

Lemma prefixLoop_total i parentPks childPks fk :
  length (ddl.Columns fk) = length (ddl.ReferColumns fk) →
  (i + length parentPks ≤ length childPks)%nat →
  is_Some (web.prefixLoop i parentPks childPks fk).
Proof.
  intros Hfk. revert i. induction parentPks as [|pk rest IH]; intros i Hi; simpl.
  { done. }
  simpl in Hi. case_bool_decide as Hlen; [done |].
  destruct (lookup_lt_is_Some_2 (ddl.ReferColumns fk) i) as [r ->]; [lia |].
  simpl. destruct (negb _); [done |].
  destruct (lookup_lt_is_Some_2 childPks i) as [c ->]; [lia |].
  simpl. destruct (negb _); [done |].
  destruct (lookup_lt_is_Some_2 (ddl.Columns fk) i) as [l ->]; [lia |].
  simpl. destruct (negb _); [done |].
  apply IH. lia.
Qed.

(** The example of the specification: a child with key (a,b,c) under a
    parent with key (a,b). *)
Definition interleave_conv (childPk parentPk : list string) : internal.Conv :=
  let key := fmap (λ c, ddl.mkIndexKey c false) in
  internal.mkConv
    {[ "child" := ddl.mkCreateTable "child" [] (Some ∅) (key childPk) [] "";
       "parent" := ddl.mkCreateTable "parent" [] (Some ∅) (key parentPk) [] "" ]}
    ∅ ∅ ∅ ∅ ∅ (internal.mkStats ∅ ∅ ∅) [] false "".

Example interleave_abc_under_ab :
  web.checkPrimaryKeyPrefix "child" "parent"
    (ddl.mkForeignkey ["a"; "b"] "parent" ["a"; "b"])
    (interleave_conv ["a"; "b"; "c"] ["a"; "b"]) = Some true.
Proof. vm_compute. reflexivity. Qed.

Example interleave_rejects_ba :
  web.checkPrimaryKeyPrefix "child" "parent"
    (ddl.mkForeignkey ["b"; "a"] "parent" ["b"; "a"])
    (interleave_conv ["a"; "b"; "c"] ["a"; "b"]) = Some false ∧
  web.checkPrimaryKeyPrefix "child" "parent"
    (ddl.mkForeignkey ["a"; "b"] "parent" ["b"; "a"])
    (interleave_conv ["a"; "b"; "c"] ["a"; "b"]) = Some false ∧
  web.checkPrimaryKeyPrefix "child" "parent"
    (ddl.mkForeignkey ["a"] "parent" ["a"])
    (interleave_conv ["a"; "b"; "c"] ["a"; "b"]) = Some false ∧
  web.checkPrimaryKeyPrefix "child" "parent"
    (ddl.mkForeignkey ["a"; "b"] "parent" ["a"; "b"])
    (interleave_conv ["a"] ["a"; "b"]) = Some false.
Proof. vm_compute. done. Qed.

(** A foreign key with fewer local than referenced columns makes the
    check panic at the first position without a local column. *)
Example interleave_panics_on_short_fk :
  web.checkPrimaryKeyPrefix "child" "parent"
    (ddl.mkForeignkey ["a"] "parent" ["a"; "b"])
    (interleave_conv ["a"; "b"; "c"] ["a"; "b"]) = None.
Proof. vm_compute. reflexivity. Qed.

Lemma checkPrimaryKeyPrefix_colocatable conv table refTable fk :
  web.checkPrimaryKeyPrefix table refTable fk conv = Some true ↔
  colocatable conv table refTable fk.
Proof.
  unfold web.checkPrimaryKeyPrefix, colocatable.
  case_bool_decide as Hlen.
  - rewrite prefixLoop_true. simpl. naive_solver.
  - naive_solver.
Qed.

(** C1: the prefix check answers true exactly when the child's key is at
    least as long as the parent's and conditions (a), (b), (c) hold at
    every position of the parent's key; for a foreign key with as many
    local as referenced columns it answers false in every other case, so
    one failing position rejects the interleaving as a whole. *)
Theorem checkPrimaryKeyPrefix_iff (conv : internal.Conv)
    (table refTable : string) (fk : ddl.Foreignkey) :
  (web.checkPrimaryKeyPrefix table refTable fk conv = Some true ↔
   colocatable conv table refTable fk) ∧
  (length (ddl.Columns fk) = length (ddl.ReferColumns fk) →
   (web.checkPrimaryKeyPrefix table refTable fk conv = Some false ↔
    ¬ colocatable conv table refTable fk)).
Proof.
  pose proof (checkPrimaryKeyPrefix_colocatable conv table refTable fk) as Htrue.
  split; [exact Htrue |].
  intros Hfk. rewrite <- Htrue. unfold web.checkPrimaryKeyPrefix.
  case_bool_decide as Hlen; [| naive_solver].
  destruct (prefixLoop_total 0
              (ddl.Pks (index ddl.zeroCreateTable (internal.SpSchema conv) refTable))
              (ddl.Pks (index ddl.zeroCreateTable (internal.SpSchema conv) table))
              fk Hfk) as [[] ->];
    [simpl; lia | naive_solver | naive_solver].
Qed.

(** A foreign key that the loop of [checkForInterleavedTables] passes
    over: its parent has a synthetic key, or the prefix check fails. *)
Definition passed_over (conv : internal.Conv) (table : string)
    (fk : ddl.Foreignkey) : Prop :=
  is_Some (internal.SyntheticPKeys conv !! ddl.ReferTable fk) ∨
  web.checkPrimaryKeyPrefix table (ddl.ReferTable fk) fk conv = Some false.

(** The loop stops at the first foreign key whose parent has no
    synthetic key and passes the prefix check, makes that parent the parent
    of the table and takes the key off the table's list; if there is none it
    changes nothing. *)
Lemma interleaveLoop_spec table i fks conv st conv' st' :
  web.interleaveLoop table i fks conv st = Some (conv', st') →
  (Forall (passed_over conv table) fks ∧ conv' = conv ∧ st' = st) ∨
  ∃ j fk,
    fks !! j = Some fk ∧ Forall (passed_over conv table) (take j fks) ∧
    internal.SyntheticPKeys conv !! ddl.ReferTable fk = None ∧
    colocatable conv table (ddl.ReferTable fk) fk ∧
    web.Parent st' = ddl.ReferTable fk ∧ web.Possible st' = web.Possible st ∧
    let sp := index ddl.zeroCreateTable (internal.SpSchema conv) table in
    internal.SpSchema conv' !! table
    = Some (ddl.mkCreateTable (ddl.ctName sp) (ddl.ColNames sp) (ddl.ColDefs sp)
              (ddl.Pks sp) (web.removeFk (ddl.Fks sp) (i + j)) (ddl.ReferTable fk)).
Proof.
  revert i. induction fks as [|fk fks IH]; intros i; simpl.
  { intros [= <- <-]. left. by split_and!. }
  case_bool_decide as Hsyn.
  { intros Hrun. destruct (IH _ Hrun) as [(Hall & -> & ->) | Hfound].
    - left. split_and!; [| done | done]. constructor; [by left | done].
    - destruct Hfound as (j & fk' & Hj & Hbefore & Hrest). right.
      exists (S j), fk'. split; [done |]. split.
      + simpl. constructor; [by left | done].
      + by replace (i + S j)%nat with (S i + j)%nat by lia. }
  destruct (web.checkPrimaryKeyPrefix table (ddl.ReferTable fk) fk conv)
    as [[|]|] eqn:Hok; simpl; [| | done].
  - intros [= <- <-]. right. exists 0%nat, fk. simpl.
    split_and!; [done | constructor | | | done | done |].
    + by apply eq_None_not_Some.
    + by apply (checkPrimaryKeyPrefix_colocatable conv table (ddl.ReferTable fk) fk).
    + by rewrite lookup_insert_eq, Nat.add_0_r.
  - intros Hrun. destruct (IH _ Hrun) as [(Hall & -> & ->) | Hfound].
    + left. split_and!; [| done | done]. constructor; [by right | done].
    + destruct Hfound as (j & fk' & Hj & Hbefore & Hrest). right.
      exists (S j), fk'. split; [done |]. split.
      * simpl. constructor; [by right | done].
      * by replace (i + S j)%nat with (S i + j)%nat by lia.
Qed.

(** ** The correspondence maps *)

(** Every entry of [there] is answered by [back]: the table name maps
    back to the key, and every column pair is found reversed. *)
Definition roundtrips (there back : gmap string internal.NameAndCols) : Prop :=
  map_Forall (λ t nc,
    match back !! internal.Name nc with
    | Some nc' =>
        internal.Name nc' = t ∧
        map_Forall (λ c sc, internal.Cols nc' !! sc = Some c) (internal.Cols nc)
    | None => False
    end) there.

(** [ToSource] and [ToSpanner] are mutual inverses. *)
Definition maps_inverse (conv : internal.Conv) : Prop :=
  roundtrips (internal.ToSource conv) (internal.ToSpanner conv) ∧
  roundtrips (internal.ToSpanner conv) (internal.ToSource conv).

#[global] Instance roundtrips_dec there back : Decision (roundtrips there back).
Proof.
  unfold roundtrips. apply map_Forall_dec. intros t nc.
  destruct (back !! internal.Name nc); apply _.
Defined.

#[global] Instance maps_inverse_dec conv : Decision (maps_inverse conv).
Proof. unfold maps_inverse. apply _. Defined.

Lemma roundtrips_spec there back :
  roundtrips there back ↔
  ∀ t nc, there !! t = Some nc →
    ∃ nc', back !! internal.Name nc = Some nc' ∧ internal.Name nc' = t ∧
           ∀ c sc, internal.Cols nc !! c = Some sc →
                   internal.Cols nc' !! sc = Some c.
Proof.
  unfold roundtrips. rewrite map_Forall_lookup. split; intros H t nc Ht.
  - specialize (H t nc Ht). destruct (back !! internal.Name nc) as [nc'|];
      [| done]. destruct H as [Hn Hc]. exists nc'. split_and!; [done | done |].
    intros c sc Hsc. by apply (map_Forall_lookup_1 _ _ _ _ Hc Hsc).
  - destruct (H t nc Ht) as (nc' & -> & Hn & Hc). split; [done |].
    by apply map_Forall_lookup.
Qed.

(** The correspondence in the words of the specification: a column pair
    of one map, looked up through the other, comes back. *)
Lemma maps_inverse_roundtrip conv t c sc :
  maps_inverse conv →
  internal.colsOf (internal.ToSource conv) t !! c = Some sc →
  internal.colsOf (internal.ToSpanner conv)
    (internal.Name (index internal.zeroNameAndCols (internal.ToSource conv) t))
    !! sc = Some c.
Proof.
  intros [H _]. unfold internal.colsOf, index.
  destruct (internal.ToSource conv !! t) as [nc|] eqn:Ht; simpl; [| done].
  intros Hc. pose proof (proj1 (roundtrips_spec _ _) H) as H'.
  destruct (H' t nc Ht) as (nc' & -> & _ & Hcols). simpl. by apply Hcols.
Qed.

Section Bimap.

Variables S P : gmap string internal.NameAndCols.
Variables (t s : string) (nc np : internal.NameAndCols).
Hypothesis HSP : roundtrips S P.
Hypothesis HPS : roundtrips P S.
Hypothesis Ht : S !! t = Some nc.
Hypothesis Hs : internal.Name nc = s.
Hypothesis Hp : P !! s = Some np.

Lemma bimap_back : internal.Name np = t.
Proof using HSP Ht Hs Hp.
  destruct (proj1 (roundtrips_spec _ _) HSP t nc Ht) as (nc' & H1 & H2 & _).
  congruence.
Qed.

Lemma bimap_cols c sc :
  internal.Cols nc !! c = Some sc ↔ internal.Cols np !! sc = Some c.
Proof using HSP HPS Ht Hs Hp.
  pose proof bimap_back as Hb. split; intros H.
  - destruct (proj1 (roundtrips_spec _ _) HSP t nc Ht) as (nc' & H1 & _ & H3).
    assert (nc' = np) as -> by congruence. by apply H3.
  - destruct (proj1 (roundtrips_spec _ _) HPS s np Hp) as (nc' & H1 & _ & H3).
    assert (nc' = nc) as -> by congruence. by apply H3.
Qed.

Lemma bimap_other_there t0 nc0 :
  S !! t0 = Some nc0 → t0 ≠ t → internal.Name nc0 ≠ s.
Proof using HSP Ht Hs Hp.
  intros H0 Hne Heq.
  destruct (proj1 (roundtrips_spec _ _) HSP t0 nc0 H0) as (nc' & H1 & H2 & _).
  pose proof bimap_back. congruence.
Qed.

Lemma bimap_other_back s0 np0 :
  P !! s0 = Some np0 → s0 ≠ s → internal.Name np0 ≠ t.
Proof using HPS Ht Hs.
  intros H0 Hne Heq.
  destruct (proj1 (roundtrips_spec _ _) HPS s0 np0 H0) as (nc' & H1 & H2 & _).
  congruence.
Qed.

(** Replacing the two column maps of the pair [t], [s] by maps that are
    again each other's reverse keeps the round trips. *)
Lemma bimap_update (cols cols' : gmap string string) :
  (∀ c sc, cols !! c = Some sc ↔ cols' !! sc = Some c) →
  let S' := <[t := internal.mkNameAndCols (internal.Name nc) cols]> S in
  let P' := <[s := internal.mkNameAndCols (internal.Name np) cols']> P in
  roundtrips S' P' ∧ roundtrips P' S'.
Proof using HSP HPS Ht Hs Hp.
  intros Hcols S' P'. pose proof bimap_back as Hb.
  split; apply roundtrips_spec.
  - intros t0 nc0. unfold S'. rewrite lookup_insert_Some.
    intros [[<- <-] | [Hne H0]]; simpl.
    + exists (internal.mkNameAndCols (internal.Name np) cols').
      unfold P'. rewrite Hs, lookup_insert_eq. split_and!; [done | done |].
      intros c sc. simpl. apply Hcols.
    + pose proof (bimap_other_there _ _ H0 (not_eq_sym Hne)) as Hn.
      destruct (proj1 (roundtrips_spec _ _) HSP t0 nc0 H0) as (nc' & H1 & H2).
      exists nc'. unfold P'. by rewrite lookup_insert_ne.
  - intros s0 np0. unfold P'. rewrite lookup_insert_Some.
    intros [[<- <-] | [Hne H0]]; simpl.
    + exists (internal.mkNameAndCols (internal.Name nc) cols).
      unfold S'. rewrite Hb, lookup_insert_eq. split_and!; [done | done |].
      intros sc c. simpl. apply Hcols.
    + pose proof (bimap_other_back _ _ H0 (not_eq_sym Hne)) as Hn.
      destruct (proj1 (roundtrips_spec _ _) HPS s0 np0 H0) as (nc' & H1 & H2).
      exists nc'. unfold S'. by rewrite lookup_insert_ne.
Qed.

End Bimap.

Lemma alter_lookup_insert {V} (f : V → V) (m : gmap string V) k x :
  m !! k = Some x → alter f k m = <[k := f x]> m.
Proof.
  intros Hk. apply map_eq. intros j. rewrite lookup_alter, lookup_insert.
  destruct (decide (k = j)) as [<- |]; [by rewrite Hk | done].
Qed.

Lemma deleteCol_lookup m k c nc :
  m !! k = Some nc →
  internal.deleteCol k c m =
  <[k := internal.mkNameAndCols (internal.Name nc) (delete c (internal.Cols nc))]> m.
Proof. intros H. unfold internal.deleteCol. by rewrite (alter_lookup_insert _ _ _ _ H). Qed.

Lemma index_lookup {V} (zero : V) (m : gmap string V) k x :
  m !! k = Some x → index zero m k = x.
Proof. intros H. unfold index. by rewrite H. Qed.

Lemma colsOf_lookup m k nc :
  m !! k = Some nc → internal.colsOf m k = internal.Cols nc.
Proof. intros H. unfold internal.colsOf, index. by rewrite H. Qed.

Section EditsKeepInverse.

Variable conv : internal.Conv.
Variables (table colName : string) (nc : internal.NameAndCols) (sc : string).
Hypothesis Hinv : maps_inverse conv.
Hypothesis Htable : internal.ToSource conv !! table = Some nc.
Hypothesis Hcol : internal.Cols nc !! colName = Some sc.

Lemma inverse_back :
  ∃ np, internal.ToSpanner conv !! internal.Name nc = Some np.
Proof using Hinv Htable.
  destruct Hinv as [H _].
  destruct (proj1 (roundtrips_spec _ _) H table nc Htable) as (np & Hp & _).
  by exists np.
Qed.

Lemma removeColumn_inverse :
  maps_inverse (web.removeColumn table colName (internal.Name nc) conv).
Proof using Hinv Htable Hcol.
  destruct inverse_back as [np Hp]. destruct Hinv as [HSP HPS].
  unfold maps_inverse, web.removeColumn. simpl.
  rewrite (colsOf_lookup _ _ _ Htable), (index_lookup _ _ _ _ Hcol).
  rewrite (deleteCol_lookup _ _ _ _ Htable), (deleteCol_lookup _ _ _ _ Hp).
  apply (bimap_update _ _ table (internal.Name nc) nc np HSP HPS Htable eq_refl Hp).
  intros c0 sc0. rewrite !lookup_delete_Some.
  pose proof (bimap_cols _ _ _ _ _ _ HSP HPS Htable eq_refl Hp) as Hb.
  pose proof (proj1 (Hb _ _) Hcol) as Hsc. split; intros [Hne H'].
  - apply Hb in H'. split; [| done]. intros ->. congruence.
  - apply Hb in H'. split; [| done]. intros ->. congruence.
Qed.

Lemma renameColumn_inverse newName :
  internal.Cols nc !! newName = None →
  ∃ conv', web.renameColumn newName table colName (internal.Name nc) conv
           = Some conv' ∧ maps_inverse conv' ∧
           internal.ToSource conv' !! table =
             Some (internal.mkNameAndCols (internal.Name nc)
                     (delete colName (<[newName := sc]> (internal.Cols nc)))).
Proof using Hinv Htable Hcol.
  intros Hfresh. destruct inverse_back as [np Hp]. destruct Hinv as [HSP HPS].
  unfold web.renameColumn.
  rewrite (colsOf_lookup _ _ _ Htable), (index_lookup _ _ _ _ Hcol).
  cbv zeta. unfold internal.setCol. simpl. rewrite Hp. simpl. rewrite Htable. simpl.
  eexists. split; [reflexivity |]. unfold maps_inverse. simpl.
  rewrite (deleteCol_lookup _ _ _ _ (lookup_insert_eq _ _ _)). simpl.
  rewrite insert_insert_eq. split; [| by rewrite lookup_insert_eq].
  apply (bimap_update _ _ table (internal.Name nc) nc np HSP HPS Htable eq_refl Hp).
  intros c0 sc0. rewrite lookup_delete_Some, !lookup_insert_Some.
  pose proof (bimap_cols _ _ _ _ _ _ HSP HPS Htable eq_refl Hp) as Hb.
  rewrite <- Hb. pose proof (proj1 (Hb _ _) Hcol) as Hsc.
  split.
  - intros [Hne [[<- <-] | [Hne' H']]]; [by left |]. right. split; [| done].
    intros <-. apply Hb in H'. congruence.
  - intros [[<- <-] | [Hne H']].
    + split; [congruence |]. by left.
    + split; [congruence |]. right. split; [congruence | done].
Qed.

End EditsKeepInverse.

(** The edits other than remove and rename leave the two maps alone. *)
Lemma pkChanged_maps pkChange table colName conv :
  internal.ToSource (web.pkChanged pkChange table colName conv)
    = internal.ToSource conv ∧
  internal.ToSpanner (web.pkChanged pkChange table colName conv)
    = internal.ToSpanner conv.
Proof. done. Qed.

Lemma updateNotNull_maps change table colName conv conv' :
  web.updateNotNull change table colName conv = Some conv' →
  internal.ToSource conv' = internal.ToSource conv ∧
  internal.ToSpanner conv' = internal.ToSpanner conv.
Proof.
  unfold web.updateNotNull. intros H. apply bind_Some in H as (sp & _ & H).
  by injection H as <-.
Qed.

Lemma setIssues_maps src col issues conv conv' :
  web.setIssues src col issues conv = Some conv' →
  internal.ToSource conv' = internal.ToSource conv ∧
  internal.ToSpanner conv' = internal.ToSpanner conv ∧
  internal.SpSchema conv' = internal.SpSchema conv ∧
  internal.SrcSchema conv' = internal.SrcSchema conv.
Proof.
  unfold web.setIssues. case_bool_decide as Hlen; [| by intros [= <-]].
  intros H. apply bind_Some in H as (m & _ & H). by injection H as <-.
Qed.

Section Edits.

Variable toSpannerTypeMySQL toSpannerTypePostgres :
  string → string → list Z → ddl.Type_ * list internal.SchemaIssue.

Local Abbreviation updateType := (web.updateType toSpannerTypeMySQL toSpannerTypePostgres).
Local Abbreviation updateColumn :=
  (web.updateColumn toSpannerTypeMySQL toSpannerTypePostgres).
Local Abbreviation updateColumns :=
  (web.updateColumns toSpannerTypeMySQL toSpannerTypePostgres).

Lemma updateType_maps driver newType table colName src conv conv' :
  updateType driver newType table colName src conv = Some conv' →
  internal.ToSource conv' = internal.ToSource conv ∧
  internal.ToSpanner conv' = internal.ToSpanner conv.
Proof.
  unfold web.updateType. destruct (web.mapType _ _ _ _ _ _) as [r|];
    [| by intros [= <-]].
  destruct (web.retyped _ _) as [ty issues]. intros H.
  apply bind_Some in H as (conv1 & H1 & H).
  apply bind_Some in H as (sp & _ & H). injection H as <-. simpl.
  apply setIssues_maps in H1. naive_solver.
Qed.

(** An edit names a column that the table maps to a source column, and a
    rename gives it a name that no column of the table bears. *)
Definition edit_fresh (table colName : string) (v : web.updateCol)
    (conv : internal.Conv) : Prop :=
  let cols := internal.colsOf (internal.ToSource conv) table in
  is_Some (cols !! colName) ∧
  (web.Removed v = false → web.renamed colName v = true →
   cols !! web.Rename v = None).

(** Every edit of the batch is fresh in the model it is applied to. *)
Fixpoint edits_fresh (driver table srcTableName : string)
    (edits : list (string * web.updateCol)) (conv : internal.Conv) : Prop :=
  match edits with
  | [] => True
  | (colName, v) :: edits' =>
      edit_fresh table colName v conv ∧
      match updateColumn driver table srcTableName colName v conv with
      | Some conv' => edits_fresh driver table srcTableName edits' conv'
      | None => True
      end
  end.

(** The edit only removes or renames. *)
Definition remove_or_rename (v : web.updateCol) : Prop :=
  web.PK v = "" ∧ web.ToType v = "" ∧ web.NotNull v = "".

Lemma updateColumn_inverse driver table colName v conv nc :
  maps_inverse conv →
  internal.ToSource conv !! table = Some nc →
  edit_fresh table colName v conv →
  (∀ conv', updateColumn driver table (internal.Name nc) colName v conv
            = Some conv' →
     maps_inverse conv' ∧
     ∃ nc', internal.ToSource conv' !! table = Some nc' ∧
            internal.Name nc' = internal.Name nc) ∧
  (remove_or_rename v →
   is_Some (updateColumn driver table (internal.Name nc) colName v conv)).
Proof.
  intros Hinv Htable [[sc Hcol] Hfresh]. cbv zeta in Hfresh.
  rewrite (colsOf_lookup _ _ _ Htable) in Hcol, Hfresh.
  unfold web.updateColumn. destruct (web.Removed v).
  { split; [| done]. intros conv' [= <-]. split.
    - by apply (removeColumn_inverse _ _ _ _ sc).
    - unfold web.removeColumn. simpl.
      rewrite (deleteCol_lookup _ _ _ _ Htable), lookup_insert_eq. eauto. }
  assert (Hren : ∃ conv1,
    (if web.renamed colName v
     then web.renameColumn (web.Rename v) table colName (internal.Name nc) conv
     else Some conv) = Some conv1 ∧ maps_inverse conv1 ∧
    ∃ nc', internal.ToSource conv1 !! table = Some nc' ∧
           internal.Name nc' = internal.Name nc).
  { destruct (web.renamed colName v).
    - destruct (renameColumn_inverse conv table colName nc sc Hinv Htable Hcol
                  (web.Rename v)) as (conv1 & -> & Hi & Ht); [by apply Hfresh |].
      exists conv1. split_and!; [done | done |]. eauto.
    - exists conv. split_and!; [done | done |]. eauto. }
  destruct Hren as (conv1 & -> & Hinv1 & nc1 & Ht1 & Hn1). simpl. split.
  - intros conv'.
    set (conv2 := if negb (String_eqb (web.PK v) "") then _ else conv1).
    assert (internal.ToSource conv2 = internal.ToSource conv1 ∧
            internal.ToSpanner conv2 = internal.ToSpanner conv1) as [HS2 HP2].
    { unfold conv2. destruct (negb _); [apply pkChanged_maps | done]. }
    intros H. apply bind_Some in H as (conv3 & H3 & H).
    assert (internal.ToSource conv3 = internal.ToSource conv2 ∧
            internal.ToSpanner conv3 = internal.ToSpanner conv2) as [HS3 HP3].
    { destruct (negb (String_eqb (web.ToType v) ""));
        [by eapply updateType_maps | by injection H3 as <-]. }
    assert (internal.ToSource conv' = internal.ToSource conv3 ∧
            internal.ToSpanner conv' = internal.ToSpanner conv3) as [HS4 HP4].
    { destruct (negb (String_eqb (web.NotNull v) ""));
        [by eapply updateNotNull_maps | by injection H as <-]. }
    unfold maps_inverse. rewrite HS4, HP4, HS3, HP3, HS2, HP2.
    split; [done |]. eauto.
  - intros (-> & -> & ->). done.
Qed.

(** C2 (amended): a batch of edits in which every edit names a mapped
    column of the table and every rename introduces a name that no column of
    the table bears keeps [ToSource] and [ToSpanner] mutual inverses; a batch
    that only removes and renames always runs to completion. *)
Theorem fresh_edits_keep_maps_inverse (driver table : string)
    (edits : list (string * web.updateCol)) (conv : internal.Conv)
    (nc : internal.NameAndCols) :
  maps_inverse conv →
  internal.ToSource conv !! table = Some nc →
  edits_fresh driver table (internal.Name nc) edits conv →
  (∀ conv', updateColumns driver table (internal.Name nc) edits conv = Some conv' →
     maps_inverse conv') ∧
  (Forall (λ e, remove_or_rename e.2) edits →
   is_Some (updateColumns driver table (internal.Name nc) edits conv)).
Proof.
  revert conv nc. induction edits as [|[colName v] edits IH];
    intros conv nc Hinv Htable Hfresh; simpl.
  { split; [by intros conv' [= <-] | done]. }
  destruct Hfresh as [Hedit Hrest].
  destruct (updateColumn_inverse driver table colName v conv nc Hinv Htable Hedit)
    as [Hstep Htotal].
  destruct (updateColumn driver table (internal.Name nc) colName v conv)
    as [conv1|] eqn:Hrun; simpl.
  - destruct (Hstep conv1 eq_refl) as (Hinv1 & nc1 & Ht1 & Hn1).
    rewrite <- Hn1 in Hrest |- *.
    destruct (IH conv1 nc1 Hinv1 Ht1 Hrest) as [IH1 IH2].
    split; [done |]. intros Hall. apply IH2. by inversion Hall.
  - split; [done |]. intros Hall. inversion Hall as [|? ? Hv _]; subst.
    by destruct (Htotal Hv).
Qed.

End Edits.

(** ** A sample model

    The table [orders] of the end-to-end example of the specification:
    source columns [id], [total] (numeric(10,2) with a default) and [tags]
    (text[]), and a column [grid] of type int4[][]; they are converted to
    the Spanner columns [order_id], [total], [tags] and [grid]. *)

Definition sample_src : schema.Table :=
  schema.mkTable "sales.orders" ["id"; "total"; "tags"; "grid"]
    {[ "id" := schema.mkColumn "id" (schema.mkType "int8" [] []) true false
                 (schema.mkIgnored false false false false);
       "total" := schema.mkColumn "total" (schema.mkType "numeric" [10; 2] [])
                    false false (schema.mkIgnored false true false false);
       "tags" := schema.mkColumn "tags" (schema.mkType "text" [] [-1]) false
                   false (schema.mkIgnored false false false false);
       "grid" := schema.mkColumn "grid" (schema.mkType "int4" [] [-1; -1]) false
                   false (schema.mkIgnored false false false false) ]}
    ["id"].

Definition sample_sp : ddl.CreateTable :=
  ddl.mkCreateTable "orders" ["order_id"; "total"; "tags"; "grid"]
    (Some {[ "order_id" := ddl.mkColumnDef "order_id"
                             (ddl.mkType ddl.Int64 0 false) true "";
             "total" := ddl.mkColumnDef "total"
                          (ddl.mkType ddl.Numeric 0 false) false "";
             "tags" := ddl.mkColumnDef "tags"
                         (ddl.mkType ddl.String ddl.MaxLength true) false "";
             "grid" := ddl.mkColumnDef "grid"
                         (ddl.mkType ddl.String ddl.MaxLength false) false "" ]})
    [ddl.mkIndexKey "order_id" false] [] "".

Definition sample_conv : internal.Conv :=
  internal.mkConv
    {[ "orders" := sample_sp ]} ∅ {[ "sales.orders" := sample_src ]}
    {[ "sales.orders" := {[ "total" := [internal.DefaultValue] ]} ]}
    {[ "sales.orders" :=
         internal.mkNameAndCols "orders"
           {[ "id" := "order_id"; "total" := "total"; "tags" := "tags";
              "grid" := "grid" ]} ]}
    {[ "orders" :=
         internal.mkNameAndCols "sales.orders"
           {[ "order_id" := "id"; "total" := "total"; "tags" := "tags";
              "grid" := "grid" ]} ]}
    (internal.mkStats {[ "sales.orders" := 3 ]} ∅ ∅) [] true "UTC".

(** A type mapper for the examples: it answers the wanted type. *)
Definition sample_mapper (srcType spType : string) (mods : list Z) :
    ddl.Type_ * list internal.SchemaIssue :=
  (ddl.mkType spType (if String_eqb spType ddl.String then ddl.MaxLength else 0)
     false, []).

Definition edit_remove : web.updateCol := web.mkUpdateCol true "" "" "" "".
Definition edit_rename (newName : string) : web.updateCol :=
  web.mkUpdateCol false newName "" "" "".

Lemma sample_conv_inverse : maps_inverse sample_conv.
Proof. apply (bool_decide_unpack _). vm_compute. exact I. Qed.

Lemma fresh_edits_keep_maps_inverse_witness :
  ∃ conv',
    web.updateColumns sample_mapper sample_mapper "postgres" "orders"
      "sales.orders" [("total", edit_rename "amount"); ("tags", edit_remove)]
      sample_conv = Some conv' ∧
    maps_inverse conv'.
Proof.
  destruct (fresh_edits_keep_maps_inverse sample_mapper sample_mapper "postgres"
              "orders" [("total", edit_rename "amount"); ("tags", edit_remove)]
              sample_conv
              (internal.mkNameAndCols "sales.orders"
                 {[ "order_id" := "id"; "total" := "total"; "tags" := "tags";
                    "grid" := "grid" ]}))
    as [Hinv Htotal].
  - apply (bool_decide_unpack _). vm_compute. exact I.
  - vm_compute. reflexivity.
  - vm_compute. repeat split; eauto.
  - destruct Htotal as [conv' Hrun].
    + repeat constructor.
    + exists conv'. split; [exact Hrun | exact (Hinv conv' Hrun)].
Defined.

(** C2, counterexample: renaming [total] to [tags], the name of another
    column of the table, leaves the source column [tags] answered by a
    Spanner column that maps back to [total]. *)
Lemma rename_onto_column_breaks_maps_inverse :
  maps_inverse sample_conv ∧
  ∃ conv',
    web.updateColumns sample_mapper sample_mapper "postgres" "orders"
      "sales.orders" [("total", edit_rename "tags")] sample_conv = Some conv' ∧
    internal.colsOf (internal.ToSpanner conv') "sales.orders" !! "tags"
      = Some "tags" ∧
    internal.colsOf (internal.ToSource conv') "orders" !! "tags" = Some "total" ∧
    ¬ maps_inverse conv'.
Proof.
  split; [apply sample_conv_inverse |]. eexists. split; [vm_compute; reflexivity |].
  split; [vm_compute; reflexivity |]. split; [vm_compute; reflexivity |].
  apply (bool_decide_eq_false_1 _). vm_compute. reflexivity.
Qed.

(** ** Idempotence of the edits *)

Lemma remove_first_cons {A} (p : A → bool) x l :
  remove_first p (x :: l) = if p x then l else x :: remove_first p l.
Proof.
  unfold remove_first. simpl. destruct (p x); [done |].
  destruct (find_index p l); done.
Qed.

Lemma remove_first_none {A} (p : A → bool) l :
  Forall (λ x, p x = false) l → remove_first p l = l.
Proof.
  induction 1 as [|x l Hx _ IH]; [done |]. by rewrite remove_first_cons, Hx, IH.
Qed.

(** Where the keys [f x] are pairwise distinct, at most one element has
    the key [c], and removing the first such element a second time
    removes nothing. *)
Lemma remove_first_idem {A} (f : A → string) (c : string) (l : list A) :
  NoDup (f <$> l) →
  remove_first (λ x, String_eqb (f x) c)
    (remove_first (λ x, String_eqb (f x) c) l)
  = remove_first (λ x, String_eqb (f x) c) l.
Proof.
  induction l as [|x l IH]; [done |]. rewrite fmap_cons, NoDup_cons.
  intros [Hx Hl]. rewrite remove_first_cons. cbv beta.
  destruct (String_eqb (f x) c) eqn:Hc.
  - apply bool_decide_eq_true in Hc.
    apply remove_first_none, Forall_forall. intros y Hy.
    apply bool_decide_eq_false. intros Hyc. apply Hx, list_elem_of_fmap.
    exists y. split; [congruence | done].
  - rewrite remove_first_cons. cbv beta. by rewrite Hc, IH.
Qed.

Lemma dropName_idem c names :
  NoDup names → web.dropName c (web.dropName c names) = web.dropName c names.
Proof.
  intros H. apply (remove_first_idem id). by rewrite list_fmap_id.
Qed.

Lemma dropPk_idem c pks :
  NoDup (ddl.Col <$> pks) → web.dropPk c (web.dropPk c pks) = web.dropPk c pks.
Proof. apply (remove_first_idem ddl.Col). Qed.

Lemma index_insert_eq {V} (zero : V) (m : gmap string V) k x :
  index zero (<[k := x]> m) k = x.
Proof. unfold index. by rewrite lookup_insert_eq. Qed.

Lemma colsOf_deleteCol m k c : internal.colsOf (internal.deleteCol k c m) k !! c = None.
Proof.
  unfold internal.colsOf, internal.deleteCol, index. rewrite lookup_alter_eq.
  destruct (m !! k); simpl; [apply lookup_delete_eq | done].
Qed.

Lemma deleteCol_idem m k c :
  internal.deleteCol k c (internal.deleteCol k c m) = internal.deleteCol k c m.
Proof.
  unfold internal.deleteCol. rewrite alter_alter_eq. apply alter_ext.
  intros nc _. simpl. by rewrite delete_delete_eq.
Qed.

Lemma deleteCol_absent m k c0 c :
  internal.colsOf m k !! c = None →
  internal.deleteCol k c (internal.deleteCol k c0 m) = internal.deleteCol k c0 m.
Proof.
  unfold internal.deleteCol, internal.colsOf, index. intros Hc.
  rewrite alter_alter_eq. apply alter_ext. intros nc Hk. rewrite Hk in Hc.
  simpl in *. f_equal. apply delete_id. by rewrite lookup_delete_None; right.
Qed.

Lemma delete_inner_absent {V} (m : gmap string (gmap string V)) k c0 c :
  index ∅ m k !! c = None →
  alter (delete c) k (alter (delete c0) k m) = alter (delete c0) k m.
Proof.
  unfold index. intros Hc. rewrite alter_alter_eq. apply alter_ext.
  intros g Hk. rewrite Hk in Hc. simpl in *. apply delete_id.
  by rewrite lookup_delete_None; right.
Qed.

(** Two models with the same fields are the same model. *)
Lemma Conv_eq (c1 c2 : internal.Conv) :
  internal.SpSchema c1 = internal.SpSchema c2 →
  internal.SyntheticPKeys c1 = internal.SyntheticPKeys c2 →
  internal.SrcSchema c1 = internal.SrcSchema c2 →
  internal.Issues c1 = internal.Issues c2 →
  internal.ToSpanner c1 = internal.ToSpanner c2 →
  internal.ToSource c1 = internal.ToSource c2 →
  internal.Stats c1 = internal.Stats c2 →
  internal.sampleBadRows c1 = internal.sampleBadRows c2 →
  internal.dataMode c1 = internal.dataMode c2 →
  internal.Location c1 = internal.Location c2 →
  c1 = c2.
Proof. destruct c1, c2. simpl. by intros -> -> -> -> -> -> -> -> -> ->. Qed.

(** Reduces the field of an updated model to the update of the field. *)
Tactic Notation "conv_proj" "in" hyp(H) :=
  cbn [internal.with_SpSchema internal.with_SyntheticPKeys internal.with_Issues
       internal.with_ToSpanner internal.with_ToSource internal.with_Stats
       internal.with_sampleBadRows
       internal.SpSchema internal.SyntheticPKeys internal.SrcSchema
       internal.Issues internal.ToSpanner internal.ToSource internal.Stats
       internal.sampleBadRows internal.dataMode internal.Location] in H.

Ltac conv_proj :=
  cbn [web.removeColumn web.pkChanged
       internal.with_SpSchema internal.with_SyntheticPKeys internal.with_Issues
       internal.with_ToSpanner internal.with_ToSource internal.with_Stats
       internal.with_sampleBadRows
       internal.SpSchema internal.SyntheticPKeys internal.SrcSchema
       internal.Issues internal.ToSpanner internal.ToSource internal.Stats
       internal.sampleBadRows internal.dataMode internal.Location].

(** What the idempotence of an edit of [table] needs of the model: no
    column name and no key column of the table is listed twice, and the
    empty string is not the name of a source column. *)
Definition edit_wf (table srcTableName : string) (conv : internal.Conv) : Prop :=
  let sp := index ddl.zeroCreateTable (internal.SpSchema conv) table in
  NoDup (ddl.ColNames sp) ∧ NoDup (ddl.Col <$> ddl.Pks sp) ∧
  internal.colsOf (internal.ToSpanner conv) srcTableName !! "" = None ∧
  index ∅ (internal.Issues conv) srcTableName !! "" = None.

Lemma removeColumn_idem table colName src conv :
  edit_wf table src conv →
  web.removeColumn table colName src (web.removeColumn table colName src conv)
  = web.removeColumn table colName src conv.
Proof.
  intros (Hnames & Hpks & Hsp & Hiss).
  assert (Hgone : index "" (internal.colsOf
                    (internal.deleteCol table colName (internal.ToSource conv))
                    table) colName = "").
  { unfold index at 1. by rewrite colsOf_deleteCol. }
  apply Conv_eq; conv_proj; try done.
  - rewrite index_insert_eq, insert_insert_eq. f_equal.
    unfold ddl.with_Pks, ddl.with_ColDefs, ddl.with_ColNames.
    cbn [ddl.ctName ddl.ColNames ddl.ColDefs ddl.Pks ddl.Fks ddl.Parent].
    f_equal.
    + by apply dropName_idem.
    + destruct (ddl.ColDefs _); [| done].
      cbn [fmap option_fmap option_map]. by rewrite delete_delete_eq.
    + by apply dropPk_idem.
  - rewrite Hgone. by apply delete_inner_absent.
  - rewrite Hgone. by apply deleteCol_absent.
  - apply deleteCol_idem.
Qed.

Lemma pkChanged_removed_idem table colName conv :
  NoDup (ddl.Col <$> ddl.Pks
           (index ddl.zeroCreateTable (internal.SpSchema conv) table)) →
  web.pkChanged "REMOVED" table colName (web.pkChanged "REMOVED" table colName conv)
  = web.pkChanged "REMOVED" table colName conv.
Proof.
  intros Hpks. unfold web.pkChanged. simpl.
  destruct conv as [SpS SynK SrcS Iss ToSp ToSrc St Smp Dm Loc]. simpl in *.
  unfold internal.with_SpSchema. simpl. rewrite index_insert_eq, insert_insert_eq.
  do 2 f_equal. unfold ddl.with_Pks. simpl. f_equal. by apply dropPk_idem.
Qed.

Lemma setColDef_again k cd cd' sp sp' :
  web.setColDef k cd sp = Some sp' →
  web.colDef sp' k = cd ∧ web.setColDef k cd' sp' =
    Some (ddl.with_ColDefs (λ _, Some (<[k := cd']> (default ∅ (ddl.ColDefs sp)))) sp).
Proof.
  unfold web.setColDef, web.colDef. destruct (ddl.ColDefs sp) as [g|] eqn:Hg;
    [| done]. simpl. intros [= <-]. simpl. rewrite lookup_insert_eq.
  split; [done |]. unfold ddl.with_ColDefs. simpl. by rewrite insert_insert_eq.
Qed.

Lemma updateNotNull_idem change table colName conv conv' :
  web.updateNotNull change table colName conv = Some conv' →
  web.updateNotNull change table colName conv' = Some conv'.
Proof.
  unfold web.updateNotNull. intros H. apply bind_Some in H as (sp' & Hsp & H).
  injection H as <-. simpl. rewrite index_insert_eq.
  set (sp := index ddl.zeroCreateTable (internal.SpSchema conv) table) in *.
  assert (Hagain :
    (if String_eqb change "ADDED"
     then web.setColDef colName (ddl.with_NotNull true (web.colDef sp' colName)) sp'
     else if String_eqb change "REMOVED"
     then web.setColDef colName (ddl.with_NotNull false (web.colDef sp' colName)) sp'
     else Some sp') = Some sp').
  { destruct (String_eqb change "ADDED"); [| destruct (String_eqb change "REMOVED")];
      [| | done].
    - destruct (setColDef_again _ _
                  (ddl.with_NotNull true (ddl.with_NotNull true (web.colDef sp colName)))
                  _ _ Hsp) as [-> ->].
      unfold web.setColDef in Hsp. destruct (ddl.ColDefs sp); [| done].
      by injection Hsp as <-.
    - destruct (setColDef_again _ _
                  (ddl.with_NotNull false (ddl.with_NotNull false (web.colDef sp colName)))
                  _ _ Hsp) as [-> ->].
      unfold web.setColDef in Hsp. destruct (ddl.ColDefs sp); [| done].
      by injection Hsp as <-. }
  rewrite Hagain. simpl. unfold internal.with_SpSchema. simpl.
  by rewrite insert_insert_eq.
Qed.

Lemma pkChanged_idem change table colName conv :
  change ≠ "ADDED" →
  NoDup (ddl.Col <$> ddl.Pks
           (index ddl.zeroCreateTable (internal.SpSchema conv) table)) →
  web.pkChanged change table colName (web.pkChanged change table colName conv)
  = web.pkChanged change table colName conv.
Proof.
  intros Hadd Hpks. destruct (decide (change = "REMOVED")) as [-> | Hrem];
    [by apply pkChanged_removed_idem |].
  unfold web.pkChanged, String_eqb. rewrite !bool_decide_eq_false_2 by done.
  destruct conv as [SpS SynK SrcS Iss ToSp ToSrc St Smp Dm Loc].
  unfold internal.with_SpSchema. simpl. by rewrite index_insert_eq, insert_insert_eq.
Qed.

Lemma setIssues_again src col issues conv conv1 f :
  web.setIssues src col issues conv = Some conv1 →
  web.setIssues src col issues (internal.with_SpSchema f conv1)
  = Some (internal.with_SpSchema f conv1).
Proof.
  unfold web.setIssues. case_bool_decide as Hlen; [| by intros [= <-]].
  intros H. apply bind_Some in H as (m & Hm & H). injection H as <-. simpl.
  rewrite lookup_insert_eq. simpl. unfold internal.with_Issues, internal.with_SpSchema.
  simpl. by rewrite !insert_insert_eq.
Qed.

(** The actions of an edit record, one at a time. *)
Inductive action :=
  | ARemove
  | ARename (newName : string)
  | APk (change : string)
  | ARetype (newType : string)
  | ANotNull (change : string).

Definition record_of (a : action) : web.updateCol :=
  match a with
  | ARemove => web.mkUpdateCol true "" "" "" ""
  | ARename newName => web.mkUpdateCol false newName "" "" ""
  | APk change => web.mkUpdateCol false "" change "" ""
  | ARetype newType => web.mkUpdateCol false "" "" "" newType
  | ANotNull change => web.mkUpdateCol false "" "" change ""
  end.

(** The name under which the column is found after the action. *)
Definition name_after (colName : string) (a : action) : string :=
  match a with
  | ARename newName => if web.renamed colName (record_of a) then newName else colName
  | _ => colName
  end.

Section Idempotence.

Variable toSpannerTypeMySQL toSpannerTypePostgres :
  string → string → list Z → ddl.Type_ * list internal.SchemaIssue.

Local Abbreviation updateType := (web.updateType toSpannerTypeMySQL toSpannerTypePostgres).
Local Abbreviation updateColumn :=
  (web.updateColumn toSpannerTypeMySQL toSpannerTypePostgres).

Lemma updateType_idem driver newType table colName src conv conv' :
  updateType driver newType table colName src conv = Some conv' →
  updateType driver newType table colName src conv' = Some conv'.
Proof.
  unfold web.updateType.
  destruct (web.mapType _ _ _ _ _ _) as [r|] eqn:Hmap.
  2: { intros [= <-]. by rewrite Hmap. }
  destruct (web.retyped _ _) as [ty issues] eqn:Hre. intros H.
  apply bind_Some in H as (conv1 & H1 & H).
  apply bind_Some in H as (sp' & Hsp & H). injection H as <-.
  pose proof (setIssues_maps _ _ _ _ _ H1) as (HS & _ & HM & HSrc).
  simpl. rewrite HS, HSrc, Hmap, Hre, index_insert_eq.
  rewrite (setIssues_again _ _ _ _ _ _ H1). simpl.
  destruct (setColDef_again _ _
              (ddl.with_T ty (ddl.with_T ty
                 (web.colDef (index ddl.zeroCreateTable (internal.SpSchema conv) table)
                    colName))) _ _ Hsp) as [-> ->].
  simpl. unfold internal.with_SpSchema. simpl. rewrite insert_insert_eq.
  unfold web.setColDef in Hsp.
  destruct (ddl.ColDefs (index ddl.zeroCreateTable (internal.SpSchema conv) table));
    [| done]. by injection Hsp as <-.
Qed.

(** C4 (amended): on a model that lists no column name and no key column
    twice and has no source column named by the empty string, every single
    action of an edit record other than the primary-key toggle "ADDED" is
    idempotent: applied again to the model it produced, under the name that
    the column then bears, it gives that model back.  For a rename from x to
    y the second application is the rename from y to y. *)
Theorem single_edit_idempotent (driver table src colName : string) (a : action)
    (conv conv' : internal.Conv) :
  edit_wf table src conv →
  a ≠ APk "ADDED" →
  updateColumn driver table src colName (record_of a) conv = Some conv' →
  updateColumn driver table src (name_after colName a) (record_of a) conv'
  = Some conv'.
Proof.
  intros Hwf Hadd. destruct a as [| newName | change | newType | change];
    unfold web.updateColumn; simpl.
  - intros [= <-]. f_equal. by apply removeColumn_idem.
  - destruct (web.renamed colName _) eqn:Hren; simpl.
    + intros H. apply bind_Some in H as (conv1 & _ & [= <-]).
      unfold web.renamed, String_eqb. simpl.
      by rewrite (bool_decide_eq_true_2 (newName = newName)), andb_false_r.
    + intros [= <-]. by rewrite Hren.
  - unfold String_eqb. case_bool_decide as Hc; simpl; intros [= <-]; [done |].
    f_equal. apply pkChanged_idem; [congruence | apply Hwf].
  - unfold String_eqb. case_bool_decide as Hc; simpl.
    + by intros [= <-].
    + intros H. apply bind_Some in H as (conv1 & H1 & [= <-]).
      by rewrite (updateType_idem _ _ _ _ _ _ _ H1).
  - unfold String_eqb. case_bool_decide as Hc; simpl; [by intros [= <-] |].
    apply updateNotNull_idem.
Qed.

End Idempotence.

Lemma sample_conv_wf : edit_wf "orders" "sales.orders" sample_conv.
Proof. apply (bool_decide_unpack _). vm_compute. exact I. Qed.

Lemma single_edit_idempotent_witness :
  ∃ conv',
    web.updateColumn sample_mapper sample_mapper "postgres" "orders"
      "sales.orders" "tags" (record_of (ARetype "BYTES")) sample_conv
      = Some conv' ∧
    web.updateColumn sample_mapper sample_mapper "postgres" "orders"
      "sales.orders" "tags" (record_of (ARetype "BYTES")) conv' = Some conv'.
Proof.
  eexists. split; [vm_compute; reflexivity |].
  apply (single_edit_idempotent sample_mapper sample_mapper "postgres" "orders"
           "sales.orders" "tags" (ARetype "BYTES") sample_conv).
  - apply (bool_decide_unpack _). vm_compute. exact I.
  - discriminate.
  - vm_compute. reflexivity.
Defined.

(** C4, counterexample: the primary-key toggle "ADDED" appends a key
    entry each time it is applied. *)
Lemma pk_added_twice_appends_twice :
  ∃ once twice,
    web.updateColumn sample_mapper sample_mapper "postgres" "orders"
      "sales.orders" "total" (record_of (APk "ADDED")) sample_conv = Some once ∧
    web.updateColumn sample_mapper sample_mapper "postgres" "orders"
      "sales.orders" "total" (record_of (APk "ADDED")) once = Some twice ∧
    ddl.Col <$> ddl.Pks (index ddl.zeroCreateTable (internal.SpSchema once) "orders")
      = ["order_id"; "total"] ∧
    ddl.Col <$> ddl.Pks (index ddl.zeroCreateTable (internal.SpSchema twice) "orders")
      = ["order_id"; "total"; "total"] ∧
    twice ≠ once.
Proof.
  do 2 eexists. split; [vm_compute; reflexivity |].
  split; [vm_compute; reflexivity |]. split; [vm_compute; reflexivity |].
  split; [vm_compute; reflexivity |].
  intros H. apply (f_equal (λ c, length (ddl.Pks
    (index ddl.zeroCreateTable (internal.SpSchema c) "orders")))) in H.
  vm_compute in H. discriminate.
Qed.

(** ** Retyping a column *)

Definition supported_driver (driver : string) : Prop :=
  driver ∈ ["mysql"; "mysqldump"; "pg_dump"; "postgres"].

(** The source column that the Spanner column [col] of [table] stands
    for, resolved through [ToSource]. *)
Definition source_column (conv : internal.Conv) (table srcTableName col : string) :
    schema.Column :=
  index schema.zeroColumn
    (schema.ColDefs (index schema.zeroTable (internal.SrcSchema conv) srcTableName))
    (index "" (internal.colsOf (internal.ToSource conv) table) col).

Definition multi_dimensional (srcCol : schema.Column) : Prop :=
  (1 < length (schema.ArrayBounds (schema.Type' srcCol)))%nat.

(** The Spanner type of the column [col] of [table]. *)
Definition column_type (conv : internal.Conv) (table col : string) : ddl.Type_ :=
  ddl.T (web.colDef (index ddl.zeroCreateTable (internal.SpSchema conv) table) col).

(** The issues recorded for the source column [srcCol] of [srcTableName]. *)
Definition issues_of (conv : internal.Conv) (srcTableName : string)
    (srcCol : schema.Column) : list internal.SchemaIssue :=
  index [] (index ∅ (internal.Issues conv) srcTableName) (schema.colName srcCol).

(** The issues that do not depend on the wanted type. *)
Definition fixed_issues (srcCol : schema.Column) : list internal.SchemaIssue :=
  (if bool_decide (multi_dimensional srcCol)
   then [internal.MultiDimensionalArray] else []) ++
  (if schema.Default (schema.Ignored' srcCol) then [internal.DefaultValue] else []) ++
  (if schema.AutoIncrement (schema.Ignored' srcCol)
   then [internal.AutoIncrement] else []).

Lemma retyped_issues srcCol ty issues :
  (web.retyped srcCol (ty, issues)).2 = issues ++ fixed_issues srcCol.
Proof.
  unfold web.retyped, fixed_issues, multi_dimensional.
  destruct (bool_decide _), (schema.Default _), (schema.AutoIncrement _); simpl;
    by rewrite <- ?app_assoc, ?app_nil_r.
Qed.

Lemma retyped_type srcCol ty issues :
  (web.retyped srcCol (ty, issues)).1 =
  if bool_decide (multi_dimensional srcCol)
  then ddl.mkType ddl.String ddl.MaxLength false
  else ddl.mkType (ddl.Name ty) (ddl.Len ty)
         (bool_decide (length (schema.ArrayBounds (schema.Type' srcCol)) = 1%nat)).
Proof.
  unfold web.retyped, multi_dimensional.
  case_bool_decide as Hb; destruct (schema.Default _), (schema.AutoIncrement _);
    simpl; try done; by rewrite bool_decide_eq_false_2 by lia.
Qed.

Lemma retyped_multi_dimensional srcCol r :
  multi_dimensional srcCol →
  (web.retyped srcCol r).1 = ddl.mkType ddl.String ddl.MaxLength false ∧
  internal.MultiDimensionalArray ∈ (web.retyped srcCol r).2 ∧
  (0 < length (web.retyped srcCol r).2)%nat.
Proof.
  intros Hm. destruct r as [ty issues].
  rewrite retyped_type, retyped_issues. unfold fixed_issues.
  rewrite !bool_decide_eq_true_2 by done. split_and!; [done | set_solver |].
  rewrite !length_app. simpl. lia.
Qed.

Section Retype.

Variable toSpannerTypeMySQL toSpannerTypePostgres :
  string → string → list Z → ddl.Type_ * list internal.SchemaIssue.

Local Abbreviation mapType := (web.mapType toSpannerTypeMySQL toSpannerTypePostgres).
Local Abbreviation updateType := (web.updateType toSpannerTypeMySQL toSpannerTypePostgres).
Local Abbreviation updateColumn :=
  (web.updateColumn toSpannerTypeMySQL toSpannerTypePostgres).
Local Abbreviation setTypeMapGlobal_col :=
  (web.setTypeMapGlobal_col toSpannerTypeMySQL toSpannerTypePostgres).
Local Abbreviation setTypeMapGlobal :=
  (web.setTypeMapGlobal toSpannerTypeMySQL toSpannerTypePostgres).

(** The type mapper of the dialect of a supported driver. *)
Definition dialect_mapper (driver : string) :
    string → string → list Z → ddl.Type_ * list internal.SchemaIssue :=
  if String_eqb driver "mysql" || String_eqb driver "mysqldump"
  then toSpannerTypeMySQL else toSpannerTypePostgres.

(** The answer of the dialect's mapper for the source column and the
    wanted type, with the adjustments of the retype paths. *)
Definition retype_of (driver newType : string) (srcCol : schema.Column) :
    ddl.Type_ * list internal.SchemaIssue :=
  web.retyped srcCol
    (dialect_mapper driver (schema.Name (schema.Type' srcCol)) newType
       (schema.Mods (schema.Type' srcCol))).

Lemma mapType_supported driver srcType newType mods :
  supported_driver driver →
  mapType driver srcType newType mods
  = Some (dialect_mapper driver srcType newType mods).
Proof.
  unfold supported_driver, web.mapType, dialect_mapper. intros H.
  repeat (apply elem_of_cons in H as [-> | H]); [done .. |].
  by apply elem_of_nil in H.
Qed.

Lemma setIssues_spec src name issues conv :
  ((0 < length issues)%nat → is_Some (internal.Issues conv !! src)) →
  ∃ conv1, web.setIssues src name issues conv = Some conv1 ∧
    internal.SpSchema conv1 = internal.SpSchema conv ∧
    ((0 < length issues)%nat →
     index [] (index ∅ (internal.Issues conv1) src) name = issues) ∧
    (issues = [] → internal.Issues conv1 = internal.Issues conv).
Proof.
  unfold web.setIssues. intros Hm. case_bool_decide as Hlen.
  - destruct (Hm Hlen) as [m ->]. simpl. eexists. split; [done |]. simpl.
    split_and!; [done | |].
    + intros _. by rewrite !index_insert_eq.
    + intros ->. simpl in Hlen. lia.
  - exists conv. split_and!; [done | done | lia | done].
Qed.

(** What [updateType] does for a supported driver: it runs unless the
    table has no column map or the issues have no place to go, it writes
    the type obtained from the source column into the column definition
    and leaves the definition's other fields, and it stores the issues,
    if any, under the source column. *)
Lemma updateType_spec driver newType table col src conv :
  supported_driver driver →
  let sp := index ddl.zeroCreateTable (internal.SpSchema conv) table in
  let srcCol := source_column conv table src col in
  let r := retype_of driver newType srcCol in
  (is_Some (ddl.ColDefs sp) →
   ((0 < length r.2)%nat → is_Some (internal.Issues conv !! src)) →
   is_Some (updateType driver newType table col src conv)) ∧
  ∀ conv', updateType driver newType table col src conv = Some conv' →
    web.colDef (index ddl.zeroCreateTable (internal.SpSchema conv') table) col
      = ddl.with_T r.1 (web.colDef sp col) ∧
    ((0 < length r.2)%nat → issues_of conv' src srcCol = r.2) ∧
    (r.2 = [] → internal.Issues conv' = internal.Issues conv).
Proof.
  intros Hdrv sp srcCol r. unfold web.updateType.
  fold sp. fold (source_column conv table src col). fold srcCol.
  rewrite (mapType_supported _ _ _ _ Hdrv).
  fold (retype_of driver newType srcCol). fold r.
  destruct r as [ty issues] eqn:Hr. simpl. split.
  - intros [g Hg] Hiss.
    destruct (setIssues_spec src (schema.colName srcCol) issues conv Hiss)
      as (conv1 & -> & _). simpl. unfold web.setColDef. by rewrite Hg.
  - intros conv' H. apply bind_Some in H as (conv1 & H1 & H).
    apply bind_Some in H as (sp' & Hsp & [= <-]). simpl.
    rewrite index_insert_eq.
    destruct (setColDef_again _ _ ddl.zeroColumnDef _ _ Hsp) as [-> _].
    split; [done |]. unfold issues_of. unfold web.setIssues in H1.
    case_bool_decide as Hlen.
    + apply bind_Some in H1 as (m & Hm & [= <-]). simpl.
      split; [intros _; by rewrite !index_insert_eq |].
      intros ->. simpl in Hlen. lia.
    + injection H1 as <-. split; [lia | done].
Qed.



End Retype.

Section RetypeEffect.

Variable toSpannerTypeMySQL toSpannerTypePostgres :
  string → string → list Z → ddl.Type_ * list internal.SchemaIssue.

Local Abbreviation updateType := (web.updateType toSpannerTypeMySQL toSpannerTypePostgres).
Local Abbreviation setTypeMapGlobal_col :=
  (web.setTypeMapGlobal_col toSpannerTypeMySQL toSpannerTypePostgres).
Local Abbreviation setTypeMapGlobal :=
  (web.setTypeMapGlobal toSpannerTypeMySQL toSpannerTypePostgres).
Local Abbreviation retype_of :=
  (retype_of toSpannerTypeMySQL toSpannerTypePostgres).

(** The parts of the model that a retype leaves alone or only grows. *)
Definition same_frame (conv conv1 : internal.Conv) : Prop :=
  internal.ToSource conv1 = internal.ToSource conv ∧
  internal.SrcSchema conv1 = internal.SrcSchema conv ∧
  (∀ t, is_Some (ddl.ColDefs (index ddl.zeroCreateTable (internal.SpSchema conv) t)) →
        is_Some (ddl.ColDefs (index ddl.zeroCreateTable (internal.SpSchema conv1) t))) ∧
  (∀ s, is_Some (internal.Issues conv !! s) → is_Some (internal.Issues conv1 !! s)).

Lemma same_frame_refl conv : same_frame conv conv.
Proof. by repeat split. Qed.

(** The whole effect of a retype that ran. *)
Lemma updateType_effect driver newType t2 c2 src conv conv1 :
  supported_driver driver →
  updateType driver newType t2 c2 src conv = Some conv1 →
  let r := retype_of driver newType (source_column conv t2 src c2) in
  same_frame conv conv1 ∧
  (∀ t c, column_type conv1 t c =
          if decide (t = t2 ∧ c = c2) then r.1 else column_type conv t c) ∧
  (∀ s c, issues_of conv1 s c =
          if decide (s = src ∧
                     schema.colName c = schema.colName (source_column conv t2 src c2) ∧
                     (0 < length r.2)%nat)
          then r.2 else issues_of conv s c).
Proof.
  intros Hdrv. unfold web.updateType.
  fold (source_column conv t2 src c2).
  rewrite (mapType_supported _ _ _ _ _ _ Hdrv).
  fold (retype_of driver newType (source_column conv t2 src c2)).
  set (srcCol := source_column conv t2 src c2).
  destruct (retype_of driver newType srcCol) as [ty issues] eqn:Hr.
  intros H. apply bind_Some in H as (conv0 & H0 & H).
  apply bind_Some in H as (sp' & Hsp & [= <-]). simpl.
  pose proof (setIssues_maps _ _ _ _ _ H0) as (HS & _ & HM & HSrc).
  unfold web.setColDef in Hsp.
  destruct (ddl.ColDefs (index ddl.zeroCreateTable (internal.SpSchema conv) t2))
    as [g|] eqn:Hg; [| done]. injection Hsp as <-.
  assert (Hiss : ∀ s c, issues_of conv0 s c =
            if decide (s = src ∧ schema.colName c = schema.colName srcCol ∧
                       (0 < length issues)%nat)
            then issues else issues_of conv s c).
  { intros s c. unfold issues_of. unfold web.setIssues in H0.
    case_bool_decide as Hlen.
    - apply bind_Some in H0 as (m & Hm & [= <-]). simpl.
      destruct (decide (s = src)) as [-> | Hs].
      + rewrite index_insert_eq.
        destruct (decide (schema.colName c = schema.colName srcCol)) as [-> | Hc].
        * rewrite index_insert_eq. by rewrite decide_True.
        * rewrite decide_False by naive_solver. unfold index at 1 3.
          rewrite lookup_insert_ne by done. unfold index. by rewrite Hm.
      + rewrite decide_False by naive_solver. unfold index at 2 4.
        by rewrite lookup_insert_ne by done.
    - injection H0 as <-. by rewrite decide_False by naive_solver. }
  split_and!.
  - unfold same_frame. simpl. rewrite HM. split_and!; [done | done | |].
    + intros t. destruct (decide (t = t2)) as [-> | Ht].
      * by rewrite index_insert_eq.
      * unfold index. by rewrite lookup_insert_ne by done.
    + intros s Hs. unfold web.setIssues in H0. case_bool_decide as Hlen.
      * apply bind_Some in H0 as (m & Hm & [= <-]). simpl.
        destruct (decide (s = src)) as [-> | Hne];
          [by rewrite lookup_insert_eq | by rewrite lookup_insert_ne by done].
      * by injection H0 as <-.
  - intros t c. unfold column_type. simpl. rewrite HM.
    destruct (decide (t = t2)) as [-> | Ht].
    + rewrite index_insert_eq. unfold web.colDef. simpl. rewrite Hg. simpl.
      destruct (decide (c = c2)) as [-> | Hc].
      * by rewrite decide_True, lookup_insert_eq.
      * by rewrite decide_False, lookup_insert_ne by naive_solver.
    + rewrite decide_False by naive_solver. unfold index.
      by rewrite lookup_insert_ne by done.
  - intros s c. rewrite <- Hiss. done.
Qed.

(** For a supported driver the body of the global loop is the
    per-column retype with the type that the request gives for the source
    type. *)
Lemma setTypeMapGlobal_col_updateType driver typeMap t col conv :
  supported_driver driver →
  let src :=
    internal.Name (index internal.zeroNameAndCols (internal.ToSource conv) t) in
  setTypeMapGlobal_col driver typeMap t col conv =
  match typeMap !! schema.Name (schema.Type' (source_column conv t src col)) with
  | None => Some (inl conv)
  | Some newType => inl <$> updateType driver newType t col src conv
  end.
Proof.
  intros Hdrv src. unfold web.setTypeMapGlobal_col, web.updateType.
  fold src. fold (source_column conv t src col).
  destruct (typeMap !! _) as [newType|]; [| done].
  rewrite (mapType_supported _ _ _ _ _ _ Hdrv).
  destruct (web.retyped _ _) as [ty issues].
  destruct (web.setIssues _ _ _ _) as [conv0|]; [| done]. simpl.
  by destruct (web.setColDef _ _ _).
Qed.

End RetypeEffect.

(** ** The global type-map update *)

(** The source table of the Spanner table [t]. *)
Definition source_table (conv : internal.Conv) (t : string) : string :=
  internal.Name (index internal.zeroNameAndCols (internal.ToSource conv) t).

(** The source schema stores every column under its own name. *)
Definition named_by_key (conv : internal.Conv) : Prop :=
  map_Forall
    (λ _ tb, map_Forall (λ k c, schema.colName c = k) (schema.ColDefs tb))
    (internal.SrcSchema conv).

(** What the global loop needs of a visited column in order not to
    panic: its table has a column map and, if the request names the type of
    its source column, the issues of its source table have a place.  A
    column without source column, the synthetic key for one, reads as the
    zero-valued source column, whose type name is empty. *)
Definition visit_ok (conv : internal.Conv) (typeMap : gmap string string)
    (v : string * string) : Prop :=
  let src := source_table conv v.1 in
  is_Some (ddl.ColDefs (index ddl.zeroCreateTable (internal.SpSchema conv) v.1)) ∧
  (is_Some (typeMap !! schema.Name (schema.Type' (source_column conv v.1 src v.2))) →
   is_Some (internal.Issues conv !! src)).

Section GlobalRetype.

Variable toSpannerTypeMySQL toSpannerTypePostgres :
  string → string → list Z → ddl.Type_ * list internal.SchemaIssue.

Local Abbreviation updateType := (web.updateType toSpannerTypeMySQL toSpannerTypePostgres).
Local Abbreviation setTypeMapGlobal_col :=
  (web.setTypeMapGlobal_col toSpannerTypeMySQL toSpannerTypePostgres).
Local Abbreviation setTypeMapGlobal :=
  (web.setTypeMapGlobal toSpannerTypeMySQL toSpannerTypePostgres).
Local Abbreviation retype_of :=
  (retype_of toSpannerTypeMySQL toSpannerTypePostgres).

Lemma same_frame_trans c1 c2 c3 :
  same_frame c1 c2 → same_frame c2 c3 → same_frame c1 c3.
Proof.
  intros (H1 & H2 & H3 & H4) (G1 & G2 & G3 & G4).
  split_and!; [congruence | congruence | naive_solver | naive_solver].
Qed.

Lemma same_frame_source conv conv1 t src c :
  same_frame conv conv1 →
  source_table conv1 t = source_table conv t ∧
  source_column conv1 t src c = source_column conv t src c.
Proof.
  intros (HS & HSrc & _). unfold source_table, source_column.
  by rewrite HS, HSrc.
Qed.

Lemma same_frame_visit_ok conv conv1 typeMap v :
  same_frame conv conv1 → visit_ok conv typeMap v → visit_ok conv1 typeMap v.
Proof.
  intros Hf (H1 & H2). pose proof Hf as (HS & HSrc & HC & HI).
  unfold visit_ok, source_table, source_column in *. rewrite HS, HSrc.
  split; [by apply HC | intros Hty; by apply HI, H2].
Qed.

Lemma same_frame_named conv conv1 :
  same_frame conv conv1 → named_by_key conv → named_by_key conv1.
Proof. intros (_ & HSrc & _). unfold named_by_key. by rewrite HSrc. Qed.

(** In a source schema that stores every column under its own name, two
    columns read from one source table that bear the same name, not the
    empty one, are the same column. *)
Lemma same_name_same_column conv src k k2 :
  named_by_key conv →
  let defs :=
    schema.ColDefs (index schema.zeroTable (internal.SrcSchema conv) src) in
  schema.colName (index schema.zeroColumn defs k) ≠ "" →
  schema.colName (index schema.zeroColumn defs k2)
  = schema.colName (index schema.zeroColumn defs k) →
  index schema.zeroColumn defs k2 = index schema.zeroColumn defs k.
Proof.
  intros Hnamed defs. unfold defs, index.
  destruct (internal.SrcSchema conv !! src) as [tb|] eqn:Htb; simpl;
    [| by rewrite !lookup_empty].
  pose proof (Hnamed src tb Htb) as Hkeys. simpl in Hkeys.
  destruct (schema.ColDefs tb !! k) as [x|] eqn:Hk; simpl; [| done].
  destruct (schema.ColDefs tb !! k2) as [x2|] eqn:Hk2; simpl.
  - intros _ Hn. pose proof (Hkeys k x Hk) as Hx. pose proof (Hkeys k2 x2 Hk2) as Hx2.
    simpl in Hx, Hx2. assert (k2 = k) by congruence. congruence.
  - intros Hne Hn. by rewrite <- Hn in Hne.
Qed.

(** One turn of the global loop on a visited column. *)
Lemma setTypeMapGlobal_col_effect driver typeMap t2 c2 conv :
  supported_driver driver →
  visit_ok conv typeMap (t2, c2) →
  let src := source_table conv t2 in
  let srcCol := source_column conv t2 src c2 in
  ∃ conv1,
    setTypeMapGlobal_col driver typeMap t2 c2 conv = Some (inl conv1) ∧
    same_frame conv conv1 ∧
    match typeMap !! schema.Name (schema.Type' srcCol) with
    | None => conv1 = conv
    | Some newType =>
        let r := retype_of driver newType srcCol in
        (∀ t c, column_type conv1 t c =
                if decide (t = t2 ∧ c = c2) then r.1 else column_type conv t c) ∧
        (∀ s c, issues_of conv1 s c =
                if decide (s = src ∧ schema.colName c = schema.colName srcCol ∧
                           (0 < length r.2)%nat)
                then r.2 else issues_of conv s c)
    end.
Proof.
  intros Hdrv (Hcd & Hiss) src srcCol. simpl in Hcd, Hiss.
  rewrite (setTypeMapGlobal_col_updateType _ _ _ _ _ _ _ Hdrv).
  fold (source_table conv t2). fold src. fold srcCol. fold srcCol in Hiss.
  destruct (typeMap !! _) as [newType|] eqn:Hty.
  - destruct (updateType_spec toSpannerTypeMySQL toSpannerTypePostgres driver
                newType t2 c2 src conv Hdrv) as [Htotal _].
    destruct Htotal as [conv1 Hrun]; [done | intros _; by apply Hiss |].
    exists conv1. rewrite Hrun. split; [done |].
    by apply (updateType_effect _ _ _ _ _ _ _ _ _ Hdrv Hrun).
  - exists conv. split_and!; [done | apply same_frame_refl | done].
Qed.

Section Target.

(** The multi-dimensional column whose fate the loop decides, with its
    source table and source column as the model has them on entry. *)
Variables (driver : string) (typeMap : gmap string string).
Variables (t col src : string) (srcCol : schema.Column).
Hypothesis Hdrv : supported_driver driver.
Hypothesis Hmulti : multi_dimensional srcCol.
Hypothesis Hname : schema.colName srcCol ≠ "".

Definition retyped_to_string (conv : internal.Conv) : Prop :=
  column_type conv t col = ddl.mkType ddl.String ddl.MaxLength false ∧
  internal.MultiDimensionalArray ∈ issues_of conv src srcCol.

Definition target_of (conv : internal.Conv) : Prop :=
  named_by_key conv ∧ source_table conv t = src ∧
  source_column conv t src col = srcCol.

Lemma target_of_frame conv conv1 :
  same_frame conv conv1 → target_of conv → target_of conv1.
Proof using Type.
  intros Hf (Hok & Hs & Hc).
  destruct (same_frame_source conv conv1 t src col Hf) as [Hs1 Hc1].
  split_and!; [by eapply same_frame_named | congruence | congruence].
Qed.

(** A turn of the loop keeps the result for the target column, and
    produces it when it is the target's turn. *)
Lemma turn_keeps_string t2 c2 conv :
  target_of conv → visit_ok conv typeMap (t2, c2) →
  (retyped_to_string conv ∨
   ((t2, c2) = (t, col) ∧ is_Some (typeMap !! schema.Name (schema.Type' srcCol)))) →
  ∃ conv1,
    setTypeMapGlobal_col driver typeMap t2 c2 conv = Some (inl conv1) ∧
    same_frame conv conv1 ∧ retyped_to_string conv1.
Proof using Hdrv Hmulti Hname.
  intros (Hnamed & Hs & Hc) Hok2 Hcase.
  destruct (setTypeMapGlobal_col_effect driver typeMap t2 c2 conv Hdrv Hok2)
    as (conv1 & Hrun & Hf & Heff).
  exists conv1. split_and!; [done | done |].
  cbv zeta in Heff.
  set (sc2 := source_column conv t2 (source_table conv t2) c2) in *.
  assert (Hsame : t2 = t ∧ c2 = col ∨
                  (src = source_table conv t2 ∧
                   schema.colName srcCol = schema.colName sc2) →
                  sc2 = srcCol).
  { unfold sc2. intros [[-> ->] | [Hs2 Hn]]; [congruence |].
    rewrite <- Hc in Hn, Hname |- *. rewrite <- Hs2 in Hn |- *.
    unfold source_column in *. by apply same_name_same_column. }
  destruct (typeMap !! schema.Name (schema.Type' sc2)) as [newType|] eqn:Hty2.
  - destruct Heff as [Hty1 Hiss1]. unfold retyped_to_string in *.
    rewrite Hty1, Hiss1.
    pose proof (retyped_multi_dimensional srcCol
                  (dialect_mapper toSpannerTypeMySQL toSpannerTypePostgres driver
                     (schema.Name (schema.Type' srcCol)) newType
                     (schema.Mods (schema.Type' srcCol))) Hmulti)
      as (Hr1 & Hr2 & Hr3).
    fold (retype_of driver newType srcCol) in Hr1, Hr2, Hr3.
    split.
    + destruct (decide (t = t2 ∧ col = c2)) as [Hd | Hd].
      * rewrite Hsame by (left; destruct Hd; split; congruence). exact Hr1.
      * destruct Hcase as [[? _] | [[= Ht2 Hc2] _]]; [done |].
        exfalso. apply Hd. split; congruence.
    + destruct (decide (src = source_table conv t2 ∧
                        schema.colName srcCol = schema.colName sc2 ∧
                        (0 < length (retype_of driver newType sc2).2)%nat))
        as [Hd | Hd].
      * rewrite Hsame by (right; destruct Hd as (? & ? & _); split; congruence).
        exact Hr2.
      * destruct Hcase as [[_ ?] | [[= Ht2 Hc2] _]]; [done |].
        exfalso. apply Hd. rewrite Hsame by (by left).
        split_and!; [congruence | done | exact Hr3].
  - subst conv1. destruct Hcase as [? | [[= Ht2 Hc2] [? Hsome]]]; [done |].
    rewrite Hsame in Hty2 by (by left). congruence.
Qed.

Lemma loop_keeps_string visit conv :
  target_of conv → Forall (visit_ok conv typeMap) visit →
  (retyped_to_string conv ∨
   ((t, col) ∈ visit ∧ is_Some (typeMap !! schema.Name (schema.Type' srcCol)))) →
  ∃ conv', setTypeMapGlobal driver typeMap visit conv = Some conv' ∧
           (retyped_to_string conv ∨ (t, col) ∈ visit → retyped_to_string conv').
Proof using Hdrv Hmulti Hname.
  revert conv. induction visit as [|[t2 c2] visit IH]; intros conv Htgt Hall Hcase.
  { exists conv. split; [done |]. intros [? | Hin]; [done |].
    by apply elem_of_nil in Hin. }
  apply Forall_cons in Hall as [Hok2 Hall]. simpl.
  destruct (decide ((t2, c2) = (t, col))) as [Heq | Hne].
  - destruct (turn_keeps_string t2 c2 conv Htgt Hok2) as (conv1 & -> & Hf & Hq).
    { destruct Hcase as [? | [_ ?]]; [by left | by right]. }
    destruct (IH conv1) as (conv' & Hrun & Hpost).
    + by eapply target_of_frame.
    + eapply Forall_impl; [exact Hall |]. intros v. by apply same_frame_visit_ok.
    + by left.
    + exists conv'. split; [done |]. intros _. apply Hpost. by left.
  - destruct Hcase as [Hq | [Hin Hsome]].
    + destruct (turn_keeps_string t2 c2 conv Htgt Hok2) as (conv1 & -> & Hf & Hq1);
        [by left |].
      destruct (IH conv1) as (conv' & Hrun & Hpost).
      * by eapply target_of_frame.
      * eapply Forall_impl; [exact Hall |]. intros v. by apply same_frame_visit_ok.
      * by left.
      * exists conv'. split; [done |]. intros _. apply Hpost. by left.
    + apply elem_of_cons in Hin as [[= -> ->] | Hin]; [done |].
      destruct (setTypeMapGlobal_col_effect driver typeMap t2 c2 conv Hdrv Hok2)
        as (conv1 & -> & Hf & _).
      destruct (IH conv1) as (conv' & Hrun & Hpost).
      * by eapply target_of_frame.
      * eapply Forall_impl; [exact Hall |]. intros v. by apply same_frame_visit_ok.
      * by right.
      * exists conv'. split; [done |]. intros _. apply Hpost. by right.
Qed.

End Target.

(** C7: for a supported driver, retyping a column whose source type has
    more than one array bound gives the Spanner type STRING of maximal
    length that is not an array, and records the multi-dimensional-array
    issue under the source column: by [updateType] for any wanted type, as
    soon as the table has its column map and the source table a place for
    issues, and by [setTypeMapGlobal] for any type map that names the
    source type and any order of a visit that reaches the column.  The visit
    may pass columns that have no source column, such as a synthetic key:
    the loop asks of a visited column only what keeps it from panicking, and
    of the source schema that it stores every column under its own name,
    which is not empty for the column at hand. *)
Theorem multi_dimensional_retypes_to_string (driver table col : string)
    (conv : internal.Conv) :
  supported_driver driver →
  (∀ src newType,
     multi_dimensional (source_column conv table src col) →
     is_Some (ddl.ColDefs (index ddl.zeroCreateTable (internal.SpSchema conv) table)) →
     is_Some (internal.Issues conv !! src) →
     ∃ conv', updateType driver newType table col src conv = Some conv' ∧
       column_type conv' table col = ddl.mkType ddl.String ddl.MaxLength false ∧
       internal.MultiDimensionalArray
         ∈ issues_of conv' src (source_column conv table src col)) ∧
  (∀ typeMap visit,
     let src := source_table conv table in
     let srcCol := source_column conv table src col in
     multi_dimensional srcCol →
     is_Some (typeMap !! schema.Name (schema.Type' srcCol)) →
     (table, col) ∈ visit →
     named_by_key conv → schema.colName srcCol ≠ "" →
     Forall (visit_ok conv typeMap) visit →
     ∃ conv', setTypeMapGlobal driver typeMap visit conv = Some conv' ∧
       column_type conv' table col = ddl.mkType ddl.String ddl.MaxLength false ∧
       internal.MultiDimensionalArray ∈ issues_of conv' src srcCol).
Proof.
  intros Hdrv. split.
  - intros src newType Hmulti Hcd Hiss.
    destruct (updateType_spec toSpannerTypeMySQL toSpannerTypePostgres driver
                newType table col src conv Hdrv) as [Htotal Hspec].
    destruct (retyped_multi_dimensional (source_column conv table src col)
                (dialect_mapper toSpannerTypeMySQL toSpannerTypePostgres driver
                   (schema.Name (schema.Type' (source_column conv table src col)))
                   newType
                   (schema.Mods (schema.Type' (source_column conv table src col))))
                Hmulti) as (Hty & Hin & Hlen).
    destruct Htotal as [conv' Hrun]; [done | done |].
    exists conv'. split; [done |].
    destruct (Hspec conv' Hrun) as (Hcd' & Hiss' & _).
    unfold column_type. rewrite Hcd'. simpl. split; [exact Hty |].
    rewrite Hiss' by exact Hlen. exact Hin.
  - intros typeMap visit src srcCol Hmulti Hsome Hin Hnamed Hname Hall.
    destruct (loop_keeps_string driver typeMap table col src srcCol Hdrv Hmulti
                Hname visit conv) as (conv' & Hrun & Hpost).
    + by split_and!.
    + done.
    + by right.
    + exists conv'. split; [done |]. apply Hpost. by right.
Qed.

End GlobalRetype.

(** Decides a closed decidable proposition by evaluation. *)
Ltac by_compute := apply (bool_decide_unpack _); vm_compute; exact I.

Lemma postgres_supported : supported_driver "postgres".
Proof. unfold supported_driver. set_solver. Qed.


(** The sample model with a second table, [events], that has no primary
    key in the source: its Spanner table has the synthetic key [synth_id],
    a column without source column. *)
Definition retype_conv : internal.Conv :=
  internal.mkConv
    {[ "orders" := sample_sp;
       "events" :=
         ddl.mkCreateTable "events" ["msg"; "synth_id"]
           (Some {[ "msg" := ddl.mkColumnDef "msg"
                               (ddl.mkType ddl.String ddl.MaxLength false) false "";
                    "synth_id" := ddl.mkColumnDef "synth_id"
                                    (ddl.mkType ddl.Int64 0 false) false "" ]})
           [ddl.mkIndexKey "synth_id" false] [] "" ]}
    {[ "events" := internal.mkSyntheticPKey "synth_id" 0 ]}
    {[ "sales.orders" := sample_src;
       "sales.events" :=
         schema.mkTable "sales.events" ["msg"]
           {[ "msg" := schema.mkColumn "msg" (schema.mkType "text" [] []) false
                         false (schema.mkIgnored false false false false) ]} [] ]}
    {[ "sales.orders" := {[ "total" := [internal.DefaultValue] ]};
       "sales.events" := ∅ ]}
    {[ "sales.orders" :=
         internal.mkNameAndCols "orders"
           {[ "id" := "order_id"; "total" := "total"; "tags" := "tags";
              "grid" := "grid" ]};
       "sales.events" := internal.mkNameAndCols "events" {[ "msg" := "msg" ]} ]}
    {[ "orders" :=
         internal.mkNameAndCols "sales.orders"
           {[ "order_id" := "id"; "total" := "total"; "tags" := "tags";
              "grid" := "grid" ]};
       "events" := internal.mkNameAndCols "sales.events" {[ "msg" := "msg" ]} ]}
    (internal.mkStats ∅ ∅ ∅) [] false "UTC".

(** The columns of the two tables in an order in which the loops of
    [setTypeMapGlobal] may reach them. *)
Definition retype_visit : list (string * string) :=
  [("events", "synth_id"); ("orders", "tags"); ("orders", "grid");
   ("events", "msg"); ("orders", "order_id"); ("orders", "total")].

Lemma multi_dimensional_retypes_to_string_witness :
  (∃ conv',
     web.updateType sample_mapper sample_mapper "postgres" "INT64" "orders" "grid"
       "sales.orders" sample_conv = Some conv' ∧
     column_type conv' "orders" "grid"
       = ddl.mkType ddl.String ddl.MaxLength false ∧
     internal.MultiDimensionalArray
       ∈ issues_of conv' "sales.orders"
           (source_column sample_conv "orders" "sales.orders" "grid")) ∧
  (∃ conv',
     web.setTypeMapGlobal sample_mapper sample_mapper "postgres"
       {[ "int4" := "INT64"; "text" := "BYTES" ]} retype_visit retype_conv
     = Some conv' ∧
     column_type conv' "orders" "grid"
       = ddl.mkType ddl.String ddl.MaxLength false ∧
     internal.MultiDimensionalArray
       ∈ issues_of conv' "sales.orders"
           (source_column retype_conv "orders" "sales.orders" "grid")).
Proof.
  split.
  - apply (proj1 (multi_dimensional_retypes_to_string sample_mapper sample_mapper
                    "postgres" "orders" "grid" sample_conv postgres_supported));
      by_compute.
  - apply (proj2 (multi_dimensional_retypes_to_string sample_mapper sample_mapper
                    "postgres" "orders" "grid" retype_conv postgres_supported)
             {[ "int4" := "INT64"; "text" := "BYTES" ]} retype_visit);
      by_compute.
Defined.

(** ** Row conversion *)

Section Rows.

Context `{postgres.Runtime}.

Local Abbreviation sqlval := postgres.sqlval.
Local Abbreviation spval := postgres.spval.

(** A cell of a row: the source column, the Spanner column and the
    value at one position. *)
Definition cells (srcCols spCols : list string) (srcVals : list sqlval) :
    list (string * (string * sqlval)) :=
  zip srcCols (zip spCols srcVals).

Definition non_null (cell : string * (string * sqlval)) : bool :=
  negb (postgres.is_nil cell.2.2).

(** The conversion of the value of a cell: [None] when the source or
    the Spanner column definition of the cell cannot be found. *)
Definition convertCell (conv : internal.Conv) (srcSchema : schema.Table)
    (spSchema : ddl.CreateTable) (cell : string * (string * sqlval)) :
    option (postgres.result spval) :=
  srcCd ← schema.ColDefs srcSchema !! cell.1;
  spCd ← ddl.ColDefs spSchema ≫= (.!! cell.2.1);
  Some (if ddl.IsArray (ddl.T spCd)
        then postgres.cvtSQLArray conv srcCd spCd cell.2.2
        else postgres.cvtSQLScalar conv srcCd spCd cell.2.2).

(** The cell makes the row fail. *)
Definition cell_fails (conv : internal.Conv) (srcSchema : schema.Table)
    (spSchema : ddl.CreateTable) (cell : string * (string * sqlval)) : Prop :=
  convertCell conv srcSchema spSchema cell = None ∨
  (non_null cell = true ∧
   ∃ err, convertCell conv srcSchema spSchema cell = Some (postgres.Err err)).

(** The loop of [ConvertSQLRow] over the cells. *)
Fixpoint convertCells (conv : internal.Conv) (srcTable : string)
    (srcSchema : schema.Table) (spSchema : ddl.CreateTable)
    (l : list (string * (string * sqlval))) (cs : list string) (vs : list spval) :
    string + list string * list spval :=
  match l with
  | [] => inr (cs, vs)
  | cell :: l' =>
      match convertCell conv srcSchema spSchema cell with
      | None =>
          inl ("data conversion: can't find schema for column " +:+ cell.1 +:+
               " of table " +:+ srcTable)
      | Some r =>
          if non_null cell then
            match r with
            | postgres.Err err =>
                inl ("can't convert sql data for column " +:+ cell.1 +:+
                     " of table " +:+ srcTable +:+ ": " +:+ err)
            | postgres.Ok spVal =>
                convertCells conv srcTable srcSchema spSchema l'
                  (cs ++ [cell.1]) (vs ++ [spVal])
            end
          else convertCells conv srcTable srcSchema spSchema l' cs vs
      end
  end.

(** With as many Spanner columns and values as source columns, the
    indexed loop of the source never panics and is the loop over the
    cells. *)
Lemma convertColumns_cells conv srcTable srcSchema spSchema
    (spDone : list string) (valsDone : list sqlval) todo spCols srcVals cs vs :
  length spDone = length valsDone →
  length spCols = length todo → length srcVals = length todo →
  postgres.convertColumns conv srcTable srcSchema (spDone ++ spCols) spSchema
    (valsDone ++ srcVals) (length spDone) todo cs vs
  = Some (convertCells conv srcTable srcSchema spSchema
            (cells todo spCols srcVals) cs vs).
Proof.
  revert spDone valsDone spCols srcVals cs vs.
  induction todo as [|c todo IH];
    intros spDone valsDone spCols srcVals cs vs Hdone Hsp Hvals; [done |].
  destruct spCols as [|spc spCols]; [done |].
  destruct srcVals as [|v srcVals]; [done |].
  simpl in Hsp, Hvals. cbn [postgres.convertColumns cells zip zip_with convertCells].
  rewrite (list_lookup_middle spDone spCols spc (length spDone) eq_refl).
  rewrite (list_lookup_middle valsDone srcVals v (length spDone) Hdone).
  cbn [mbind option_bind]. unfold convertCell. cbn [fst snd].
  assert (Hnext : ∀ cs' vs',
    postgres.convertColumns conv srcTable srcSchema (spDone ++ spc :: spCols)
      spSchema (valsDone ++ v :: srcVals) (S (length spDone)) todo cs' vs'
    = Some (convertCells conv srcTable srcSchema spSchema
              (cells todo spCols srcVals) cs' vs')).
  { intros cs' vs'.
    rewrite (cons_middle spc spDone spCols), (cons_middle v valsDone srcVals).
    rewrite !app_assoc.
    replace (S (length spDone)) with (length (spDone ++ [spc]))
      by (rewrite length_app; simpl; lia).
    apply IH; [rewrite !length_app; simpl; lia | lia | lia]. }
  destruct (schema.ColDefs srcSchema !! c) as [srcCd|];
    cbn [mbind option_bind]; [| done].
  destruct (ddl.ColDefs spSchema ≫= (.!! spc)) as [spCd|];
    cbn [mbind option_bind]; [| done].
  unfold non_null. cbn [fst snd].
  destruct (postgres.is_nil v); cbn [negb]; [apply Hnext |].
  destruct (if ddl.IsArray (ddl.T spCd) then _ else _); [apply Hnext | done].
Qed.

(** What the loop over the cells returns. *)
Lemma convertCells_spec conv srcTable srcSchema spSchema l cs vs :
  match convertCells conv srcTable srcSchema spSchema l cs vs with
  | inl _ => Exists (cell_fails conv srcSchema spSchema) l
  | inr (cs', vs') =>
      ¬ Exists (cell_fails conv srcSchema spSchema) l ∧
      cs' = cs ++ (filter (λ cell, non_null cell = true) l).*1 ∧
      ∃ vs1, vs' = vs ++ vs1 ∧
        Forall2 (λ cell v, convertCell conv srcSchema spSchema cell
                           = Some (postgres.Ok v))
          (filter (λ cell, non_null cell = true) l) vs1
  end.
Proof.
  revert cs vs. induction l as [|cell l IH]; intros cs vs; simpl.
  { split_and!; [by intros ?%Exists_nil | by rewrite app_nil_r |].
    exists []. by rewrite app_nil_r. }
  destruct (convertCell conv srcSchema spSchema cell) as [r|] eqn:Hcell.
  2: { apply Exists_cons_hd. by left. }
  destruct (non_null cell) eqn:Hnn.
  - destruct r as [spVal | err].
    2: { apply Exists_cons_hd. right. eauto. }
    specialize (IH (cs ++ [cell.1]) (vs ++ [spVal])).
    destruct (convertCells _ _ _ _ l _ _) as [e | [cs' vs']].
    { by apply Exists_cons_tl. }
    destruct IH as (Hno & -> & vs1 & -> & Hall).
    rewrite filter_cons_True by done. split_and!.
    + rewrite Exists_cons. intros [[Hf | (_ & e & Hf)] | Hl]; [| | done];
        congruence.
    + by rewrite fmap_cons, <- app_assoc.
    + exists (spVal :: vs1). rewrite <- app_assoc. split; [done |].
      by constructor.
  - specialize (IH cs vs).
    destruct (convertCells _ _ _ _ l _ _) as [e | [cs' vs']].
    { by apply Exists_cons_tl. }
    destruct IH as (Hno & -> & vs1 & -> & Hall).
    rewrite filter_cons_False by (by rewrite Hnn). split_and!; [| done | eauto].
    rewrite Exists_cons. intros [[Hf | (Hf & _)] | Hl]; [| | done]; congruence.
Qed.

End Rows.

(** ** Bit reversal of the sequence *)

Example reversed_sequence_samples :
  postgres.reversed_sequence 0 = 0 ∧
  postgres.reversed_sequence 1 = - 2 ^ 63 ∧
  postgres.reversed_sequence 2 = 2 ^ 62 ∧
  postgres.reversed_sequence 3 = - 2 ^ 63 + 2 ^ 62 ∧
  postgres.reversed_sequence (2 ^ 63 - 1) = - 2.
Proof. vm_compute. done. Qed.

Lemma reverse_bits_range n x :
  0 ≤ postgres.reverse_bits n x < 2 ^ Z.of_nat n.
Proof.
  revert x. induction n as [|n IH]; intros x; [simpl; lia |].
  cbn [postgres.reverse_bits]. specialize (IH (Z.div2 x)).
  rewrite Nat2Z.inj_succ, Z.pow_succ_r by lia.
  destruct (Z.odd x); simpl; lia.
Qed.

Lemma reverse_bits_inj n x y :
  0 ≤ x < 2 ^ Z.of_nat n → 0 ≤ y < 2 ^ Z.of_nat n →
  postgres.reverse_bits n x = postgres.reverse_bits n y → x = y.
Proof.
  revert x y. induction n as [|n IH]; intros x y Hx Hy; [simpl in *; lia |].
  cbn [postgres.reverse_bits]. rewrite Nat2Z.inj_succ, Z.pow_succ_r in Hx, Hy by lia.
  pose proof (reverse_bits_range n (Z.div2 x)) as Rx.
  pose proof (reverse_bits_range n (Z.div2 y)) as Ry.
  pose proof (Z.div2_odd x) as Ex. pose proof (Z.div2_odd y) as Ey.
  intros Heq.
  assert (Hb : Z.odd x = Z.odd y ∧
               postgres.reverse_bits n (Z.div2 x) = postgres.reverse_bits n (Z.div2 y)).
  { destruct (Z.odd x), (Z.odd y); simpl in *; lia. }
  destruct Hb as [Hodd Hrest].
  assert (Z.div2 x = Z.div2 y).
  { apply IH; [| | done]; destruct (Z.odd x), (Z.odd y); simpl in *; lia. }
  rewrite Ex, Ey. congruence.
Qed.

Lemma wrap64_small z : - 2 ^ 63 ≤ z < 2 ^ 63 → wrap64 z = z.
Proof. intros Hz. unfold wrap64. rewrite Z.mod_small; lia. Qed.

Lemma wrap64_inj a b :
  0 ≤ a < 2 ^ 64 → 0 ≤ b < 2 ^ 64 → wrap64 a = wrap64 b → a = b.
Proof.
  unfold wrap64. intros Ha Hb Heq.
  destruct (decide (a < 2 ^ 63)), (decide (b < 2 ^ 63)).
  - rewrite !Z.mod_small in Heq by lia. lia.
  - rewrite (Z.mod_small (a + 2 ^ 63)) in Heq by lia.
    replace (b + 2 ^ 63) with (b - 2 ^ 63 + 1 * 2 ^ 64) in Heq by lia.
    rewrite Z.mod_add, Z.mod_small in Heq by lia. lia.
  - rewrite (Z.mod_small (b + 2 ^ 63)) in Heq by lia.
    replace (a + 2 ^ 63) with (a - 2 ^ 63 + 1 * 2 ^ 64) in Heq by lia.
    rewrite Z.mod_add, Z.mod_small in Heq by lia. lia.
  - replace (a + 2 ^ 63) with (a - 2 ^ 63 + 1 * 2 ^ 64) in Heq by lia.
    replace (b + 2 ^ 63) with (b - 2 ^ 63 + 1 * 2 ^ 64) in Heq by lia.
    rewrite !Z.mod_add, !Z.mod_small in Heq by lia. lia.
Qed.

(** Two sequence values that [uint64] keeps apart have different
    bit-reversed values. *)
Lemma reversed_sequence_inj a b :
  0 ≤ a < 2 ^ 64 → 0 ≤ b < 2 ^ 64 →
  postgres.reversed_sequence a = postgres.reversed_sequence b → a = b.
Proof.
  intros Ha Hb. unfold postgres.reversed_sequence, postgres.Reverse64.
  rewrite !Z.mod_small by done. intros Heq.
  apply wrap64_inj in Heq; [| apply (reverse_bits_range 64) ..].
  by apply (reverse_bits_inj 64).
Qed.

Section ConvertSQLRow.

Context `{postgres.Runtime}.

Local Abbreviation sqlval := postgres.sqlval.
Local Abbreviation spval := postgres.spval.

(** The synthetic key that a successful call adds to the row. *)
Definition synthetic_col (conv : internal.Conv) (spTable : string) : list string :=
  option_list (internal.Col <$> internal.SyntheticPKeys conv !! spTable).

Definition synthetic_val (conv : internal.Conv) (spTable : string) : list spval :=
  option_list
    ((λ aux, postgres.SpInt64 (postgres.reversed_sequence (internal.Sequence aux)))
       <$> internal.SyntheticPKeys conv !! spTable).

(** The model after a successful call: the sequence of the synthetic
    key of the table, if it has one, has moved on by one. *)
Definition sequence_advanced (conv : internal.Conv) (spTable : string) :
    internal.Conv :=
  match internal.SyntheticPKeys conv !! spTable with
  | Some aux =>
      internal.with_SyntheticPKeys
        (<[spTable := internal.mkSyntheticPKey (internal.Col aux)
                        (wrap64 (internal.Sequence aux + 1))]>) conv
  | None => conv
  end.

(** What [ConvertSQLRow] returns on a row that has as many Spanner
    columns and values as source columns. *)
Lemma ConvertSQLRow_spec conv srcTable srcCols srcSchema spTable spCols spSchema
    (srcVals : list sqlval) :
  length spCols = length srcCols → length srcVals = length srcCols →
  let l := cells srcCols spCols srcVals in
  let kept := filter (λ cell, non_null cell = true) l in
  (Exists (cell_fails conv srcSchema spSchema) l ∧
   ∃ err, postgres.ConvertSQLRow conv srcTable srcCols srcSchema spTable spCols
            spSchema srcVals = Some ([], [], Some err, conv)) ∨
  (¬ Exists (cell_fails conv srcSchema spSchema) l ∧
   ∃ vs1,
     Forall2 (λ cell v, convertCell conv srcSchema spSchema cell
                        = Some (postgres.Ok v)) kept vs1 ∧
     postgres.ConvertSQLRow conv srcTable srcCols srcSchema spTable spCols
       spSchema srcVals
     = Some (kept.*1 ++ synthetic_col conv spTable,
             vs1 ++ synthetic_val conv spTable, None,
             sequence_advanced conv spTable)).
Proof.
  intros Hsp Hvals l kept. unfold postgres.ConvertSQLRow.
  pose proof (convertColumns_cells conv srcTable srcSchema spSchema [] []
                srcCols spCols srcVals [] [] eq_refl Hsp Hvals) as Hloop.
  simpl in Hloop. rewrite Hloop. cbn [mbind option_bind].
  pose proof (convertCells_spec conv srcTable srcSchema spSchema l [] []) as Hspec.
  fold l. destruct (convertCells _ _ _ _ l [] []) as [err | [cs vs]].
  - left. eauto.
  - right. destruct Hspec as (Hno & -> & vs1 & -> & Hall). split; [done |].
    exists vs1. split; [done |].
    unfold synthetic_col, synthetic_val, sequence_advanced. fold kept.
    destruct (internal.SyntheticPKeys conv !! spTable); simpl;
      by rewrite ?app_nil_r.
Qed.

(** C9: on a row with as many Spanner columns and values as source
    columns, [ConvertSQLRow] returns column and value lists of the same
    length; when it succeeds, the columns are those of the cells whose value
    is not NULL, in order, followed by the synthetic key column if the table
    has one, the values are the conversions of exactly those cells followed
    by the synthetic key value, and a column whose value is NULL is not in
    the returned columns. *)
Theorem null_cells_are_omitted (conv : internal.Conv) (srcTable : string)
    (srcCols : list string) (srcSchema : schema.Table) (spTable : string)
    (spCols : list string) (spSchema : ddl.CreateTable) (srcVals : list sqlval) :
  length spCols = length srcCols → length srcVals = length srcCols →
  let kept :=
    filter (λ cell, non_null cell = true) (cells srcCols spCols srcVals) in
  ∃ cs vs err conv',
    postgres.ConvertSQLRow conv srcTable srcCols srcSchema spTable spCols
      spSchema srcVals = Some (cs, vs, err, conv') ∧
    length cs = length vs ∧
    (err = None →
     cs = kept.*1 ++ synthetic_col conv spTable ∧
     (∃ vs1, vs = vs1 ++ synthetic_val conv spTable ∧
        Forall2 (λ cell v, convertCell conv srcSchema spSchema cell
                           = Some (postgres.Ok v)) kept vs1) ∧
     ∀ i col, srcCols !! i = Some col → srcVals !! i = Some postgres.SqlNil →
       NoDup srcCols → col ∉ synthetic_col conv spTable → col ∉ cs).
Proof.
  intros Hsp Hvals kept.
  destruct (ConvertSQLRow_spec conv srcTable srcCols srcSchema spTable spCols
              spSchema srcVals Hsp Hvals)
    as [(_ & err & ->) | (_ & vs1 & Hall & ->)].
  { exists [], [], (Some err), conv. split_and!; [done | done | done]. }
  fold kept in Hall |- *.
  eexists _, _, None, _. split; [done |]. split.
  - rewrite !length_app, length_fmap, (Forall2_length _ _ _ Hall).
    unfold synthetic_col, synthetic_val.
    by destruct (internal.SyntheticPKeys conv !! spTable).
  - intros _. split_and!; [done | by exists vs1 |].
    intros i col Hcol Hnil Hnodup Hsynth Hin.
    apply elem_of_app in Hin as [Hin | Hin]; [| done].
    apply list_elem_of_fmap in Hin as (cell & -> & Hcell).
    apply list_elem_of_filter in Hcell as [Hnn Hcell].
    apply list_elem_of_lookup in Hcell as [j Hj].
    unfold cells in Hj. apply lookup_zip_with_Some in Hj as (c & sv & -> & Hc & Hsv).
    apply lookup_zip_with_Some in Hsv as (spc & v & -> & _ & Hv).
    simpl in *. assert (i = j) as -> by (by eapply NoDup_lookup).
    unfold non_null in Hnn. simpl in Hnn.
    assert (v = postgres.SqlNil) as -> by congruence. done.
Qed.

End ConvertSQLRow.

(** ** The bits of the reversed sequence *)

Lemma reverse_bits_testbit n x i :
  0 ≤ i < Z.of_nat n →
  Z.testbit (postgres.reverse_bits n x) i = Z.testbit x (Z.of_nat n - 1 - i).
Proof.
  revert x i. induction n as [|n IH]; intros x i Hi; [lia |].
  cbn [postgres.reverse_bits].
  pose proof (reverse_bits_range n (Z.div2 x)) as Hr.
  set (r := postgres.reverse_bits n (Z.div2 x)) in *.
  assert (Hpow : 0 < 2 ^ Z.of_nat n) by lia.
  destruct (decide (i = Z.of_nat n)) as [-> | Hne].
  - replace (Z.of_nat (S n) - 1 - Z.of_nat n) with 0 by lia.
    rewrite Z.bit0_odd, Z.testbit_odd, Z.shiftr_div_pow2 by lia.
    rewrite Z.div_add_l, Z.div_small by lia.
    rewrite Z.add_0_r. by destruct (Z.odd x).
  - rewrite <- (Z.mod_pow2_bits_low _ (Z.of_nat n)) by lia.
    rewrite Z.add_comm, Z.mod_add, Z.mod_small by lia.
    unfold r. rewrite IH by lia. rewrite Z.div2_spec, Z.shiftr_spec by lia.
    f_equal. lia.
Qed.

Lemma wrap64_testbit z i : 0 ≤ i < 64 → Z.testbit (wrap64 z) i = Z.testbit z i.
Proof.
  intros Hi.
  rewrite <- (Z.mod_pow2_bits_low (wrap64 z) 64),
          <- (Z.mod_pow2_bits_low z 64 i) by lia.
  f_equal. unfold wrap64. rewrite Zminus_mod_idemp_l. f_equal. lia.
Qed.

Lemma wrap64_range z : - 2 ^ 63 ≤ wrap64 z < 2 ^ 63.
Proof. unfold wrap64. pose proof (Z.mod_pos_bound (z + 2 ^ 63) (2 ^ 64)). lia. Qed.

(** The reversed sequence is an [int64] whose bit [i] is bit [63 - i] of
    the sequence. *)
Lemma reversed_sequence_bits q :
  - 2 ^ 63 ≤ postgres.reversed_sequence q < 2 ^ 63 ∧
  ∀ i, 0 ≤ i < 64 →
    Z.testbit (postgres.reversed_sequence q) i = Z.testbit q (63 - i).
Proof.
  unfold postgres.reversed_sequence, postgres.Reverse64.
  split; [apply wrap64_range |]. intros i Hi.
  rewrite wrap64_testbit, (reverse_bits_testbit 64) by lia.
  rewrite Z.mod_pow2_bits_low by lia. f_equal.
Qed.

(** ** The loop over the rows of a table *)

(** The sequence after [n] increments. *)
Fixpoint advance (n : nat) (seq : Z) : Z :=
  match n with
  | O => seq
  | S n' => advance n' (wrap64 (seq + 1))
  end.

Lemma advance_small n seq :
  0 ≤ seq → seq + Z.of_nat n < 2 ^ 63 → advance n seq = seq + Z.of_nat n.
Proof.
  revert seq. induction n as [|n IH]; intros seq Hseq Hn; simpl; [lia |].
  rewrite wrap64_small by lia. rewrite IH by lia. lia.
Qed.

(** The rows of an answer whose scan succeeded, in order. *)
Definition scanned {A} (rows : list (postgres.result A)) : list A :=
  omap (λ r, match r with postgres.Ok a => Some a | postgres.Err _ => None end) rows.

#[global] Instance cell_fails_dec `{postgres.Runtime} conv srcSchema spSchema cell :
  Decision (cell_fails conv srcSchema spSchema cell).
Proof.
  unfold cell_fails.
  destruct (convertCell conv srcSchema spSchema cell) as [[v | e] |].
  - right. intros [? | (_ & e & ?)]; congruence.
  - destruct (non_null cell).
    + left. right. eauto.
    + right. intros [? | (? & _)]; congruence.
  - left. by left.
Defined.

(** The scanned row converts: none of its cells fails. *)
Definition converts `{postgres.Runtime} (c : internal.Conv)
    (srcCols spCols : list string) (srcSchema : schema.Table)
    (spSchema : ddl.CreateTable) (v : list postgres.sqlval) : Prop :=
  ¬ Exists (cell_fails c srcSchema spSchema) (cells srcCols spCols v).

#[global] Instance converts_dec `{postgres.Runtime} c srcCols spCols srcSchema
    spSchema v : Decision (converts c srcCols spCols srcSchema spSchema v).
Proof. unfold converts. apply _. Defined.

Section ProcessRows.

Context `{postgres.Runtime}.
Variable Sprint : postgres.sqlval → string.

Local Abbreviation processRows := (postgres.processRows Sprint).

(** A scanned row has as many values as the query has columns. *)
Definition scan_ok (srcCols : list string)
    (r : postgres.result (list postgres.sqlval)) : Prop :=
  match r with
  | postgres.Ok v => length v = length srcCols
  | postgres.Err _ => True
  end.

(** The model after a row that failed to convert: the failure is
    reported, the bad row is counted according to the data mode, and its
    stringified values are offered to the sample. *)
Definition bad_row_recorded (srcTable : string) (srcCols : list string)
    (v : list postgres.sqlval) (msg : string) (c : internal.Conv) : internal.Conv :=
  let c := internal.Unexpected msg c in
  let c := internal.StatsAddBadRow srcTable (internal.DataMode c) c in
  internal.CollectBadRow postgres.sampleHasRoom srcTable srcCols
    (postgres.valsToStrings Sprint v) c.

(** The fields of the model after a row that failed to convert. *)
Lemma bad_row_recorded_fields srcTable srcCols v msg c :
  let raw :=
    internal.mkRow srcTable srcCols
      ((λ x, if postgres.is_nil x then "NULL" else Sprint x) <$> v) in
  bad_row_recorded srcTable srcCols v msg c
  = internal.mkConv (internal.SpSchema c) (internal.SyntheticPKeys c)
      (internal.SrcSchema c) (internal.Issues c) (internal.ToSpanner c)
      (internal.ToSource c)
      (internal.mkStats (internal.Rows (internal.Stats c))
         (if internal.dataMode c
          then <[srcTable :=
                   index 0 (internal.BadRows (internal.Stats c)) srcTable + 1]>
                 (internal.BadRows (internal.Stats c))
          else internal.BadRows (internal.Stats c))
         (<[msg := index 0 (internal.UnexpectedCount (internal.Stats c)) msg + 1]>
            (internal.UnexpectedCount (internal.Stats c))))
      (if postgres.sampleHasRoom (internal.sampleBadRows c) raw
       then internal.sampleBadRows c ++ [raw]
       else internal.sampleBadRows c)
      (internal.dataMode c) (internal.Location c).
Proof.
  intros raw. unfold bad_row_recorded, internal.CollectBadRow,
    internal.StatsAddBadRow, internal.DataMode, postgres.valsToStrings.
  fold raw.
  cbn [internal.Unexpected internal.with_Stats internal.dataMode].
  destruct c as [? ? ? ? ? ? [? ? ?] sample mode ?]. cbn.
  destruct mode; cbn; by destruct (postgres.sampleHasRoom sample raw).
Qed.

(** C6: on a row with as many Spanner columns and values as source
    columns, [ConvertSQLRow] returns an error exactly when some cell has no
    source or Spanner column definition or some cell that is not NULL fails
    its conversion; with the error it returns no column and no value and
    leaves the model as it was.  The loop of [ProcessSQLData] then neither
    panics nor writes: after the row the sink is as before, and the model
    differs from the one before the row in exactly this: the report
    [Couldn't process sql data row: ] followed by the error is counted once
    more, the bad rows of the source table are one more in data mode (and as
    before otherwise), and the sample of bad rows has the raw row at its
    end, with NULL for a NULL and the printed value otherwise, if its bound
    had room for it (and is as before otherwise).  The rows that follow
    are processed from that state. *)
Theorem failed_row_is_counted_and_skipped (srcTable : string)
    (srcCols : list string) (srcSchema : schema.Table) (spTable : string)
    (spCols : list string) (spSchema : ddl.CreateTable)
    (v : list postgres.sqlval)
    (rows : list (postgres.result (list postgres.sqlval))) (st : postgres.state) :
  length spCols = length srcCols → length v = length srcCols →
  let c := postgres.conv st in
  let fails := Exists (cell_fails c srcSchema spSchema) (cells srcCols spCols v) in
  (∃ cs vs err c',
     postgres.ConvertSQLRow c srcTable srcCols srcSchema spTable spCols spSchema v
       = Some (cs, vs, err, c') ∧
     (is_Some err ↔ fails) ∧
     (is_Some err → cs = [] ∧ vs = [] ∧ c' = c)) ∧
  (fails →
   ∃ err,
     postgres.ConvertSQLRow c srcTable srcCols srcSchema spTable spCols spSchema v
       = Some ([], [], Some err, c) ∧
     let msg := "Couldn't process sql data row: " +:+ err in
     let raw :=
       internal.mkRow srcTable srcCols
         ((λ x, if postgres.is_nil x then "NULL" else Sprint x) <$> v) in
     let st1 :=
       postgres.mkState
         (internal.mkConv (internal.SpSchema c) (internal.SyntheticPKeys c)
            (internal.SrcSchema c) (internal.Issues c) (internal.ToSpanner c)
            (internal.ToSource c)
            (internal.mkStats (internal.Rows (internal.Stats c))
               (if internal.dataMode c
                then <[srcTable :=
                         index 0 (internal.BadRows (internal.Stats c)) srcTable + 1]>
                       (internal.BadRows (internal.Stats c))
                else internal.BadRows (internal.Stats c))
               (<[msg := index 0 (internal.UnexpectedCount (internal.Stats c)) msg
                         + 1]>
                  (internal.UnexpectedCount (internal.Stats c))))
            (if postgres.sampleHasRoom (internal.sampleBadRows c) raw
             then internal.sampleBadRows c ++ [raw]
             else internal.sampleBadRows c)
            (internal.dataMode c) (internal.Location c))
         (postgres.sink st) in
     processRows srcTable srcCols srcSchema spTable spCols spSchema
       [postgres.Ok v] st = Some st1 ∧
     processRows srcTable srcCols srcSchema spTable spCols spSchema
       (postgres.Ok v :: rows) st
     = processRows srcTable srcCols srcSchema spTable spCols spSchema rows st1).
Proof.
  intros Hsp Hvals c fails.
  destruct (ConvertSQLRow_spec c srcTable srcCols srcSchema spTable spCols
              spSchema v Hsp Hvals)
    as [(Hf & err & Hrun) | (Hno & vs1 & Hall & Hrun)].
  - split.
    + exists [], [], (Some err), c. split_and!; [done | | done].
      split; [done | eauto].
    + intros _. exists err. split; [done |].
      cbn [postgres.processRows]. fold c. rewrite Hrun. cbn [mbind option_bind].
      pose proof (bad_row_recorded_fields srcTable srcCols v
                    ("Couldn't process sql data row: " +:+ err) c) as Hfields.
      cbv zeta in Hfields. unfold bad_row_recorded in Hfields.
      cbv zeta in Hfields. rewrite Hfields. done.
  - split; [| done].
    eexists _, _, None, _. split_and!; [done | | by intros [? ?]].
    split; [by intros [? ?] | done].
Qed.

Lemma bad_row_keeps_keys srcTable srcCols v msg c :
  internal.SyntheticPKeys (bad_row_recorded srcTable srcCols v msg c)
  = internal.SyntheticPKeys c.
Proof.
  unfold bad_row_recorded, internal.CollectBadRow, internal.StatsAddBadRow.
  destruct (postgres.sampleHasRoom _ _), (internal.DataMode _); done.
Qed.

Lemma bad_row_keeps_location srcTable srcCols v msg c :
  internal.Location (bad_row_recorded srcTable srcCols v msg c)
  = internal.Location c.
Proof.
  unfold bad_row_recorded, internal.CollectBadRow, internal.StatsAddBadRow.
  destruct (postgres.sampleHasRoom _ _), (internal.DataMode _); done.
Qed.

(** The conversion of a cell reads the location of the model and nothing
    else of it. *)
Lemma convertCell_location c c' srcSchema spSchema cell :
  internal.Location c' = internal.Location c →
  convertCell c' srcSchema spSchema cell = convertCell c srcSchema spSchema cell.
Proof.
  intros Hl. unfold convertCell.
  destruct (schema.ColDefs srcSchema !! cell.1) as [srcCd|];
    cbn [mbind option_bind]; [| done].
  destruct (ddl.ColDefs spSchema ≫= (.!! cell.2.1)) as [spCd|];
    cbn [mbind option_bind]; [| done].
  unfold postgres.cvtSQLArray, postgres.cvtSQLScalar. by rewrite Hl.
Qed.

Lemma converts_location c c' srcCols spCols srcSchema spSchema v :
  internal.Location c' = internal.Location c →
  converts c' srcCols spCols srcSchema spSchema v ↔
  converts c srcCols spCols srcSchema spSchema v.
Proof.
  intros Hl. unfold converts, cell_fails.
  apply not_iff_compat.
  split; intros Hex; (eapply Exists_impl; [exact Hex |]); intros cell;
    cbv beta; by rewrite (convertCell_location c c' _ _ cell Hl).
Qed.

(** The rows of a table with a synthetic key: the rows written are the
    scanned rows that convert, in order; each carries the columns of its
    cells that are not NULL and the conversions of their values, with the
    key column and the bit-reversed sequence at the end, and moves the
    sequence on by one; the other rows leave the sequence alone. *)
Lemma processRows_keys srcTable srcCols srcSchema spTable spCols spSchema
    rows c0 st aux :
  length spCols = length srcCols →
  Forall (scan_ok srcCols) rows →
  internal.Location (postgres.conv st) = internal.Location c0 →
  internal.SyntheticPKeys (postgres.conv st) !! spTable = Some aux →
  let good := filter (converts c0 srcCols spCols srcSchema spSchema) (scanned rows) in
  ∃ st' new,
    processRows srcTable srcCols srcSchema spTable spCols spSchema rows st
      = Some st' ∧
    postgres.sink st' = postgres.sink st ++ new ∧
    internal.SyntheticPKeys (postgres.conv st') !! spTable
      = Some (internal.mkSyntheticPKey (internal.Col aux)
                (advance (length good) (internal.Sequence aux))) ∧
    length new = length good ∧
    ∀ j v, good !! j = Some v →
      let kept := filter (λ cell, non_null cell = true) (cells srcCols spCols v) in
      ∃ vs1,
        Forall2 (λ cell x, convertCell c0 srcSchema spSchema cell
                           = Some (postgres.Ok x)) kept vs1 ∧
        new !! j
        = Some (postgres.mkWritten srcTable spTable (kept.*1 ++ [internal.Col aux])
                  (vs1 ++ [postgres.SpInt64
                             (postgres.reversed_sequence
                                (advance j (internal.Sequence aux)))])).
Proof.
  intros Hsp Hall. revert st aux.
  induction Hall as [|r rows Hr Hall IH]; intros st aux Hloc Haux good.
  { exists st, []. rewrite app_nil_r. split_and!; [done | done | | done | done].
    by destruct aux. }
  destruct r as [v | e]; cbn [postgres.processRows].
  - simpl in Hr.
    destruct (ConvertSQLRow_spec (postgres.conv st) srcTable srcCols srcSchema
                spTable spCols spSchema v Hsp Hr)
      as [(Hf & err & ->) | (Hno & vs1 & Hvs & ->)]; cbn [mbind option_bind].
    + assert (Hgood : good
                      = filter (converts c0 srcCols spCols srcSchema spSchema)
                          (scanned rows)).
      { unfold good. cbn [scanned omap list_omap]. fold (scanned rows).
        apply filter_cons_False. rewrite <- (converts_location _ _ _ _ _ _ _ Hloc).
        by intros Hc. }
      rewrite Hgood.
      destruct (IH (postgres.mkState
                      (bad_row_recorded srcTable srcCols v
                         ("Couldn't process sql data row: " +:+ err)
                         (postgres.conv st)) (postgres.sink st)) aux)
        as (st' & new & Hrun & Hsink & Hseq & Hlen & Hnew).
      { cbn [postgres.conv]. by rewrite bad_row_keeps_location. }
      { cbn [postgres.conv]. by rewrite bad_row_keeps_keys. }
      exists st', new. by split_and!.
    + assert (Hgood : good
                      = v :: filter (converts c0 srcCols spCols srcSchema spSchema)
                               (scanned rows)).
      { unfold good. cbn [scanned omap list_omap]. fold (scanned rows).
        apply filter_cons_True. by rewrite <- (converts_location _ _ _ _ _ _ _ Hloc). }
      rewrite Hgood.
      unfold sequence_advanced, synthetic_col, synthetic_val. rewrite Haux.
      cbn [fmap option_fmap option_map option_list].
      set (aux' := internal.mkSyntheticPKey (internal.Col aux)
                     (wrap64 (internal.Sequence aux + 1))).
      destruct (IH (postgres.WriteRow srcTable spTable
                      ((filter (λ cell, non_null cell = true)
                          (cells srcCols spCols v)).*1 ++ [internal.Col aux])
                      (vs1 ++ [postgres.SpInt64
                                 (postgres.reversed_sequence (internal.Sequence aux))])
                      (postgres.mkState
                         (internal.with_SyntheticPKeys (<[spTable := aux']>)
                            (postgres.conv st))
                         (postgres.sink st))) aux')
        as (st' & new & Hrun & Hsink & Hseq & Hlen & Hnew).
      { done. }
      { cbn. by rewrite lookup_insert_eq. }
      eexists st', (_ :: new).
      split_and!; [exact Hrun | | exact Hseq | by rewrite !length_cons, Hlen |].
      * rewrite Hsink. cbn. by rewrite <- app_assoc.
      * intros [|j] w Hw; simpl in Hw.
        -- injection Hw as <-. exists vs1. split; [| done].
           eapply Forall2_impl; [exact Hvs |]. intros cell x Hx.
           by rewrite <- (convertCell_location _ _ _ _ cell Hloc).
        -- by apply Hnew.
  - destruct (IH (postgres.mkState
                    (internal.StatsAddBadRow srcTable
                       (internal.DataMode
                          (internal.Unexpected
                             ("Couldn't process sql data row: " +:+ e)
                             (postgres.conv st)))
                       (internal.Unexpected
                          ("Couldn't process sql data row: " +:+ e)
                          (postgres.conv st)))
                    (postgres.sink st)) aux)
      as (st' & new & Hrun & Hsink & Hseq & Hlen & Hnew).
    { cbn [postgres.conv]. unfold internal.StatsAddBadRow.
      by destruct (internal.DataMode _). }
    { cbn [postgres.conv]. unfold internal.StatsAddBadRow.
      by destruct (internal.DataMode _). }
    exists st', new. by split_and!.
Qed.

(** C3: the bit-reversed sequence is the [int64] whose bit [i] is bit
    [63 - i] of the sequence.  For a table with a synthetic key, every call
    of [ConvertSQLRow] that succeeds returns the key's column name and the
    bit-reversed current sequence at the end of its columns and values, and
    moves the sequence on by one; a call that fails leaves the sequence
    alone.  So [ProcessSQLData] writes one row for each scanned row of the
    table that converts, in order; as long as the sequence stays below 2^63,
    the row written for the [j]-th of them carries the columns of its cells
    that are not NULL followed by the key column, and their conversions
    followed by the bit-reversed value of s+j, where s is the sequence on
    entry (0 for a fresh key); with N such rows the sequence ends at s+N,
    and the N bit-reversed values are pairwise distinct. *)
Theorem synthetic_keys_count_up (srcTable : string) (srcCols : list string)
    (srcSchema : schema.Table) (spTable : string) (spCols : list string)
    (spSchema : ddl.CreateTable)
    (rows : list (postgres.result (list postgres.sqlval)))
    (st : postgres.state) (aux : internal.SyntheticPKey) :
  length spCols = length srcCols →
  Forall (scan_ok srcCols) rows →
  internal.SyntheticPKeys (postgres.conv st) !! spTable = Some aux →
  0 ≤ internal.Sequence aux →
  let s := internal.Sequence aux in
  let good :=
    filter (converts (postgres.conv st) srcCols spCols srcSchema spSchema)
      (scanned rows) in
  (∀ q, - 2 ^ 63 ≤ postgres.reversed_sequence q < 2 ^ 63 ∧
        ∀ i, 0 ≤ i < 64 →
          Z.testbit (postgres.reversed_sequence q) i = Z.testbit q (63 - i)) ∧
  (∀ v, length v = length srcCols →
     ∃ cs vs err c',
       postgres.ConvertSQLRow (postgres.conv st) srcTable srcCols srcSchema
         spTable spCols spSchema v = Some (cs, vs, err, c') ∧
       match err with
       | None =>
           (∃ cs0 vs0, cs = cs0 ++ [internal.Col aux] ∧
              vs = vs0 ++ [postgres.SpInt64 (postgres.reversed_sequence s)]) ∧
           internal.SyntheticPKeys c' !! spTable
           = Some (internal.mkSyntheticPKey (internal.Col aux) (wrap64 (s + 1)))
       | Some _ => c' = postgres.conv st
       end) ∧
  ∃ st' new,
    processRows srcTable srcCols srcSchema spTable spCols spSchema rows st
      = Some st' ∧
    postgres.sink st' = postgres.sink st ++ new ∧
    length new = length good ∧
    (s + Z.of_nat (length new) < 2 ^ 63 →
     internal.SyntheticPKeys (postgres.conv st') !! spTable
     = Some (internal.mkSyntheticPKey (internal.Col aux)
               (s + Z.of_nat (length new))) ∧
     (∀ j v, good !! j = Some v →
        let kept :=
          filter (λ cell, non_null cell = true) (cells srcCols spCols v) in
        ∃ vs1,
          Forall2 (λ cell x, convertCell (postgres.conv st) srcSchema spSchema cell
                             = Some (postgres.Ok x)) kept vs1 ∧
          new !! j
          = Some (postgres.mkWritten srcTable spTable
                    (kept.*1 ++ [internal.Col aux])
                    (vs1 ++ [postgres.SpInt64
                               (postgres.reversed_sequence (s + Z.of_nat j))]))) ∧
     (∀ j w, new !! j = Some w →
        ∃ cs vs,
          postgres.wCols w = cs ++ [internal.Col aux] ∧
          postgres.wVals w
          = vs ++ [postgres.SpInt64 (postgres.reversed_sequence (s + Z.of_nat j))]) ∧
     (∀ j k, (j < length new)%nat → (k < length new)%nat → j ≠ k →
        postgres.reversed_sequence (s + Z.of_nat j)
        ≠ postgres.reversed_sequence (s + Z.of_nat k))).
Proof.
  intros Hsp Hall Haux Hs s good. split_and!.
  - apply reversed_sequence_bits.
  - intros v Hv.
    destruct (ConvertSQLRow_spec (postgres.conv st) srcTable srcCols srcSchema
                spTable spCols spSchema v Hsp Hv)
      as [(_ & err & ->) | (_ & vs1 & _ & ->)].
    + by eexists _, _, (Some err), _.
    + eexists _, _, None, _. split; [done |].
      unfold sequence_advanced, synthetic_col, synthetic_val. rewrite Haux.
      cbn. split; [eauto | by rewrite lookup_insert_eq].
  - destruct (processRows_keys srcTable srcCols srcSchema spTable spCols
                spSchema rows (postgres.conv st) st aux Hsp Hall eq_refl Haux)
      as (st' & new & Hrun & Hsink & Hseq & Hlen & Hnew).
    fold good in Hseq, Hlen, Hnew.
    exists st', new. split_and!; [done | done | done |]. intros Hbound.
    assert (Hrow : ∀ j v, good !! j = Some v →
      let kept :=
        filter (λ cell, non_null cell = true) (cells srcCols spCols v) in
      ∃ vs1,
        Forall2 (λ cell x, convertCell (postgres.conv st) srcSchema spSchema cell
                           = Some (postgres.Ok x)) kept vs1 ∧
        new !! j
        = Some (postgres.mkWritten srcTable spTable
                  (kept.*1 ++ [internal.Col aux])
                  (vs1 ++ [postgres.SpInt64
                             (postgres.reversed_sequence (s + Z.of_nat j))]))).
    { intros j v Hj kept. destruct (Hnew j v Hj) as (vs1 & Hvs & Hw).
      exists vs1. split; [done |]. rewrite Hw.
      apply lookup_lt_Some in Hj.
      rewrite advance_small by (unfold s in *; lia). done. }
    split_and!.
    + rewrite Hseq, <- Hlen. by rewrite advance_small.
    + exact Hrow.
    + intros j w Hw.
      assert (is_Some (good !! j)) as [v Hv].
      { apply lookup_lt_is_Some. rewrite <- Hlen. by eapply lookup_lt_Some. }
      destruct (Hrow j v Hv) as (vs1 & _ & Hw'). rewrite Hw in Hw'.
      injection Hw' as ->. cbn. eauto.
    + intros j k Hj Hk Hne Heq. apply reversed_sequence_inj in Heq; lia.
Qed.

End ProcessRows.

(** ** The loop over the tables *)

(** The model [c'] is the model [c] but for the two maps of names, the
    part of the model that the lookups of package [internal] fill in. *)
Definition lookup_frame (c c' : internal.Conv) : Prop :=
  c' = internal.mkConv (internal.SpSchema c) (internal.SyntheticPKeys c)
         (internal.SrcSchema c) (internal.Issues c) (internal.ToSpanner c')
         (internal.ToSource c') (internal.Stats c) (internal.sampleBadRows c)
         (internal.dataMode c) (internal.Location c).

Lemma lookup_frame_fields c c' :
  lookup_frame c c' →
  internal.SpSchema c' = internal.SpSchema c ∧
  internal.SyntheticPKeys c' = internal.SyntheticPKeys c ∧
  internal.SrcSchema c' = internal.SrcSchema c ∧
  internal.Issues c' = internal.Issues c ∧
  internal.Stats c' = internal.Stats c ∧
  internal.sampleBadRows c' = internal.sampleBadRows c ∧
  internal.dataMode c' = internal.dataMode c ∧
  internal.Location c' = internal.Location c.
Proof. intros Hf. rewrite Hf. done. Qed.

Section ProcessTables.

Context `{postgres.Runtime}.
Variable Sprint : postgres.sqlval → string.

Local Abbreviation processTable := (postgres.processTable Sprint).
Local Abbreviation processTables := (postgres.processTables Sprint).

(** The table's Spanner name, its column mapping or one of its two
    schemas cannot be resolved. *)
Definition resolution_fails (rows : postgres.Rows) (c : internal.Conv)
    (srcTable : string) : Prop :=
  let err1 := postgres.Columns rows in
  let looked1 := postgres.GetSpannerTable c srcTable in
  let err2 := looked1.1 in
  let looked2 :=
    postgres.GetSpannerCols looked1.2 srcTable (postgres.value_or [] err1) in
  let err3 := looked2.1 in
  let c2 := looked2.2 in
  postgres.is_Err err1 = true ∨ postgres.is_Err err2 = true ∨
  postgres.is_Err err3 = true ∨
  internal.SpSchema c2 !! postgres.value_or "" err2 = None ∨
  internal.SrcSchema c2 !! srcTable = None.

(** C5 (amended): a table whose query fails is passed over: the loop
    does not panic, the sink is as before, and the model differs from the
    one before the table in exactly this: the report [Couldn't get data for
    table: ] followed by the error is counted once more; the bad-row
    counters are as they were.  A table whose Spanner name, column mapping or
    schemas cannot be resolved is passed over with all of its rows counted
    as bad: the loop does not panic, the sink is as before, and the model
    differs from the one that the two lookups leave in exactly this: the
    bad-row counter of the table has grown by the table's row count, and the
    report [Can't get cols and schemas for table ...] is counted once more;
    no row of the table is converted, sampled or written.  When the lookups
    write nothing but the two maps of names, this is the model before the
    table with these two changes and the maps of the lookups.  In both cases
    the tables that follow are processed from that state. *)
Theorem table_failure_is_reported_and_skipped (db : postgres.DB)
    (t : postgres.schemaAndName) (tables : list postgres.schemaAndName)
    (st : postgres.state) :
  let c := postgres.conv st in
  let srcTable := postgres.buildTableName (postgres.schema t) (postgres.name t) in
  (∀ err, postgres.Query db (postgres.selectAll t) = postgres.Err err →
     let msg := "Couldn't get data for table: " +:+ err in
     let st1 :=
       postgres.mkState
         (internal.mkConv (internal.SpSchema c) (internal.SyntheticPKeys c)
            (internal.SrcSchema c) (internal.Issues c) (internal.ToSpanner c)
            (internal.ToSource c)
            (internal.mkStats (internal.Rows (internal.Stats c))
               (internal.BadRows (internal.Stats c))
               (<[msg := index 0 (internal.UnexpectedCount (internal.Stats c)) msg
                         + 1]>
                  (internal.UnexpectedCount (internal.Stats c))))
            (internal.sampleBadRows c) (internal.dataMode c) (internal.Location c))
         (postgres.sink st) in
     processTables db [t] st = Some st1 ∧
     processTables db (t :: tables) st = processTables db tables st1) ∧
  (∀ rows, postgres.Query db (postgres.selectAll t) = postgres.Ok rows →
     resolution_fails rows c srcTable →
     let err1 := postgres.Columns rows in
     let looked1 := postgres.GetSpannerTable c srcTable in
     let err2 := looked1.1 in
     let looked2 :=
       postgres.GetSpannerCols looked1.2 srcTable (postgres.value_or [] err1) in
     let err3 := looked2.1 in
     let c2 := looked2.2 in
     let ok1 := internal.SpSchema c2 !! postgres.value_or "" err2 in
     let ok2 := internal.SrcSchema c2 !! srcTable in
     let msg :=
       "Can't get cols and schemas for table " +:+ srcTable +:+
       ": err1=" +:+ postgres.errText err1 +:+
       ", err2=" +:+ postgres.errText err2 +:+
       ", err3=" +:+ postgres.errText err3 +:+
       ", ok1=" +:+ postgres.FormatBool (bool_decide (is_Some ok1)) +:+
       ", ok2=" +:+ postgres.FormatBool (bool_decide (is_Some ok2)) in
     let bad (c : internal.Conv) :=
       <[srcTable :=
           wrap64 (index 0 (internal.BadRows (internal.Stats c)) srcTable +
                   index 0 (internal.Rows (internal.Stats c)) srcTable)]>
         (internal.BadRows (internal.Stats c)) in
     let reports (c : internal.Conv) :=
       <[msg := index 0 (internal.UnexpectedCount (internal.Stats c)) msg + 1]>
         (internal.UnexpectedCount (internal.Stats c)) in
     let st1 :=
       postgres.mkState
         (internal.mkConv (internal.SpSchema c2) (internal.SyntheticPKeys c2)
            (internal.SrcSchema c2) (internal.Issues c2) (internal.ToSpanner c2)
            (internal.ToSource c2)
            (internal.mkStats (internal.Rows (internal.Stats c2)) (bad c2)
               (reports c2))
            (internal.sampleBadRows c2) (internal.dataMode c2)
            (internal.Location c2))
         (postgres.sink st) in
     processTables db [t] st = Some st1 ∧
     processTables db (t :: tables) st = processTables db tables st1 ∧
     (lookup_frame c c2 →
      postgres.conv st1
      = internal.mkConv (internal.SpSchema c) (internal.SyntheticPKeys c)
          (internal.SrcSchema c) (internal.Issues c) (internal.ToSpanner c2)
          (internal.ToSource c2)
          (internal.mkStats (internal.Rows (internal.Stats c)) (bad c) (reports c))
          (internal.sampleBadRows c) (internal.dataMode c) (internal.Location c))).
Proof.
  intros c srcTable. split.
  - intros err Hq msg st1.
    assert (Hstep : processTable db t st = Some st1).
    { unfold postgres.processTable. by rewrite Hq. }
    cbn [postgres.processTables]. by rewrite Hstep.
  - intros rows Hq Hfail err1 looked1 err2 looked2 err3 c2 ok1 ok2 msg bad
      reports st1.
    assert (Hstep : processTable db t st = Some st1).
    { unfold postgres.processTable. rewrite Hq. cbv zeta.
      fold srcTable c err1 looked1 err2 looked2 err3 c2 ok1 ok2.
      unfold resolution_fails in Hfail. cbv zeta in Hfail.
      fold err1 looked1 err2 looked2 err3 c2 ok1 ok2 in Hfail.
      unfold st1, msg.
      destruct ok1 as [spSchema|]; [| done].
      destruct ok2 as [srcSchema|]; [| done].
      assert (postgres.is_Err err1 || postgres.is_Err err2 || postgres.is_Err err3
              = true) as ->.
      { destruct Hfail as [-> | [-> | [-> | [? | ?]]]]; try done;
          by rewrite ?orb_true_r. }
      done. }
    cbn [postgres.processTables]. rewrite Hstep. cbn [mbind option_bind].
    split_and!; [done | done |].
    intros (HSp & HK & HS & HI & HSt & Hsm & Hd & Hl)%lookup_frame_fields.
    unfold st1, bad, reports. cbn [postgres.conv].
    by rewrite HSp, HK, HS, HI, HSt, Hsm, Hd, Hl.
Qed.

End ProcessTables.

(** ** A sample run of the data path *)

Fixpoint parse_digits (s : string) (acc : Z) : option Z :=
  match s with
  | EmptyString => Some acc
  | String ch s' =>
      let n := Z.of_nat (Ascii.nat_of_ascii ch) in
      if bool_decide (48 ≤ n ≤ 57) then parse_digits s' (10 * acc + (n - 48))
      else None
  end.

Definition parse_int (s : string) : postgres.result Z :=
  match s with
  | EmptyString => postgres.Err "invalid syntax"
  | _ =>
      match parse_digits s 0 with
      | Some z => postgres.Ok z
      | None => postgres.Err "invalid syntax"
      end
  end.

Fixpoint lookup_all (m : gmap string string) (cols : list string) :
    postgres.result (list string) :=
  match cols with
  | [] => postgres.Ok []
  | c :: cols' =>
      match m !! c, lookup_all m cols' with
      | Some x, postgres.Ok xs => postgres.Ok (x :: xs)
      | None, _ => postgres.Err ("no Spanner column for " +:+ c)
      | _, postgres.Err e => postgres.Err e
      end
  end.

(** A runtime for the examples: numbers stand for floats, strings for
    times, dates and arrays; the lookups read [ToSpanner] and write
    nothing; the sample of bad rows holds up to 100 rows. *)
Definition sample_runtime : postgres.Runtime :=
  {| postgres.float64 := Z;
     postgres.Time := string;
     postgres.CivilDate := string;
     postgres.ArrayValue := string;
     postgres.convBool s :=
       if String_eqb s "true" then postgres.Ok true
       else if String_eqb s "false" then postgres.Ok false
       else postgres.Err "invalid syntax";
     postgres.convDate s := postgres.Ok s;
     postgres.convInt64 := parse_int;
     postgres.convFloat64 := parse_int;
     postgres.convTimestamp _ _ s := postgres.Ok s;
     postgres.convArray _ _ _ s := postgres.Ok s;
     postgres.DateOf t := t;
     postgres.int64_of_float f := f;
     postgres.float_of_int64 n := n;
     postgres.FormatInt n := if bool_decide (n = 1) then "1" else "n";
     postgres.FormatFloat f := "f";
     postgres.Time_String t := t;
     postgres.GetSpannerTable c t :=
       (match internal.ToSpanner c !! t with
        | Some nc => postgres.Ok (internal.Name nc)
        | None => postgres.Err ("no Spanner table for " +:+ t)
        end, c);
     postgres.GetSpannerCols c t cols :=
       (lookup_all (internal.colsOf (internal.ToSpanner c) t) cols, c);
     postgres.sampleHasRoom rows _ := bool_decide (length rows < 100)%nat |}.

Definition sample_sprint (v : @postgres.sqlval sample_runtime) : string :=
  match v with
  | postgres.SqlString s => s
  | postgres.SqlBytes s => s
  | postgres.SqlBool b => postgres.FormatBool b
  | postgres.SqlInt64 n => @postgres.FormatInt sample_runtime n
  | _ => "?"
  end.

(** The table [sales.events] has no primary key: its Spanner table
    [events] has the synthetic key [synth_id].  The statistics know the rows
    of a table [sales.audit] for which there is no schema. *)
Definition events_src : schema.Table :=
  schema.mkTable "sales.events" ["msg"; "n"]
    {[ "msg" := schema.mkColumn "msg" (schema.mkType "text" [] []) false false
                  (schema.mkIgnored false false false false);
       "n" := schema.mkColumn "n" (schema.mkType "int8" [] []) false false
                (schema.mkIgnored false false false false) ]}
    [].

Definition events_sp : ddl.CreateTable :=
  ddl.mkCreateTable "events" ["msg"; "n"; "synth_id"]
    (Some {[ "msg" := ddl.mkColumnDef "msg"
                        (ddl.mkType ddl.String ddl.MaxLength false) false "";
             "n" := ddl.mkColumnDef "n" (ddl.mkType ddl.Int64 0 false) false "";
             "synth_id" := ddl.mkColumnDef "synth_id"
                             (ddl.mkType ddl.Int64 0 false) false "" ]})
    [ddl.mkIndexKey "synth_id" false] [] "".

Definition events_conv : internal.Conv :=
  internal.mkConv
    {[ "events" := events_sp ]}
    {[ "events" := internal.mkSyntheticPKey "synth_id" 0 ]}
    {[ "sales.events" := events_src ]} ∅
    {[ "sales.events" :=
         internal.mkNameAndCols "events" {[ "msg" := "msg"; "n" := "n" ]} ]}
    {[ "events" :=
         internal.mkNameAndCols "sales.events" {[ "msg" := "msg"; "n" := "n" ]} ]}
    (internal.mkStats {[ "sales.events" := 4; "sales.audit" := 5 ]} ∅ ∅)
    [] true "UTC".

Definition events_rows :
    list (postgres.result (list (@postgres.sqlval sample_runtime))) :=
  [ postgres.Ok [postgres.SqlString "a"; postgres.SqlInt64 1];
    postgres.Ok [postgres.SqlNil; postgres.SqlString "x1"];
    postgres.Ok [postgres.SqlString "b"; postgres.SqlNil];
    postgres.Err "scan failed" ].

Definition sample_db : @postgres.DB sample_runtime :=
  postgres.mkDB
    (postgres.Ok [("pg_catalog", "pg_class"); ("sales", "audit");
                  ("sales", "events")])
    (λ q, postgres.Ok (postgres.mkRows (postgres.Ok ["msg"; "n"]) events_rows)).

Definition events_state : @postgres.state sample_runtime :=
  postgres.mkState events_conv [].

(** The run over the sample database: the table without schema has all
    its five rows counted as bad, and the four rows of [sales.events] give
    two written rows, with the keys 0 and 1 bit-reversed, and two bad rows,
    one of them sampled. *)
Definition sample_result : option (@postgres.state sample_runtime) :=
  @postgres.ProcessSQLData sample_runtime sample_sprint sample_db events_state.

Example sample_run :
  (λ st, index 0 (internal.BadRows (internal.Stats (postgres.conv st)))
           "sales.audit") <$> sample_result = Some 5 ∧
  (λ st, index 0 (internal.BadRows (internal.Stats (postgres.conv st)))
           "sales.events") <$> sample_result = Some 2 ∧
  postgres.sink <$> sample_result
    = Some [ postgres.mkWritten "sales.events" "events" ["msg"; "n"; "synth_id"]
               [postgres.SpString "a"; postgres.SpInt64 1; postgres.SpInt64 0];
             postgres.mkWritten "sales.events" "events" ["msg"; "synth_id"]
               [postgres.SpString "b"; postgres.SpInt64 (- 2 ^ 63)] ] ∧
  (λ st, internal.sampleBadRows (postgres.conv st)) <$> sample_result
    = Some [internal.mkRow "sales.events" ["msg"; "n"] ["NULL"; "x1"]] ∧
  (λ st, internal.SyntheticPKeys (postgres.conv st) !! "events") <$> sample_result
    = Some (Some (internal.mkSyntheticPKey "synth_id" 2)).
Proof. split_and!; reflexivity. Qed.

(** C5, counterexample: the table [sales.audit] has no source schema in
    the model; its bad-row counter, 0 before the run, is 5, the number of
    its rows, after it. *)
Lemma unresolved_table_counts_all_rows_bad :
  resolution_fails (postgres.mkRows (postgres.Ok ["msg"; "n"]) events_rows)
    events_conv "sales.audit" ∧
  index 0 (internal.BadRows (internal.Stats events_conv)) "sales.audit" = 0 ∧
  (λ st, index 0 (internal.BadRows (internal.Stats (postgres.conv st)))
           "sales.audit") <$> sample_result = Some 5.
Proof.
  split_and!; [| reflexivity ..].
  unfold resolution_fails. do 4 right. reflexivity.
Qed.

Lemma null_cells_are_omitted_witness :
  ∃ cs vs err conv',
    @postgres.ConvertSQLRow sample_runtime events_conv "sales.events"
      ["msg"; "n"] events_src "events" ["msg"; "n"] events_sp
      [postgres.SqlString "b"; postgres.SqlNil] = Some (cs, vs, err, conv') ∧
    length cs = length vs.
Proof.
  destruct (@null_cells_are_omitted sample_runtime events_conv "sales.events"
              ["msg"; "n"] events_src "events" ["msg"; "n"] events_sp
              [postgres.SqlString "b"; postgres.SqlNil] eq_refl eq_refl)
    as (cs & vs & err & conv' & Hrun & Hlen & _).
  exists cs, vs, err, conv'. split; [exact Hrun | exact Hlen].
Defined.

Lemma failed_row_is_counted_and_skipped_witness :
  Exists (cell_fails events_conv events_src events_sp)
    (cells ["msg"; "n"] ["msg"; "n"]
       [postgres.SqlNil; @postgres.SqlString sample_runtime "x1"]) ∧
  ∃ st1,
    @postgres.processRows sample_runtime sample_sprint "sales.events"
      ["msg"; "n"] events_src "events" ["msg"; "n"] events_sp
      [postgres.Ok [postgres.SqlNil; postgres.SqlString "x1"]] events_state
    = Some st1 ∧
    postgres.sink st1 = [] ∧
    index 0 (internal.BadRows (internal.Stats (postgres.conv st1))) "sales.events"
    = 1 ∧
    internal.sampleBadRows (postgres.conv st1)
    = [internal.mkRow "sales.events" ["msg"; "n"] ["NULL"; "x1"]] ∧
    internal.SyntheticPKeys (postgres.conv st1)
    = internal.SyntheticPKeys events_conv.
Proof.
  assert (Hfails :
    Exists (cell_fails events_conv events_src events_sp)
      (cells ["msg"; "n"] ["msg"; "n"]
         [postgres.SqlNil; @postgres.SqlString sample_runtime "x1"])).
  { apply Exists_cons_tl, Exists_cons_hd. right. split; [reflexivity |].
    eexists. reflexivity. }
  split; [exact Hfails |].
  destruct (@failed_row_is_counted_and_skipped sample_runtime sample_sprint
              "sales.events" ["msg"; "n"] events_src "events" ["msg"; "n"]
              events_sp [postgres.SqlNil; postgres.SqlString "x1"] [] events_state
              eq_refl eq_refl)
    as [_ Hrow].
  destruct (Hrow Hfails) as (err & _ & Hrest). cbv zeta in Hrest.
  destruct Hrest as [Hone _].
  eexists. split; [exact Hone |]. split_and!; reflexivity.
Defined.

Lemma synthetic_keys_count_up_witness :
  ∃ st',
    @postgres.processRows sample_runtime sample_sprint "sales.events"
      ["msg"; "n"] events_src "events" ["msg"; "n"] events_sp events_rows
      events_state = Some st' ∧
    postgres.sink st'
    = [ postgres.mkWritten "sales.events" "events" ["msg"; "n"; "synth_id"]
          [postgres.SpString "a"; postgres.SpInt64 1; postgres.SpInt64 0];
        postgres.mkWritten "sales.events" "events" ["msg"; "synth_id"]
          [postgres.SpString "b"; postgres.SpInt64 (- 2 ^ 63)] ] ∧
    internal.SyntheticPKeys (postgres.conv st') !! "events"
    = Some (internal.mkSyntheticPKey "synth_id" 2).
Proof.
  destruct (@synthetic_keys_count_up sample_runtime sample_sprint "sales.events"
              ["msg"; "n"] events_src "events" ["msg"; "n"] events_sp events_rows
              events_state (internal.mkSyntheticPKey "synth_id" 0))
    as (_ & _ & st' & new & Hrun & _).
  - reflexivity.
  - repeat constructor.
  - reflexivity.
  - done.
  - exists st'. split; [exact Hrun |].
    assert (Hc :
      (λ st, (postgres.sink st,
              internal.SyntheticPKeys (postgres.conv st) !! "events")) <$>
      @postgres.processRows sample_runtime sample_sprint "sales.events"
        ["msg"; "n"] events_src "events" ["msg"; "n"] events_sp events_rows
        events_state
      = Some ([ postgres.mkWritten "sales.events" "events" ["msg"; "n"; "synth_id"]
                  [postgres.SpString "a"; postgres.SpInt64 1; postgres.SpInt64 0];
                postgres.mkWritten "sales.events" "events" ["msg"; "synth_id"]
                  [postgres.SpString "b"; postgres.SpInt64 (- 2 ^ 63)] ],
              Some (internal.mkSyntheticPKey "synth_id" 2))) by reflexivity.
    rewrite Hrun in Hc. cbn [fmap option_fmap option_map] in Hc.
    injection Hc as Hsink Hkey. by rewrite Hsink, Hkey.
Defined.

(** * Further properties of the data path *)

Section ScalarConversion.

Context `{postgres.Runtime}.

(** The pairs of a Spanner type name and a kind of value for which
    [cvtSQLScalar] has a case. *)
Definition has_case (ty : string) (val : postgres.sqlval) : bool :=
  match val with
  | postgres.SqlNil | postgres.SqlOther _ => false
  | postgres.SqlBool _ =>
      bool_decide (ty ∈ [ddl.Bool; ddl.String])
  | postgres.SqlBytes _ =>
      bool_decide (ty ∈ [ddl.Bytes; ddl.Int64; ddl.Float64; ddl.String])
  | postgres.SqlInt64 _ | postgres.SqlFloat64 _ =>
      bool_decide (ty ∈ [ddl.Int64; ddl.Float64; ddl.String])
  | postgres.SqlString _ =>
      bool_decide (ty ∈ [ddl.Bool; ddl.Date; ddl.Int64; ddl.Float64; ddl.String;
                         ddl.Timestamp])
  | postgres.SqlTime _ =>
      bool_decide (ty ∈ [ddl.Date; ddl.String; ddl.Timestamp])
  end.

(** The cases of [cvtSQLScalar] that call no parser. *)
Definition converts_directly (ty : string) (val : postgres.sqlval) : bool :=
  match val with
  | postgres.SqlNil | postgres.SqlOther _ => false
  | postgres.SqlBool _ => bool_decide (ty ∈ [ddl.Bool; ddl.String])
  | postgres.SqlBytes _ => bool_decide (ty ∈ [ddl.Bytes; ddl.String])
  | postgres.SqlInt64 _ | postgres.SqlFloat64 _ =>
      bool_decide (ty ∈ [ddl.Int64; ddl.Float64; ddl.String])
  | postgres.SqlString _ => bool_decide (ty = ddl.String)
  | postgres.SqlTime _ =>
      bool_decide (ty ∈ [ddl.Date; ddl.String; ddl.Timestamp])
  end.

Definition is_Ok {A} (r : postgres.result A) : bool :=
  match r with postgres.Ok _ => true | postgres.Err _ => false end.

(** The type names that head a case of the outer switch. *)
Definition switch_names : list string :=
  [ddl.Bool; ddl.Bytes; ddl.Date; ddl.Int64; ddl.Float64; ddl.String;
   ddl.Timestamp].

Lemma cvtSQLScalar_other_type conv srcCd spCd val :
  ddl.Name (ddl.T spCd) ∉ switch_names →
  is_Ok (postgres.cvtSQLScalar conv srcCd spCd val) = false.
Proof.
  intros Hty. unfold postgres.cvtSQLScalar, String_eqb.
  cbv zeta.
  repeat (case_bool_decide as Hn; [exfalso; apply Hty; rewrite Hn;
                                   unfold switch_names; set_solver | clear Hn]).
  done.
Qed.

Lemma has_case_switch_name ty val : has_case ty val = true → ty ∈ switch_names.
Proof.
  unfold switch_names.
  destruct val; simpl; try done; intros Hc%bool_decide_eq_true; set_solver.
Qed.

Lemma cvtSQLScalar_no_case conv srcCd spCd val :
  has_case (ddl.Name (ddl.T spCd)) val = false →
  is_Ok (postgres.cvtSQLScalar conv srcCd spCd val) = false.
Proof.
  set (ty := ddl.Name (ddl.T spCd)). intros Hcase.
  destruct (decide (ty ∈ switch_names)) as [Hin | Hout];
    [| by apply cvtSQLScalar_other_type].
  unfold switch_names in Hin. unfold postgres.cvtSQLScalar. fold ty.
  repeat (apply elem_of_cons in Hin as [-> | Hin]);
    [.. | by apply elem_of_nil in Hin];
    destruct val; simpl in *; try done;
    apply bool_decide_eq_false in Hcase; exfalso; apply Hcase; set_solver.
Qed.

Lemma cvtSQLScalar_direct conv srcCd spCd val :
  converts_directly (ddl.Name (ddl.T spCd)) val = true →
  is_Ok (postgres.cvtSQLScalar conv srcCd spCd val) = true.
Proof.
  set (ty := ddl.Name (ddl.T spCd)). intros Hd.
  unfold postgres.cvtSQLScalar. fold ty.
  destruct val; simpl in Hd; try done; apply bool_decide_eq_true in Hd;
    repeat (apply elem_of_cons in Hd as [-> | Hd]);
    try (by apply elem_of_nil in Hd); try (rewrite Hd); done.
Qed.

(** X1: [cvtSQLScalar] succeeds only for a pair of Spanner type and value
    kind that has a case in its switches: a value of any other kind, a NULL,
    and every value for a type outside BOOL, BYTES, DATE, INT64, FLOAT64,
    STRING and TIMESTAMP (NUMERIC among them) is an error; and it always
    succeeds on the cases that call no parser. *)
Theorem cvtSQLScalar_cases (conv : internal.Conv) (srcCd : schema.Column)
    (spCd : ddl.ColumnDef) (val : postgres.sqlval) :
  let ty := ddl.Name (ddl.T spCd) in
  (has_case ty val = false →
   is_Ok (postgres.cvtSQLScalar conv srcCd spCd val) = false) ∧
  (converts_directly ty val = true →
   is_Ok (postgres.cvtSQLScalar conv srcCd spCd val) = true) ∧
  (ty = ddl.Numeric →
   is_Ok (postgres.cvtSQLScalar conv srcCd spCd val) = false).
Proof.
  intros ty. split_and!.
  - apply cvtSQLScalar_no_case.
  - apply cvtSQLScalar_direct.
  - intros Hnum. apply cvtSQLScalar_other_type. fold ty. rewrite Hnum.
    unfold switch_names. set_solver.
Qed.

End ScalarConversion.

(** ** Rows that cannot convert, rows of NULLs *)

Section RowEdges.

Context `{postgres.Runtime}.

(** The value has no conversion to the column: an array column takes
    only a [[]byte] value, a scalar column the values with a case in
    [cvtSQLScalar]. *)
Definition no_conversion (spCd : ddl.ColumnDef) (val : postgres.sqlval) : bool :=
  if ddl.IsArray (ddl.T spCd)
  then match val with postgres.SqlBytes _ => false | _ => true end
  else negb (has_case (ddl.Name (ddl.T spCd)) val).

Lemma cells_lookup (srcCols spCols : list string) (srcVals : list postgres.sqlval)
    i c spc v :
  srcCols !! i = Some c → spCols !! i = Some spc → srcVals !! i = Some v →
  (c, (spc, v)) ∈ cells srcCols spCols srcVals.
Proof.
  intros Hc Hspc Hv. apply list_elem_of_lookup. exists i. unfold cells.
  apply lookup_zip_with_Some. exists c, (spc, v). split_and!; [done | done |].
  apply lookup_zip_with_Some. by exists spc, v.
Qed.

(** X2: a row with as many Spanner columns and values as source columns
    that holds, at some position, a value that is not NULL and has no
    conversion to the Spanner column there (any value for a scalar NUMERIC
    column, a value that is not [[]byte] for an array column, ...) is
    always a failed row: [ConvertSQLRow] returns an error, no column, no
    value and the model as it was. *)
Theorem row_without_conversion_fails (conv : internal.Conv) (srcTable : string)
    (srcCols : list string) (srcSchema : schema.Table) (spTable : string)
    (spCols : list string) (spSchema : ddl.CreateTable)
    (srcVals : list postgres.sqlval) (i : nat) (c spc : string)
    (v : postgres.sqlval) (spCd : ddl.ColumnDef) :
  length spCols = length srcCols → length srcVals = length srcCols →
  srcCols !! i = Some c → spCols !! i = Some spc → srcVals !! i = Some v →
  postgres.is_nil v = false →
  ddl.ColDefs spSchema ≫= (.!! spc) = Some spCd →
  no_conversion spCd v = true →
  ∃ err,
    postgres.ConvertSQLRow conv srcTable srcCols srcSchema spTable spCols
      spSchema srcVals = Some ([], [], Some err, conv).
Proof.
  intros Hsp Hvals Hc Hspc Hv Hnil Hcd Hno.
  destruct (ConvertSQLRow_spec conv srcTable srcCols srcSchema spTable spCols
              spSchema srcVals Hsp Hvals)
    as [(_ & err & Hrun) | (Hok & _)]; [by exists err |].
  exfalso. apply Hok. apply Exists_exists. exists (c, (spc, v)).
  split; [by eapply cells_lookup |].
  unfold cell_fails, convertCell, non_null. cbn [fst snd].
  destruct (schema.ColDefs srcSchema !! c) as [srcCd|];
    cbn [mbind option_bind]; [| by left].
  right. rewrite Hcd, Hnil. cbn [mbind option_bind negb]. split; [done |].
  unfold no_conversion in Hno. destruct (ddl.IsArray (ddl.T spCd)).
  - unfold postgres.cvtSQLArray. destruct v; try done; eauto.
  - apply negb_true_iff in Hno.
    pose proof (cvtSQLScalar_no_case conv srcCd spCd v Hno) as Hfail.
    destruct (postgres.cvtSQLScalar conv srcCd spCd v); [done | eauto].
Qed.

(** X3: on a row whose values are all NULL, and whose columns all have
    their source and Spanner definitions, [ConvertSQLRow] converts nothing
    and succeeds: it returns just the synthetic key column and value if the
    table has a synthetic key, and no column at all otherwise; a column
    without its definitions still makes the row fail, NULL or not. *)
Theorem null_row_keeps_only_the_key (conv : internal.Conv) (srcTable : string)
    (srcCols : list string) (srcSchema : schema.Table) (spTable : string)
    (spCols : list string) (spSchema : ddl.CreateTable)
    (srcVals : list postgres.sqlval) :
  length spCols = length srcCols → length srcVals = length srcCols →
  Forall (λ v, postgres.is_nil v = true) srcVals →
  let l := cells srcCols spCols srcVals in
  (Forall (λ cell, is_Some (convertCell conv srcSchema spSchema cell)) l →
   postgres.ConvertSQLRow conv srcTable srcCols srcSchema spTable spCols
     spSchema srcVals
   = Some (synthetic_col conv spTable, synthetic_val conv spTable, None,
           sequence_advanced conv spTable)) ∧
  (Exists (λ cell, convertCell conv srcSchema spSchema cell = None) l →
   ∃ err,
     postgres.ConvertSQLRow conv srcTable srcCols srcSchema spTable spCols
       spSchema srcVals = Some ([], [], Some err, conv)).
Proof.
  intros Hsp Hvals Hnil l.
  assert (Hnull : Forall (λ cell, non_null cell = false) l).
  { apply Forall_forall. intros cell Hcell.
    apply list_elem_of_lookup in Hcell as [j Hj]. unfold l, cells in Hj.
    apply lookup_zip_with_Some in Hj as (c & sv & -> & _ & Hsv).
    apply lookup_zip_with_Some in Hsv as (spc & v & -> & _ & Hv).
    unfold non_null. cbn [snd].
    rewrite Forall_forall in Hnil.
    rewrite (Hnil v); [done |]. apply list_elem_of_lookup. eauto. }
  assert (Hkept : filter (λ cell, non_null cell = true) l = []).
  { clear -Hnull. induction Hnull as [|cell l' Hc _ IH]; [done |].
    rewrite filter_cons_False; [done | by rewrite Hc]. }
  destruct (ConvertSQLRow_spec conv srcTable srcCols srcSchema spTable spCols
              spSchema srcVals Hsp Hvals)
    as [(Hf & err & Hrun) | (Hok & vs1 & Hall & Hrun)]; fold l in Hf || fold l in Hok.
  - split; [| by exists err]. intros Hdefs. exfalso.
    apply Exists_exists in Hf as (cell & Hin & Hfail).
    rewrite Forall_forall in Hdefs, Hnull.
    destruct Hfail as [Hnone | (Hnn & _)].
    + destruct (Hdefs cell Hin) as [r Hr]. congruence.
    + rewrite (Hnull cell Hin) in Hnn. done.
  - fold l in Hall, Hrun. rewrite Hkept in Hall, Hrun.
    apply Forall2_nil_inv_l in Hall as ->. split; [by intros _ |].
    intros Hmiss. exfalso. apply Hok.
    apply Exists_exists in Hmiss as (cell & Hin & Hnone).
    apply Exists_exists. exists cell. split; [done | by left].
Qed.

End RowEdges.

(** ** What a run of the data path leaves alone, and what it counts *)

(** The part of the model that the data path does not write: the
    schemas, the issues, the correspondence maps, the mode, the location,
    the row counts and, of each synthetic key, its column. *)
Definition data_frame (c c' : internal.Conv) : Prop :=
  internal.SpSchema c' = internal.SpSchema c ∧
  internal.SrcSchema c' = internal.SrcSchema c ∧
  internal.Issues c' = internal.Issues c ∧
  internal.ToSpanner c' = internal.ToSpanner c ∧
  internal.ToSource c' = internal.ToSource c ∧
  internal.dataMode c' = internal.dataMode c ∧
  internal.Location c' = internal.Location c ∧
  internal.Rows (internal.Stats c') = internal.Rows (internal.Stats c) ∧
  ∀ t, internal.Col <$> internal.SyntheticPKeys c' !! t
       = internal.Col <$> internal.SyntheticPKeys c !! t.

(** From [c] to [c'] the bad-row counter of [srcTable] has grown by [n]
    in data mode, and by nothing otherwise; the other counters are as they
    were. *)
Definition counted (srcTable : string) (n : Z) (c c' : internal.Conv) : Prop :=
  (∀ t, t ≠ srcTable →
     internal.BadRows (internal.Stats c') !! t
     = internal.BadRows (internal.Stats c) !! t) ∧
  index 0 (internal.BadRows (internal.Stats c')) srcTable
  = index 0 (internal.BadRows (internal.Stats c)) srcTable +
    (if internal.dataMode c then n else 0).

Lemma data_frame_refl c : data_frame c c.
Proof. by repeat split. Qed.

Lemma data_frame_trans c1 c2 c3 :
  data_frame c1 c2 → data_frame c2 c3 → data_frame c1 c3.
Proof.
  intros (?&?&?&?&?&?&?&?&Hk1) (?&?&?&?&?&?&?&?&Hk2).
  split_and!; first [congruence | intros t; by rewrite Hk2, Hk1].
Qed.

Lemma counted_refl srcTable c : counted srcTable 0 c c.
Proof. split; [done |]. destruct (internal.dataMode c); lia. Qed.

Lemma counted_trans srcTable n m c1 c2 c3 :
  internal.dataMode c2 = internal.dataMode c1 →
  counted srcTable n c1 c2 → counted srcTable m c2 c3 →
  counted srcTable (n + m) c1 c3.
Proof.
  intros Hmode [Ho1 Hn] [Ho2 Hm]. split.
  - intros t Ht. by rewrite Ho2, Ho1.
  - rewrite Hm, Hn, Hmode. destruct (internal.dataMode c1); lia.
Qed.

Lemma Unexpected_frame msg c :
  data_frame c (internal.Unexpected msg c) ∧
  internal.BadRows (internal.Stats (internal.Unexpected msg c))
  = internal.BadRows (internal.Stats c) ∧
  internal.SyntheticPKeys (internal.Unexpected msg c) = internal.SyntheticPKeys c.
Proof. by repeat split. Qed.

Lemma StatsAddBadRow_frame srcTable c :
  let c' := internal.StatsAddBadRow srcTable (internal.DataMode c) c in
  data_frame c c' ∧ counted srcTable 1 c c'.
Proof.
  unfold internal.StatsAddBadRow, internal.DataMode, counted.
  destruct (internal.dataMode c) eqn:Hmode; cbn.
  - split_and!; try done.
    + intros t Ht. by rewrite lookup_insert_ne.
    + unfold index at 1. by rewrite lookup_insert_eq.
  - split; [apply data_frame_refl |]. split; [done | lia].
Qed.

Lemma CollectBadRow_frame hasRoom srcTable srcCols vals c :
  let c' := internal.CollectBadRow hasRoom srcTable srcCols vals c in
  data_frame c c' ∧ internal.Stats c' = internal.Stats c.
Proof. unfold internal.CollectBadRow. by destruct (hasRoom _ _). Qed.

Section DataFrame.

Context `{postgres.Runtime}.
Variable Sprint : postgres.sqlval → string.

(** The model after a row that did not reach the sink. *)
Lemma scan_failure_frame srcTable msg c :
  let c1 := internal.Unexpected msg c in
  let c' := internal.StatsAddBadRow srcTable (internal.DataMode c1) c1 in
  data_frame c c' ∧ counted srcTable 1 c c'.
Proof.
  intros c1 c'.
  destruct (Unexpected_frame msg c) as (Hf & Hb & _).
  destruct (StatsAddBadRow_frame srcTable c1) as [Hf' Hc]. fold c' in Hf', Hc.
  split; [by eapply data_frame_trans |].
  destruct Hc as [Ho Hn]. split.
  - intros t Ht. rewrite (Ho t Ht). unfold c1. by rewrite Hb.
  - rewrite Hn. unfold c1 at 1. by rewrite Hb.
Qed.

Lemma bad_row_frame srcTable srcCols v msg c :
  let c' := bad_row_recorded Sprint srcTable srcCols v msg c in
  data_frame c c' ∧ counted srcTable 1 c c'.
Proof.
  intros c'. unfold c', bad_row_recorded.
  destruct (scan_failure_frame srcTable msg c) as [Hf Hc].
  destruct (CollectBadRow_frame postgres.sampleHasRoom srcTable srcCols
              (postgres.valsToStrings Sprint v)
              (internal.StatsAddBadRow srcTable
                 (internal.DataMode (internal.Unexpected msg c))
                 (internal.Unexpected msg c))) as [Hf' Hs].
  split; [by eapply data_frame_trans |].
  destruct Hc as [Ho Hn]. split.
  - intros t Ht. rewrite <- (Ho t Ht). by rewrite Hs.
  - rewrite <- Hn. by rewrite Hs.
Qed.

Lemma sequence_advanced_frame c spTable :
  data_frame c (sequence_advanced c spTable) ∧
  internal.Stats (sequence_advanced c spTable) = internal.Stats c.
Proof.
  unfold sequence_advanced.
  destruct (internal.SyntheticPKeys c !! spTable) as [aux|] eqn:Haux;
    [| split; [apply data_frame_refl | done]].
  split; [| done]. split_and!; try done. intros t. cbn.
  destruct (decide (spTable = t)) as [<- | Hne].
  - by rewrite lookup_insert_eq, Haux.
  - by rewrite lookup_insert_ne.
Qed.

(** The model that [ConvertSQLRow] returns. *)
Lemma ConvertSQLRow_model c srcTable srcCols srcSchema spTable spCols spSchema
    srcVals cs vs err c' :
  postgres.ConvertSQLRow c srcTable srcCols srcSchema spTable spCols spSchema
    srcVals = Some (cs, vs, err, c') →
  c' = match err with
       | Some _ => c
       | None => sequence_advanced c spTable
       end.
Proof.
  unfold postgres.ConvertSQLRow, sequence_advanced.
  destruct (postgres.convertColumns _ _ _ _ _ _ _ _ _ _) as [[e | [cs0 vs0]]|];
    cbn [mbind option_bind]; [by intros [= <- <- <- <-] | | done].
  destruct (internal.SyntheticPKeys c !! spTable); by intros [= <- <- <- <-].
Qed.

Local Abbreviation processRows := (postgres.processRows Sprint).

(** What a completed loop over the rows of a table has done. *)
Lemma processRows_run srcTable srcCols srcSchema spTable spCols spSchema rows
    st st' :
  processRows srcTable srcCols srcSchema spTable spCols spSchema rows st
    = Some st' →
  ∃ new,
    postgres.sink st' = postgres.sink st ++ new ∧
    (length new ≤ length rows)%nat ∧
    Forall (λ w, postgres.wSrcTable w = srcTable ∧ postgres.wSpTable w = spTable)
      new ∧
    data_frame (postgres.conv st) (postgres.conv st') ∧
    counted srcTable (Z.of_nat (length rows - length new))
      (postgres.conv st) (postgres.conv st').
Proof.
  revert st. induction rows as [|r rows IH]; intros st Hrun.
  { injection Hrun as <-. exists []. rewrite app_nil_r.
    split_and!; [done | done | done | apply data_frame_refl | apply counted_refl]. }
  cbn [postgres.processRows] in Hrun.
  assert (Hbad : ∀ c1,
    data_frame (postgres.conv st) c1 → counted srcTable 1 (postgres.conv st) c1 →
    processRows srcTable srcCols srcSchema spTable spCols spSchema rows
      (postgres.mkState c1 (postgres.sink st)) = Some st' →
    ∃ new,
      postgres.sink st' = postgres.sink st ++ new ∧
      (length new ≤ length (r :: rows))%nat ∧
      Forall (λ w, postgres.wSrcTable w = srcTable ∧ postgres.wSpTable w = spTable)
        new ∧
      data_frame (postgres.conv st) (postgres.conv st') ∧
      counted srcTable (Z.of_nat (length (r :: rows) - length new))
        (postgres.conv st) (postgres.conv st')).
  { intros c1 Hf Hc Hrest.
    destruct (IH _ Hrest) as (new & Hsink & Hlen & Hall & Hf' & Hc').
    cbn [postgres.conv postgres.sink] in *.
    exists new. split_and!; [done | simpl; lia | done | by eapply data_frame_trans |].
    replace (Z.of_nat (length (r :: rows) - length new))
      with (1 + Z.of_nat (length rows - length new)) by (simpl; lia).
    eapply counted_trans; [| done | done]. apply Hf. }
  destruct r as [v | e].
  - destruct (postgres.ConvertSQLRow _ _ _ _ _ _ _ _)
      as [[[[cs vs] err] c]|] eqn:Hrow; cbn [mbind option_bind] in Hrun; [| done].
    apply ConvertSQLRow_model in Hrow. destruct err as [err|]; subst c.
    + eapply Hbad; [.. | exact Hrun];
        apply (bad_row_frame srcTable srcCols v _ (postgres.conv st)).
    + destruct (IH _ Hrun) as (new & Hsink & Hlen & Hall & Hf' & Hc').
      cbn [postgres.conv postgres.sink postgres.WriteRow] in *.
      destruct (sequence_advanced_frame (postgres.conv st) spTable) as [Hf Hs].
      exists (postgres.mkWritten srcTable spTable cs vs :: new).
      split_and!.
      * by rewrite Hsink, <- app_assoc.
      * simpl. lia.
      * by constructor.
      * by eapply data_frame_trans.
      * replace (length (postgres.Ok v :: rows) -
                 length (postgres.mkWritten srcTable spTable cs vs :: new))%nat
          with (length rows - length new)%nat by (simpl; lia).
        destruct Hc' as [Ho Hn]. rewrite Hs in Ho, Hn. split; [done |].
        rewrite Hn. by rewrite (proj1 (proj2 (proj2 (proj2 (proj2 (proj2 Hf)))))).
  - eapply Hbad; [.. | exact Hrun]; apply scan_failure_frame.
Qed.

(** With as many Spanner columns as source columns and rows scanned in
    full, the loop never panics. *)
Lemma processRows_total srcTable srcCols srcSchema spTable spCols spSchema rows st :
  length spCols = length srcCols →
  Forall (scan_ok srcCols) rows →
  is_Some (processRows srcTable srcCols srcSchema spTable spCols spSchema rows st).
Proof.
  intros Hsp Hall. revert st.
  induction Hall as [|r rows Hr Hall IH]; intros st; [done |].
  destruct r as [v | e]; cbn [postgres.processRows]; [| apply IH].
  simpl in Hr.
  destruct (ConvertSQLRow_spec (postgres.conv st) srcTable srcCols srcSchema
              spTable spCols spSchema v Hsp Hr)
    as [(_ & err & ->) | (_ & vs1 & _ & ->)]; cbn [mbind option_bind]; apply IH.
Qed.

(** X4: with as many Spanner columns as source columns and every row
    scanned in full, the loop over the rows of a table never panics, and
    every row is either written or counted: the rows written (all for this
    source and Spanner table, appended to the sink) and the growth of the
    bad-row counter of the table add up to the number of rows in data mode;
    outside data mode the counter stays.  No other bad-row counter moves.
    The counter is the one modelled for [StatsAddBadRow]. *)
Theorem every_row_is_written_or_counted (srcTable : string)
    (srcCols : list string) (srcSchema : schema.Table) (spTable : string)
    (spCols : list string) (spSchema : ddl.CreateTable)
    (rows : list (postgres.result (list postgres.sqlval))) (st : postgres.state) :
  length spCols = length srcCols →
  Forall (scan_ok srcCols) rows →
  ∃ st' new,
    processRows srcTable srcCols srcSchema spTable spCols spSchema rows st
      = Some st' ∧
    postgres.sink st' = postgres.sink st ++ new ∧
    Forall (λ w, postgres.wSrcTable w = srcTable ∧ postgres.wSpTable w = spTable)
      new ∧
    (∀ t, t ≠ srcTable →
       internal.BadRows (internal.Stats (postgres.conv st')) !! t
       = internal.BadRows (internal.Stats (postgres.conv st)) !! t) ∧
    (if internal.dataMode (postgres.conv st)
     then Z.of_nat (length new) +
          (index 0 (internal.BadRows (internal.Stats (postgres.conv st'))) srcTable -
           index 0 (internal.BadRows (internal.Stats (postgres.conv st))) srcTable)
          = Z.of_nat (length rows)
     else index 0 (internal.BadRows (internal.Stats (postgres.conv st'))) srcTable
          = index 0 (internal.BadRows (internal.Stats (postgres.conv st))) srcTable).
Proof.
  intros Hsp Hall.
  destruct (processRows_total srcTable srcCols srcSchema spTable spCols spSchema
              rows st Hsp Hall) as [st' Hrun].
  destruct (processRows_run _ _ _ _ _ _ _ _ _ Hrun)
    as (new & Hsink & Hlen & Hnew & _ & Ho & Hn).
  exists st', new. split_and!; [done | done | done | done |].
  rewrite Hn. destruct (internal.dataMode (postgres.conv st)); lia.
Qed.

End DataFrame.

Section DataRun.

Context `{postgres.Runtime}.
Variable Sprint : postgres.sqlval → string.

Lemma allRowsBad_frame srcTable c : data_frame c (postgres.allRowsBad srcTable c).
Proof. by repeat split. Qed.

(** The rows of the sink are for the source table [srcTable]. *)
Definition rows_of (srcTable : string) (new : list postgres.written) : Prop :=
  Forall (λ w, postgres.wSrcTable w = srcTable) new.

(** The lookups [GetSpannerTable] and [GetSpannerCols] of package
    [internal] write nothing but the two maps of names. *)
Definition lookups_keep_frame : Prop :=
  (∀ c t, lookup_frame c (postgres.GetSpannerTable c t).2) ∧
  (∀ c t cols, lookup_frame c (postgres.GetSpannerCols c t cols).2).

(** From [c] to [c'] the schemas, the issues, the mode, the location,
    the row counts and the columns of the synthetic keys are unchanged. *)
Definition schema_frame (c c' : internal.Conv) : Prop :=
  internal.SpSchema c' = internal.SpSchema c ∧
  internal.SrcSchema c' = internal.SrcSchema c ∧
  internal.Issues c' = internal.Issues c ∧
  internal.dataMode c' = internal.dataMode c ∧
  internal.Location c' = internal.Location c ∧
  internal.Rows (internal.Stats c') = internal.Rows (internal.Stats c) ∧
  ∀ t, internal.Col <$> internal.SyntheticPKeys c' !! t
       = internal.Col <$> internal.SyntheticPKeys c !! t.

Lemma schema_frame_refl c : schema_frame c c.
Proof. by repeat split. Qed.

Lemma schema_frame_trans c1 c2 c3 :
  schema_frame c1 c2 → schema_frame c2 c3 → schema_frame c1 c3.
Proof.
  intros (?&?&?&?&?&?&Hk1) (?&?&?&?&?&?&Hk2).
  split_and!; first [congruence | intros t; by rewrite Hk2, Hk1].
Qed.

Lemma data_frame_schema c c' : data_frame c c' → schema_frame c c'.
Proof. intros (?&?&?&?&?&?&?&?&?). by split_and!. Qed.

Lemma lookup_frame_schema c c' : lookup_frame c c' → schema_frame c c'.
Proof.
  intros (HSp & HK & HS & HI & HSt & _ & Hd & Hl)%lookup_frame_fields.
  split_and!; try done; [by rewrite HSt | intros t; by rewrite HK].
Qed.

Lemma processTable_run db t st st' :
  lookups_keep_frame →
  postgres.processTable Sprint db t st = Some st' →
  ∃ new,
    postgres.sink st' = postgres.sink st ++ new ∧
    rows_of (postgres.buildTableName (postgres.schema t) (postgres.name t)) new ∧
    schema_frame (postgres.conv st) (postgres.conv st').
Proof.
  intros [Htable Hcols]. unfold postgres.processTable.
  assert (Hskip : ∀ c, schema_frame (postgres.conv st) c →
    Some (postgres.mkState c (postgres.sink st)) = Some st' →
    ∃ new,
      postgres.sink st' = postgres.sink st ++ new ∧
      rows_of (postgres.buildTableName (postgres.schema t) (postgres.name t)) new ∧
      schema_frame (postgres.conv st) (postgres.conv st')).
  { intros c Hf [= <-]. exists []. rewrite app_nil_r.
    split_and!; [done | constructor | done]. }
  destruct (postgres.Query db (postgres.selectAll t)) as [rows | err].
  2: { apply Hskip, data_frame_schema, Unexpected_frame. }
  cbv zeta.
  set (srcTable := postgres.buildTableName (postgres.schema t) (postgres.name t)).
  set (looked1 := postgres.GetSpannerTable (postgres.conv st) srcTable).
  set (looked2 := postgres.GetSpannerCols looked1.2 srcTable _).
  assert (Hlooked : schema_frame (postgres.conv st) looked2.2).
  { eapply schema_frame_trans; apply lookup_frame_schema;
      [apply Htable | apply Hcols]. }
  assert (Hbad : ∀ msg,
    schema_frame (postgres.conv st)
      (internal.Unexpected msg (postgres.allRowsBad srcTable looked2.2))).
  { intros msg. eapply schema_frame_trans; [exact Hlooked |].
    apply data_frame_schema.
    eapply data_frame_trans; [apply allRowsBad_frame |]. apply Unexpected_frame. }
  destruct (internal.SpSchema looked2.2 !! _) as [spSchema|];
    [| apply Hskip, Hbad].
  destruct (internal.SrcSchema looked2.2 !! _) as [srcSchema|];
    [| apply Hskip, Hbad].
  destruct (_ || _); [apply Hskip, Hbad |].
  intros Hrun. apply processRows_run in Hrun as (new & Hsink & _ & Hnew & Hf & _).
  exists new. split_and!; [done | |].
  - eapply Forall_impl; [exact Hnew |]. by intros w [? _].
  - eapply schema_frame_trans; [exact Hlooked |]. by apply data_frame_schema.
Qed.

Lemma processTables_run db tables st st' :
  lookups_keep_frame →
  postgres.processTables Sprint db tables st = Some st' →
  ∃ new,
    postgres.sink st' = postgres.sink st ++ new ∧
    Forall (λ w, ∃ t, t ∈ tables ∧
              postgres.wSrcTable w
              = postgres.buildTableName (postgres.schema t) (postgres.name t))
      new ∧
    schema_frame (postgres.conv st) (postgres.conv st').
Proof.
  intros Hlook. revert st. induction tables as [|t tables IH]; intros st Hrun.
  { injection Hrun as <-. exists []. rewrite app_nil_r.
    split_and!; [done | constructor | apply schema_frame_refl]. }
  cbn [postgres.processTables] in Hrun.
  destruct (postgres.processTable Sprint db t st) as [st1|] eqn:Ht;
    cbn [mbind option_bind] in Hrun; [| done].
  apply (processTable_run _ _ _ _ Hlook) in Ht as (new1 & Hsink1 & Hnew1 & Hf1).
  apply IH in Hrun as (new2 & Hsink2 & Hnew2 & Hf2).
  exists (new1 ++ new2). split_and!.
  - by rewrite Hsink2, Hsink1, app_assoc.
  - apply Forall_app. split.
    + eapply Forall_impl; [exact Hnew1 |]. intros w Hw. exists t.
      split; [by left | done].
    + eapply Forall_impl; [exact Hnew2 |]. intros w (t' & Hin & Hw). exists t'.
      split; [by right | done].
  - by eapply schema_frame_trans.
Qed.

(** X5: when the lookups [GetSpannerTable] and [GetSpannerCols] of
    package [internal] write nothing but the two maps of names, a run of
    [ProcessSQLData] that completes leaves the schemas, the issues, the mode,
    the location, the row counts and the columns of the synthetic keys
    exactly as they were (it writes only the sequences, the bad-row
    counters, the reports and the sample, and the lookups the two maps of
    names), keeps the rows already in the sink and appends to them, and
    every row it appends belongs to a table that the table listing returned
    under a schema that is not one of the ignored ones. *)
Theorem data_run_keeps_the_schema (db : postgres.DB) (st st' : postgres.state) :
  lookups_keep_frame →
  postgres.ProcessSQLData Sprint db st = Some st' →
  schema_frame (postgres.conv st) (postgres.conv st') ∧
  ∃ new,
    postgres.sink st' = postgres.sink st ++ new ∧
    ∀ w, w ∈ new →
      ∃ listed s n,
        postgres.tableRows db = postgres.Ok listed ∧ (s, n) ∈ listed ∧
        (s ∉ postgres.ignored) ∧
        postgres.wSrcTable w = postgres.buildTableName s n.
Proof.
  intros Hlook. unfold postgres.ProcessSQLData, postgres.getTables.
  destruct (postgres.tableRows db) as [listed | err].
  - intros Hrun.
    apply (processTables_run _ _ _ _ Hlook) in Hrun as (new & Hsink & Hnew & Hf).
    split; [done |]. exists new. split; [done |]. intros w Hw.
    rewrite Forall_forall in Hnew. destruct (Hnew w Hw) as (t & Hin & Hsrc).
    apply list_elem_of_fmap in Hin as ([s n] & -> & Hin).
    apply list_elem_of_filter in Hin as [Hign Hin].
    exists listed, s, n. by split_and!.
  - intros [= <-]. split; [apply data_frame_schema, Unexpected_frame |].
    exists []. rewrite app_nil_r. split; [done |]. by intros w ?%elem_of_nil.
Qed.

End DataRun.

Lemma row_without_conversion_fails_witness :
  ∃ err,
    @postgres.ConvertSQLRow sample_runtime events_conv "sales.events"
      ["msg"; "n"] events_src "events" ["msg"; "n"] events_sp
      [postgres.SqlString "a"; postgres.SqlBool true]
    = Some ([], [], Some err, events_conv).
Proof.
  apply (@row_without_conversion_fails sample_runtime events_conv "sales.events"
           ["msg"; "n"] events_src "events" ["msg"; "n"] events_sp
           [postgres.SqlString "a"; postgres.SqlBool true] 1 "n" "n"
           (postgres.SqlBool true)
           (ddl.mkColumnDef "n" (ddl.mkType ddl.Int64 0 false) false ""));
    reflexivity.
Defined.

Lemma null_row_keeps_only_the_key_witness :
  @postgres.ConvertSQLRow sample_runtime events_conv "sales.events"
    ["msg"; "n"] events_src "events" ["msg"; "n"] events_sp
    [postgres.SqlNil; postgres.SqlNil]
  = Some (["synth_id"], [postgres.SpInt64 0], None,
          sequence_advanced events_conv "events").
Proof.
  apply (@null_row_keeps_only_the_key sample_runtime events_conv "sales.events"
           ["msg"; "n"] events_src "events" ["msg"; "n"] events_sp
           [postgres.SqlNil; postgres.SqlNil] eq_refl eq_refl).
  - by repeat constructor.
  - repeat constructor; by eexists.
Defined.

Lemma every_row_is_written_or_counted_witness :
  ∃ st' new,
    @postgres.processRows sample_runtime sample_sprint "sales.events"
      ["msg"; "n"] events_src "events" ["msg"; "n"] events_sp events_rows
      events_state = Some st' ∧
    postgres.sink st' = postgres.sink events_state ++ new ∧
    Z.of_nat (length new) +
    (index 0 (internal.BadRows (internal.Stats (postgres.conv st'))) "sales.events" -
     index 0 (internal.BadRows (internal.Stats events_conv)) "sales.events")
    = 4.
Proof.
  destruct (@every_row_is_written_or_counted sample_runtime sample_sprint
              "sales.events" ["msg"; "n"] events_src "events" ["msg"; "n"]
              events_sp events_rows events_state)
    as (st' & new & Hrun & Hsink & _ & _ & Hcount).
  - reflexivity.
  - repeat constructor.
  - exists st', new. split_and!; [exact Hrun | exact Hsink | exact Hcount].
Defined.

Lemma data_run_keeps_the_schema_witness :
  @lookups_keep_frame sample_runtime ∧
  ∃ st', sample_result = Some st' ∧
    schema_frame events_conv (postgres.conv st') ∧
    length (postgres.sink st') = 2%nat.
Proof.
  assert (Hlook : @lookups_keep_frame sample_runtime).
  { split; [intros c t | intros c t cols]; by destruct c. }
  split; [exact Hlook |].
  unfold sample_result.
  destruct (@postgres.ProcessSQLData sample_runtime sample_sprint sample_db
              events_state) as [st'|] eqn:Hrun.
  - exists st'. split; [reflexivity |]. split.
    + apply (@data_run_keeps_the_schema sample_runtime sample_sprint sample_db
               events_state st' Hlook Hrun).
    + assert (Hlen : (λ st, length (postgres.sink st)) <$> sample_result
                     = Some 2%nat) by reflexivity.
      unfold sample_result in Hlen. rewrite Hrun in Hlen. by injection Hlen.
  - exfalso.
    assert (Hsome : (λ _, tt) <$> sample_result = Some tt) by reflexivity.
    unfold sample_result in Hsome. rewrite Hrun in Hsome. discriminate Hsome.
Defined.

(** * Further properties of the schema edits *)

(** ** The outcome of the interleaving check *)

(** A foreign key with as many local as referenced columns. *)
Definition well_formed (fk : ddl.Foreignkey) : Prop :=
  length (ddl.Columns fk) = length (ddl.ReferColumns fk).

(** The foreign key cannot make its parent the parent of [table]: the
    parent has a synthetic key, or the table cannot be co-located under
    it. *)
Definition skipped (conv : internal.Conv) (table : string)
    (fk : ddl.Foreignkey) : Prop :=
  is_Some (internal.SyntheticPKeys conv !! ddl.ReferTable fk) ∨
  ¬ colocatable conv table (ddl.ReferTable fk) fk.

(** The model with [table] placed under [refTable] and without its
    [j]-th foreign key. *)
Definition interleaved (table : string) (j : nat) (refTable : string)
    (conv : internal.Conv) : internal.Conv :=
  let sp := index ddl.zeroCreateTable (internal.SpSchema conv) table in
  internal.with_SpSchema
    (<[table := ddl.mkCreateTable (ddl.ctName sp) (ddl.ColNames sp) (ddl.ColDefs sp)
                  (ddl.Pks sp) (remove_at (ddl.Fks sp) j) refTable]>) conv.

Lemma checkPrimaryKeyPrefix_total conv table refTable fk :
  well_formed fk → is_Some (web.checkPrimaryKeyPrefix table refTable fk conv).
Proof.
  intros Hfk. unfold web.checkPrimaryKeyPrefix.
  case_bool_decide as Hlen; [| done].
  apply prefixLoop_total; [done | simpl; lia].
Qed.

Lemma interleaveLoop_result table i fks conv st :
  Forall well_formed fks →
  (Forall (skipped conv table) fks ∧
   web.interleaveLoop table i fks conv st = Some (conv, st)) ∨
  ∃ j fk,
    fks !! j = Some fk ∧ Forall (skipped conv table) (take j fks) ∧
    internal.SyntheticPKeys conv !! ddl.ReferTable fk = None ∧
    colocatable conv table (ddl.ReferTable fk) fk ∧
    web.interleaveLoop table i fks conv st
    = Some (interleaved table (i + j) (ddl.ReferTable fk) conv,
            web.mkTableInterleaveStatus (web.Possible st) (ddl.ReferTable fk)
              (web.Comment st)).
Proof.
  intros Hall. revert i. induction Hall as [|fk fks Hfk Hall IH]; intros i.
  { left. split; [constructor | done]. }
  assert (Hnext : skipped conv table fk →
    (Forall (skipped conv table) (fk :: fks) ∧
     web.interleaveLoop table (S i) fks conv st = Some (conv, st)) ∨
    ∃ j fk',
      (fk :: fks) !! j = Some fk' ∧
      Forall (skipped conv table) (take j (fk :: fks)) ∧
      internal.SyntheticPKeys conv !! ddl.ReferTable fk' = None ∧
      colocatable conv table (ddl.ReferTable fk') fk' ∧
      web.interleaveLoop table (S i) fks conv st
      = Some (interleaved table (i + j) (ddl.ReferTable fk') conv,
              web.mkTableInterleaveStatus (web.Possible st) (ddl.ReferTable fk')
                (web.Comment st))).
  { intros Hskip.
    destruct (IH (S i)) as [[Hrest Hrun] | (j & fk' & Hj & Hbefore & Hsyn & Hco & Hrun)].
    - left. split; [by constructor | done].
    - right. exists (S j), fk'. split_and!; [done | by constructor | done | done |].
      by replace (i + S j)%nat with (S i + j)%nat by lia. }
  cbn [web.interleaveLoop].
  case_bool_decide as Hsyn; [apply Hnext; by left |].
  pose proof (checkPrimaryKeyPrefix_colocatable conv table (ddl.ReferTable fk) fk)
    as Htrue.
  destruct (checkPrimaryKeyPrefix_total conv table (ddl.ReferTable fk) fk Hfk)
    as [[|] Hok].
  - right. exists 0%nat, fk. rewrite Hok. cbn [mbind option_bind].
    split_and!; [done | constructor | by apply eq_None_not_Some | by apply Htrue |].
    by rewrite Nat.add_0_r.
  - rewrite Hok. cbn [mbind option_bind]. apply Hnext.
    right. intros Hco. apply Htrue in Hco. congruence.
Qed.

(** X6: with a driver configured and foreign keys that pair each local
    with a referenced column, [checkForInterleavedTables] never panics and
    has one of three outcomes.  A table with a synthetic key: the model is
    unchanged, the answer is not possible, Has synthetic pk.  No foreign key
    whose parent is without synthetic key and allows co-location: the model
    is unchanged, the answer is not possible, No valid prefix.  Otherwise the
    first such foreign key in the table's list is chosen: its parent becomes
    the table's parent, exactly that foreign key leaves the list and nothing
    else of the model changes; the answer is possible with that parent,
    except that a parent with the empty name is answered not possible, No
    valid prefix, with the model changed all the same. *)
Theorem interleaving_outcome (driver table : string) (conv : internal.Conv) :
  driver ≠ "" →
  let fks := ddl.Fks (index ddl.zeroCreateTable (internal.SpSchema conv) table) in
  let check := web.checkForInterleavedTables driver table conv in
  let refused := web.mkTableInterleaveStatus false "" in
  Forall well_formed fks →
  (is_Some (internal.SyntheticPKeys conv !! table) ∧
   check = Some (conv, Some (refused "Has synthetic pk"))) ∨
  (internal.SyntheticPKeys conv !! table = None ∧
   Forall (skipped conv table) fks ∧
   check = Some (conv, Some (refused "No valid prefix"))) ∨
  (internal.SyntheticPKeys conv !! table = None ∧
   ∃ j fk,
     fks !! j = Some fk ∧ Forall (skipped conv table) (take j fks) ∧
     ¬ skipped conv table fk ∧
     check = Some (interleaved table j (ddl.ReferTable fk) conv,
                   Some (if String_eqb (ddl.ReferTable fk) ""
                         then refused "No valid prefix"
                         else web.mkTableInterleaveStatus true (ddl.ReferTable fk)
                                ""))).
Proof.
  intros Hdrv fks check refused Hall.
  unfold check, web.checkForInterleavedTables, String_eqb.
  rewrite bool_decide_false by done.
  case_bool_decide as Hsyn; cbn [web.Possible web.Parent]; [by left |].
  right. apply eq_None_not_Some in Hsyn. fold fks.
  destruct (interleaveLoop_result table 0 fks conv
              (web.mkTableInterleaveStatus true "" "") Hall)
    as [[Hskip ->] | (j & fk & Hj & Hbefore & Hnone & Hco & ->)];
    cbn [mbind option_bind web.Parent web.Possible web.Comment].
  - left. by rewrite bool_decide_true.
  - right. split; [done |]. exists j, fk. split_and!; [done | done | |].
    + intros [Hs | Hn]; [rewrite Hnone in Hs; by destruct Hs | done].
    + unfold refused. case_bool_decide as Hname; [by rewrite Hname | done].
Qed.

(** A family of tables: [child] has the key (a, b, c), a foreign key on
    (a) to [aunt], whose key is (x), and one on (a, b) to [parent], whose
    key is (a, b). *)
Definition family_conv : internal.Conv :=
  let key := fmap (λ c, ddl.mkIndexKey c false) in
  internal.mkConv
    {[ "child" := ddl.mkCreateTable "child" ["a"; "b"; "c"] (Some ∅)
                    (key ["a"; "b"; "c"])
                    [ddl.mkForeignkey ["a"] "aunt" ["x"];
                     ddl.mkForeignkey ["a"; "b"] "parent" ["a"; "b"]] "";
       "parent" := ddl.mkCreateTable "parent" ["a"; "b"] (Some ∅) (key ["a"; "b"])
                     [] "";
       "aunt" := ddl.mkCreateTable "aunt" ["x"] (Some ∅) (key ["x"]) [] "" ]}
    ∅ ∅ ∅ ∅ ∅ (internal.mkStats ∅ ∅ ∅) [] false "".

Example family_interleaving :
  web.checkForInterleavedTables "postgres" "child" family_conv
  = Some (interleaved "child" 1 "parent" family_conv,
          Some (web.mkTableInterleaveStatus true "parent" "")) ∧
  (ddl.Fks <$> internal.SpSchema (interleaved "child" 1 "parent" family_conv)
               !! "child")
  = Some [ddl.mkForeignkey ["a"] "aunt" ["x"]].
Proof. split; vm_compute; reflexivity. Qed.

Lemma interleaving_outcome_witness :
  let fks :=
    ddl.Fks (index ddl.zeroCreateTable (internal.SpSchema family_conv) "child") in
  let check := web.checkForInterleavedTables "postgres" "child" family_conv in
  (is_Some (internal.SyntheticPKeys family_conv !! "child") ∧
   check = Some (family_conv,
                 Some (web.mkTableInterleaveStatus false "" "Has synthetic pk"))) ∨
  (internal.SyntheticPKeys family_conv !! "child" = None ∧
   Forall (skipped family_conv "child") fks ∧
   check = Some (family_conv,
                 Some (web.mkTableInterleaveStatus false "" "No valid prefix"))) ∨
  (internal.SyntheticPKeys family_conv !! "child" = None ∧
   ∃ j fk,
     fks !! j = Some fk ∧ Forall (skipped family_conv "child") (take j fks) ∧
     ¬ skipped family_conv "child" fk ∧
     check = Some (interleaved "child" j (ddl.ReferTable fk) family_conv,
                   Some (if String_eqb (ddl.ReferTable fk) ""
                         then web.mkTableInterleaveStatus false "" "No valid prefix"
                         else web.mkTableInterleaveStatus true (ddl.ReferTable fk)
                                ""))).
Proof.
  apply (interleaving_outcome "postgres" "child" family_conv); [done |].
  repeat constructor.
Defined.

(** ** Removals in any order *)

Lemma remove_first_comm {A} (p q : A → bool) (l : list A) :
  (∀ x, p x = true → q x = true → False) →
  remove_first p (remove_first q l) = remove_first q (remove_first p l).
Proof.
  intros Hpq. induction l as [|x l IH]; [done |].
  rewrite (remove_first_cons q), (remove_first_cons p).
  destruct (p x) eqn:Hp, (q x) eqn:Hq.
  - by destruct (Hpq x).
  - by rewrite remove_first_cons, Hp.
  - by rewrite remove_first_cons, Hq.
  - by rewrite !remove_first_cons, Hp, Hq, IH.
Qed.

Lemma deleteCol_comm m k c1 c2 :
  internal.deleteCol k c1 (internal.deleteCol k c2 m)
  = internal.deleteCol k c2 (internal.deleteCol k c1 m).
Proof.
  unfold internal.deleteCol. rewrite !alter_alter_eq. apply alter_ext.
  intros nc _. simpl. by rewrite delete_delete.
Qed.

Lemma delete_inner_comm {V} (m : gmap string (gmap string V)) k c1 c2 :
  alter (delete c1) k (alter (delete c2) k m)
  = alter (delete c2) k (alter (delete c1) k m).
Proof.
  rewrite !alter_alter_eq. apply alter_ext. intros g _. simpl.
  by rewrite delete_delete.
Qed.

(** The source column of [a] is not touched by the removal of another
    column. *)
Lemma colsOf_deleteCol_ne m k a b :
  a ≠ b →
  index "" (internal.colsOf (internal.deleteCol k b m) k) a
  = index "" (internal.colsOf m k) a.
Proof.
  intros Hab. unfold internal.colsOf, internal.deleteCol, index.
  rewrite lookup_alter_eq.
  destruct (m !! k); simpl; [by rewrite lookup_delete_ne | done].
Qed.

Lemma removeColumn_comm table src c1 c2 conv :
  web.removeColumn table c1 src (web.removeColumn table c2 src conv)
  = web.removeColumn table c2 src (web.removeColumn table c1 src conv).
Proof.
  destruct (decide (c1 = c2)) as [-> | Hne]; [done |].
  apply Conv_eq; conv_proj; try done.
  - rewrite !index_insert_eq, !insert_insert_eq. f_equal.
    unfold ddl.with_Pks, ddl.with_ColDefs, ddl.with_ColNames.
    cbn [ddl.ctName ddl.ColNames ddl.ColDefs ddl.Pks ddl.Fks ddl.Parent].
    f_equal.
    + apply remove_first_comm. unfold String_eqb. intros x Hx Hy.
      apply bool_decide_eq_true in Hx, Hy. congruence.
    + destruct (ddl.ColDefs _); [| done].
      cbn [fmap option_fmap option_map]. by rewrite delete_delete.
    + apply remove_first_comm. unfold String_eqb. intros x Hx Hy.
      apply bool_decide_eq_true in Hx, Hy. congruence.
  - rewrite !colsOf_deleteCol_ne by done. apply delete_inner_comm.
  - rewrite !colsOf_deleteCol_ne by done. apply deleteCol_comm.
  - apply deleteCol_comm.
Qed.

Section Removals.

Variable toSpannerTypeMySQL toSpannerTypePostgres :
  string → string → list Z → ddl.Type_ * list internal.SchemaIssue.
Variable AddPrimaryKeys : internal.Conv → option internal.Conv.

Local Abbreviation updateColumns :=
  (web.updateColumns toSpannerTypeMySQL toSpannerTypePostgres).
Local Abbreviation updateTableSchema :=
  (web.updateTableSchema toSpannerTypeMySQL toSpannerTypePostgres AddPrimaryKeys).

(** The entry of the batch removes its column. *)
Definition removes (e : string * web.updateCol) : Prop := web.Removed e.2 = true.

(** The columns of a batch of removals taken off one after the other. *)
Definition remove_all (table src : string) (edits : list (string * web.updateCol))
    (conv : internal.Conv) : internal.Conv :=
  foldl (λ c e, web.removeColumn table e.1 src c) conv edits.

Lemma updateColumns_removals driver table src edits conv :
  Forall removes edits →
  updateColumns driver table src edits conv = Some (remove_all table src edits conv).
Proof.
  intros Hall. revert conv.
  induction Hall as [|[c v] edits Hv _ IH]; intros conv; [done |].
  cbn [web.updateColumns]. unfold web.updateColumn. unfold removes in Hv.
  simpl in Hv. rewrite Hv. cbn [mbind option_bind]. by rewrite IH.
Qed.

Lemma remove_all_perm table src edits edits' conv :
  edits ≡ₚ edits' →
  remove_all table src edits conv = remove_all table src edits' conv.
Proof.
  intros Hperm. revert conv.
  induction Hperm as [|e l l' _ IH|e1 e2 l|l1 l2 l3 _ IH1 _ IH2]; intros conv.
  - done.
  - apply IH.
  - unfold remove_all. simpl. by rewrite removeColumn_comm.
  - by rewrite IH1, IH2.
Qed.

(** X7: the loop of [updateTableSchema] over a batch of edits that only
    removes columns never panics: it leaves the model with these columns
    removed one after the other by [removeColumn].  That model does not
    depend on the order in which the range over the map of edits visits
    them: any two orders of the same entries leave the same model.  The
    handler then hands this model to [AddPrimaryKeys], so that its outcome,
    a panic of [AddPrimaryKeys] included, is the same for both orders. *)
Theorem removals_in_any_order (driver table : string)
    (edits edits' : list (string * web.updateCol)) (conv : internal.Conv) :
  Forall removes edits →
  edits ≡ₚ edits' →
  let src :=
    internal.Name (index internal.zeroNameAndCols (internal.ToSource conv) table) in
  let removed :=
    foldl (λ c e, web.removeColumn table e.1 src c) conv edits in
  updateColumns driver table src edits conv = Some removed ∧
  updateColumns driver table src edits' conv = Some removed ∧
  updateTableSchema driver table edits conv = AddPrimaryKeys removed ∧
  updateTableSchema driver table edits' conv = AddPrimaryKeys removed.
Proof.
  intros Hall Hperm src removed.
  assert (Hall' : Forall removes edits') by (by rewrite <- Hperm).
  assert (Hone : updateColumns driver table src edits conv = Some removed)
    by (by apply updateColumns_removals).
  assert (Htwo : updateColumns driver table src edits' conv = Some removed).
  { rewrite updateColumns_removals by done.
    by rewrite <- (remove_all_perm _ _ _ _ _ Hperm). }
  unfold web.updateTableSchema. fold src. by rewrite Hone, Htwo.
Qed.

End Removals.

Lemma removals_in_any_order_witness :
  web.updateColumns sample_mapper sample_mapper "postgres" "orders" "sales.orders"
    [("total", edit_remove); ("tags", edit_remove); ("grid", edit_remove)]
    sample_conv
  = web.updateColumns sample_mapper sample_mapper "postgres" "orders" "sales.orders"
      [("grid", edit_remove); ("total", edit_remove); ("tags", edit_remove)]
      sample_conv ∧
  (ddl.ColNames <$>
   (internal.SpSchema <$>
    web.updateTableSchema sample_mapper sample_mapper Some "postgres" "orders"
      [("grid", edit_remove); ("total", edit_remove); ("tags", edit_remove)]
      sample_conv) ≫= (.!! "orders"))
  = Some ["order_id"].
Proof.
  assert (Hall : Forall removes
            [("total", edit_remove); ("tags", edit_remove); ("grid", edit_remove)])
    by repeat constructor.
  assert (Hperm :
    [("total", edit_remove); ("tags", edit_remove); ("grid", edit_remove)]
    ≡ₚ [("grid", edit_remove); ("total", edit_remove); ("tags", edit_remove)]).
  { symmetry.
    apply (Permutation_cons_append [("total", edit_remove); ("tags", edit_remove)]
             ("grid", edit_remove)). }
  pose proof (removals_in_any_order sample_mapper sample_mapper Some "postgres"
                "orders" _ _ sample_conv Hall Hperm) as Hrun.
  cbv zeta in Hrun. destruct Hrun as (Hone & Htwo & _ & Hfour).
  split.
  - etransitivity; [exact Hone | symmetry; exact Htwo].
  - rewrite Hfour. reflexivity.
Defined.

(** * Properties of the schema extraction *)

(** The model [c'] is [c] with more reports of unexpected conditions:
    nothing but the counts of the reports differs. *)
Definition only_reports (c c' : internal.Conv) : Prop :=
  ∃ u, c' = internal.with_Stats
              (λ st, internal.mkStats (internal.Rows st) (internal.BadRows st) u) c.

Lemma only_reports_refl c : only_reports c c.
Proof.
  exists (internal.UnexpectedCount (internal.Stats c)).
  destruct c as [? ? ? ? ? ? [? ? ?] ? ? ?]. reflexivity.
Qed.

Lemma only_reports_trans c1 c2 c3 :
  only_reports c1 c2 → only_reports c2 c3 → only_reports c1 c3.
Proof. intros [u1 ->] [u2 ->]. by exists u2. Qed.

Lemma only_reports_Unexpected msg c : only_reports c (internal.Unexpected msg c).
Proof. by eexists. Qed.

Lemma only_reports_step msg c c' :
  only_reports (internal.Unexpected msg c) c' → only_reports c c'.
Proof. apply only_reports_trans, only_reports_Unexpected. Qed.

(** ** Columns *)

Lemma toType_bounds dataType elementDataType charLen numericPrecision numericScale :
  let ty := infoschema.toType dataType elementDataType charLen numericPrecision
              numericScale in
  (length (schema.ArrayBounds ty) ≤ 1)%nat ∧
  (schema.ArrayBounds ty ≠ [] → schema.Mods ty = []).
Proof.
  unfold infoschema.toType.
  repeat (destruct (_ && _) || case_bool_decide); simpl; split; (lia || done).
Qed.

Lemma constraintFlags_spec cs :
  let '(unique, ignored) := infoschema.constraintFlags cs in
  (unique = true ↔ "UNIQUE" ∈ cs) ∧
  (schema.ForeignKey ignored = true ↔ "FOREIGN KEY" ∈ cs) ∧
  (schema.Check ignored = true ↔ "CHECK" ∈ cs) ∧
  schema.Default ignored = false ∧ schema.AutoIncrement ignored = false.
Proof.
  unfold infoschema.constraintFlags.
  induction cs as [|c cs IH] using rev_ind.
  { simpl. split_and!; try done; split; (done || by intros ?%elem_of_nil). }
  rewrite foldl_app. simpl.
  destruct (foldl _ _ cs) as [unique ignored].
  destruct IH as (Hu & Hf & Hc & Hd & Ha).
  unfold String_eqb.
  repeat case_bool_decide; subst; simpl;
    rewrite !elem_of_app, !list_elem_of_singleton; split_and!; try done;
    naive_solver.
Qed.

(** What a column built from a scanned row looks like. *)
Definition column_ok (constraints : gmap string (list string)) (n : string)
    (c : schema.Column) : Prop :=
  schema.colName c = n ∧
  (length (schema.ArrayBounds (schema.Type' c)) ≤ 1)%nat ∧
  (schema.Unique c = true ↔ "UNIQUE" ∈ index [] constraints n) ∧
  (schema.ForeignKey (schema.Ignored' c) = true ↔
   "FOREIGN KEY" ∈ index [] constraints n) ∧
  (schema.Check (schema.Ignored' c) = true ↔ "CHECK" ∈ index [] constraints n) ∧
  schema.AutoIncrement (schema.Ignored' c) = false.

Lemma column_spec r constraints conv :
  let '(c, conv') := infoschema.column r constraints conv in
  column_ok constraints (infoschema.colName r) c ∧
  (schema.Default (schema.Ignored' c) = true ↔ is_Some (infoschema.colDefault r)) ∧
  (infoschema.isNullable r = "NO" → schema.NotNull c = true) ∧
  (infoschema.isNullable r ≠ "NO" → schema.NotNull c = false) ∧
  only_reports conv conv'.
Proof.
  unfold infoschema.column.
  pose proof (constraintFlags_spec (index [] constraints (infoschema.colName r)))
    as Hflags.
  destruct (infoschema.constraintFlags _) as [unique ignored].
  destruct Hflags as (Hu & Hf & Hc & _ & Ha).
  pose proof (toType_bounds (infoschema.dataType r) (infoschema.elementDataType r)
                (infoschema.charMaxLen r) (infoschema.numericPrecision r)
                (infoschema.numericScale r)) as [Hb _].
  assert (Hdef : bool_decide (is_Some (infoschema.colDefault r)) = true ↔
                 is_Some (infoschema.colDefault r)) by apply bool_decide_eq_true.
  unfold infoschema.toNotNull, String_eqb.
  destruct (decide (infoschema.isNullable r = "YES")) as [Hyes | Hyes];
    [rewrite bool_decide_true by done | rewrite bool_decide_false by done];
    [| destruct (decide (infoschema.isNullable r = "NO")) as [Hno | Hno];
       [rewrite bool_decide_true by done | rewrite bool_decide_false by done]];
    simpl; (split_and!; [by split_and! | done | done || congruence
                         | done || congruence | ]);
    first [apply only_reports_refl | apply only_reports_Unexpected].
Qed.

Lemma processColumns_loop_spec cols constraints colDefs colNames conv :
  (∀ n, n ∈ colNames ↔ is_Some (colDefs !! n)) →
  map_Forall (column_ok constraints) colDefs →
  let '(colDefs', colNames', conv') :=
    infoschema.processColumns_loop cols constraints colDefs colNames conv in
  colNames' = colNames ++ (infoschema.colName <$> scanned cols) ∧
  (∀ n, n ∈ colNames' ↔ is_Some (colDefs' !! n)) ∧
  map_Forall (column_ok constraints) colDefs' ∧
  only_reports conv conv'.
Proof.
  revert colDefs colNames conv.
  induction cols as [|[r | err] cols IH]; intros colDefs colNames conv Hdom Hok.
  - simpl. rewrite app_nil_r. split_and!; [done | done | done |].
    apply only_reports_refl.
  - cbn [infoschema.processColumns_loop scanned omap list_omap].
    pose proof (column_spec r constraints conv) as Hcol.
    destruct (infoschema.column r constraints conv) as [c conv1].
    destruct Hcol as (Hc & _ & _ & _ & Hrep).
    specialize (IH (<[infoschema.colName r := c]> colDefs)
                  (colNames ++ [infoschema.colName r]) conv1).
    destruct (infoschema.processColumns_loop _ _ _ _ _) as [[colDefs' colNames'] conv'].
    destruct IH as (-> & Hdom' & Hok' & Hrep').
    + intros n. rewrite elem_of_app, list_elem_of_singleton, Hdom.
      destruct (decide (infoschema.colName r = n)) as [-> | Hne].
      * rewrite lookup_insert_eq. split; [by eauto | by right].
      * rewrite lookup_insert_ne by done. split; [intros [?|?]; [done | congruence] | by left].
    + by apply map_Forall_insert_2.
    + split_and!; [by rewrite fmap_cons, <- app_assoc | done | done |].
      by eapply only_reports_trans.
  - cbn [infoschema.processColumns_loop scanned omap list_omap].
    specialize (IH colDefs colNames
                  (internal.Unexpected ("Can't scan: " +:+ err) conv) Hdom Hok).
    destruct (infoschema.processColumns_loop _ _ _ _ _) as [[colDefs' colNames'] conv'].
    destruct IH as (-> & Hdom' & Hok' & Hrep'). split_and!; [done | done | done |].
    by eapply only_reports_step.
Qed.

(** X8: [processColumns] lists the names of the scanned rows in the
    order of the scan (a row whose scan fails is reported and skipped); a
    name is listed exactly when it has a column definition; every definition
    is stored under its own name, has at most one array bound (so a schema
    read from the information schema has no multi-dimensional column), is
    unique, foreign key or check exactly when the constraints of its name
    say so, and is never auto-increment.  Of the model only the reports
    change. *)
Theorem processColumns_spec (conv : internal.Conv)
    (cols : list (postgres.result infoschema.columnRow))
    (constraints : gmap string (list string)) :
  let '(colDefs, colNames, conv') := infoschema.processColumns conv cols constraints in
  colNames = infoschema.colName <$> scanned cols ∧
  (∀ n, n ∈ colNames ↔ is_Some (colDefs !! n)) ∧
  (∀ n c, colDefs !! n = Some c → column_ok constraints n c) ∧
  only_reports conv conv'.
Proof.
  unfold infoschema.processColumns.
  pose proof (processColumns_loop_spec cols constraints ∅ [] conv) as Hloop.
  destruct (infoschema.processColumns_loop _ _ _ _ _) as [[colDefs colNames] conv'].
  destruct Hloop as (Hnames & Hdom & Hok & Hrep).
  - intros n. rewrite lookup_empty. split; [by intros ?%elem_of_nil | by intros [? ?]].
  - apply map_Forall_empty.
  - done.
Qed.

(** ** Constraints *)

(** The scanned rows that [getConstraints] takes: both the column and
    the constraint are given. *)
Definition taken (rows : list (postgres.result (string * string))) :
    list (string * string) :=
  filter (λ r, r.1 ≠ "" ∧ r.2 ≠ "") (scanned rows).

Lemma getConstraints_loop_spec rows primaryKeys m conv :
  let '(primaryKeys', m', conv') :=
    infoschema.getConstraints_loop rows primaryKeys m conv in
  primaryKeys'
  = primaryKeys ++ (filter (λ r, r.2 = "PRIMARY KEY") (taken rows)).*1 ∧
  (∀ col, index [] m' col
          = index [] m col ++
            (filter (λ r, r.1 = col ∧ r.2 ≠ "PRIMARY KEY") (taken rows)).*2) ∧
  (∀ col, is_Some (m' !! col) ↔
          is_Some (m !! col) ∨
          ∃ c, (col, c) ∈ taken rows ∧ c ≠ "PRIMARY KEY") ∧
  only_reports conv conv'.
Proof.
  revert primaryKeys m conv.
  induction rows as [|[[col constraint] | err] rows IH]; intros primaryKeys m conv.
  - simpl. split_and!; [by rewrite app_nil_r | intros; by rewrite app_nil_r | |
                        apply only_reports_refl].
    intros col. split; [by left | intros [? | (c & Hc & _)]; [done |]].
    by apply elem_of_nil in Hc.
  - cbn [infoschema.getConstraints_loop]. unfold taken.
    cbn [scanned omap list_omap]. fold (scanned rows). unfold String_eqb.
    destruct (decide (col = "")) as [-> | Hcol].
    { simpl. rewrite filter_cons_False by (simpl; tauto). fold (taken rows).
      specialize (IH primaryKeys m
                    (internal.Unexpected "Got empty col or constraint" conv)).
      destruct (infoschema.getConstraints_loop _ _ _ _) as [[pks' m'] conv'].
      destruct IH as (? & ? & ? & Hrep). split_and!; [done | done | done |].
      by eapply only_reports_step. }
    rewrite (bool_decide_false (col = "")) by done.
    destruct (decide (constraint = "")) as [-> | Hcon].
    { simpl. rewrite filter_cons_False by (simpl; tauto). fold (taken rows).
      specialize (IH primaryKeys m
                    (internal.Unexpected "Got empty col or constraint" conv)).
      destruct (infoschema.getConstraints_loop _ _ _ _) as [[pks' m'] conv'].
      destruct IH as (? & ? & ? & Hrep). split_and!; [done | done | done |].
      by eapply only_reports_step. }
    rewrite (bool_decide_false (constraint = "")) by done.
    rewrite filter_cons_True by done. fold (taken rows). cbn [orb].
    destruct (decide (constraint = "PRIMARY KEY")) as [-> | Hpk].
    + rewrite bool_decide_true by done.
      specialize (IH (primaryKeys ++ [col]) m conv).
      destruct (infoschema.getConstraints_loop _ _ _ _) as [[pks' m'] conv'].
      destruct IH as (-> & Hm & Hdom & Hrep).
      rewrite filter_cons_True by done. split_and!.
      * by rewrite fmap_cons, <- app_assoc.
      * intros col'. rewrite filter_cons_False by (simpl; tauto). apply Hm.
      * intros col'. rewrite Hdom. split; [intros [? | (c & Hc & Hne)]|].
        -- by left.
        -- right. exists c. split; [by right | done].
        -- intros [? | (c & Hc & Hne)]; [by left |]. right. exists c.
           apply elem_of_cons in Hc as [[= -> ->] | Hc]; done.
      * done.
    + rewrite bool_decide_false by done.
      specialize (IH primaryKeys (<[col := index [] m col ++ [constraint]]> m) conv).
      destruct (infoschema.getConstraints_loop _ _ _ _) as [[pks' m'] conv'].
      destruct IH as (-> & Hm & Hdom & Hrep).
      rewrite filter_cons_False by done. split_and!; [done | | | done].
      * intros col'. rewrite Hm. destruct (decide (col = col')) as [<- | Hne].
        -- rewrite index_insert_eq, filter_cons_True by done.
           by rewrite fmap_cons, <- app_assoc.
        -- rewrite filter_cons_False by (simpl; tauto).
           unfold index. by rewrite lookup_insert_ne.
      * intros col'. rewrite Hdom. destruct (decide (col = col')) as [<- | Hne].
        -- rewrite lookup_insert_eq. split; [intros _ | by left; eauto].
           right. exists constraint. split; [by left | done].
        -- rewrite lookup_insert_ne by done.
           split; intros [? | (c & Hc & Hcne)]; try by left.
           ++ right. exists c. split; [by right | done].
           ++ right. exists c. apply elem_of_cons in Hc as [[= ? ?] | Hc]; done.
  - cbn [infoschema.getConstraints_loop]. unfold taken.
    cbn [scanned omap list_omap]. fold (scanned rows). fold (taken rows).
    specialize (IH primaryKeys m (internal.Unexpected ("Can't scan: " +:+ err) conv)).
    destruct (infoschema.getConstraints_loop _ _ _ _) as [[pks' m'] conv'].
    destruct IH as (? & ? & ? & Hrep). split_and!; [done | done | done |].
    by eapply only_reports_step.
Qed.

(** X9: when its query succeeds, [getConstraints] takes the scanned rows
    that give both a column and a constraint (the others are reported and
    skipped): the primary key is the columns of the PRIMARY KEY rows in the
    order of the scan, the map holds for each column its other constraints
    in the order of the scan, a column is a key of the map exactly when it
    has such a constraint, and PRIMARY KEY is in no entry of the map.  When
    the query fails the error is returned and the model is untouched.  Of the
    model only the reports change. *)
Theorem getConstraints_spec (conv : internal.Conv)
    (q : postgres.result (list (postgres.result (string * string)))) :
  match q, infoschema.getConstraints conv q with
  | postgres.Ok rows, (postgres.Ok (primaryKeys, m), conv') =>
      primaryKeys = (filter (λ r, r.2 = "PRIMARY KEY") (taken rows)).*1 ∧
      (∀ col, index [] m col
              = (filter (λ r, r.1 = col ∧ r.2 ≠ "PRIMARY KEY") (taken rows)).*2) ∧
      (∀ col, is_Some (m !! col) ↔
              ∃ c, (col, c) ∈ taken rows ∧ c ≠ "PRIMARY KEY") ∧
      (∀ col, "PRIMARY KEY" ∉ index [] m col) ∧
      only_reports conv conv'
  | postgres.Err err, (postgres.Err err', conv') => err' = err ∧ conv' = conv
  | _, _ => False
  end.
Proof.
  destruct q as [rows | err]; [| done]. unfold infoschema.getConstraints.
  pose proof (getConstraints_loop_spec rows [] ∅ conv) as Hloop.
  destruct (infoschema.getConstraints_loop _ _ _ _) as [[primaryKeys m] conv'].
  destruct Hloop as (Hpk & Hm & Hdom & Hrep).
  split_and!; [done | done | | | done].
  - intros col. rewrite Hdom, lookup_empty. split; [intros [[? ?] | ?] | by right]; done.
  - intros col. rewrite Hm. intros Hin. apply list_elem_of_fmap in Hin as (r & Hr & Hin).
    apply list_elem_of_filter in Hin as [[_ Hne] _]. congruence.
Qed.

(** ** Foreign keys *)

Lemma getForeignKey_loop_spec rows cols refCols conv :
  let '(cols', refCols', conv') :=
    infoschema.getForeignKey_loop rows cols refCols conv in
  cols' = cols ++ (scanned rows).*1 ∧ refCols' = refCols ++ (scanned rows).*2 ∧
  only_reports conv conv'.
Proof.
  revert cols refCols conv.
  induction rows as [|[[col refCol] | err] rows IH]; intros cols refCols conv.
  - simpl. rewrite !app_nil_r. split_and!; [done | done | apply only_reports_refl].
  - cbn [infoschema.getForeignKey_loop scanned omap list_omap].
    specialize (IH (cols ++ [col]) (refCols ++ [refCol]) conv).
    destruct (infoschema.getForeignKey_loop _ _ _ _) as [[cols' refCols'] conv'].
    destruct IH as (-> & -> & Hrep).
    by rewrite !fmap_cons, <- !app_assoc.
  - cbn [infoschema.getForeignKey_loop scanned omap list_omap].
    specialize (IH cols refCols (internal.Unexpected ("Can't scan: " +:+ err) conv)).
    destruct (infoschema.getForeignKey_loop _ _ _ _) as [[cols' refCols'] conv'].
    destruct IH as (-> & -> & Hrep). split_and!; [done | done |].
    by eapply only_reports_step.
Qed.

(** The foreign key read for [refTable] from the scanned rows [rows]. *)
Definition fkey_of (refTable : postgres.schemaAndName)
    (rows : list (postgres.result (string * string))) : infoschema.Fkey :=
  infoschema.mkFkey (scanned rows).*1
    (postgres.buildTableName (postgres.schema refTable) (postgres.name refTable))
    (scanned rows).*2.

Lemma getForeignKey_spec conv q refTable :
  match q with
  | postgres.Ok rows =>
      ∃ conv', infoschema.getForeignKey conv q refTable
               = (postgres.Ok (fkey_of refTable rows), conv') ∧
               only_reports conv conv'
  | postgres.Err err =>
      infoschema.getForeignKey conv q refTable = (postgres.Err err, conv)
  end.
Proof.
  destruct q as [rows | err]; [| done]. unfold infoschema.getForeignKey.
  pose proof (getForeignKey_loop_spec rows [] [] conv) as Hloop.
  destruct (infoschema.getForeignKey_loop _ _ _ _) as [[cols refCols] conv'].
  destruct Hloop as (-> & -> & Hrep). by exists conv'.
Qed.

Lemma getForeignKeys_loop_spec fkQuery refTables foreignKeys conv :
  match infoschema.getForeignKeys_loop fkQuery refTables foreignKeys conv with
  | (postgres.Ok fks, conv') =>
      Forall2 (λ refTable fk,
                 ∃ rows, fkQuery refTable = postgres.Ok rows ∧
                         fk = fkey_of refTable rows)
        refTables (drop (length foreignKeys) fks) ∧
      take (length foreignKeys) fks = foreignKeys ∧
      only_reports conv conv'
  | (postgres.Err err, conv') =>
      (∃ before refTable after,
         refTables = before ++ refTable :: after ∧
         Forall (λ r, ∃ rows, fkQuery r = postgres.Ok rows) before ∧
         fkQuery refTable = postgres.Err err) ∧
      only_reports conv conv'
  end.
Proof.
  revert foreignKeys conv.
  induction refTables as [|refTable refTables IH]; intros foreignKeys conv.
  - simpl. rewrite drop_all, firstn_all.
    split_and!; [constructor | done | apply only_reports_refl].
  - cbn [infoschema.getForeignKeys_loop].
    pose proof (getForeignKey_spec conv (fkQuery refTable) refTable) as Hone.
    destruct (fkQuery refTable) as [rows | err] eqn:Hq.
    + destruct Hone as (conv1 & -> & Hrep1).
      specialize (IH (foreignKeys ++ [fkey_of refTable rows]) conv1).
      destruct (infoschema.getForeignKeys_loop _ _ _ _) as [[fks | err] conv'].
      * destruct IH as (Hall & Htake & Hrep). rewrite length_app in Hall, Htake.
        simpl in Hall, Htake.
        assert (Hfks : fks = foreignKeys ++ fkey_of refTable rows ::
                             drop (length foreignKeys + 1) fks).
        { rewrite <- (take_drop (length foreignKeys + 1) fks) at 1.
          by rewrite Htake, <- app_assoc. }
        split_and!; [| | by eapply only_reports_trans].
        -- rewrite Hfks at 1. rewrite drop_app_length. constructor; [by eauto | done].
        -- rewrite Hfks. by rewrite take_app_length.
      * destruct IH as [(before & rt & after & -> & Hbefore & Hrt) Hrep].
        split; [| by eapply only_reports_trans].
        exists (refTable :: before), rt, after.
        split_and!; [done | constructor; eauto | done].
    + rewrite Hone. split; [| apply only_reports_refl].
      exists [], refTable, refTables. by split_and!.
Qed.

(** X10: when [getForeignKeys] succeeds it returns one foreign key for
    each referenced table, in the order of the listing; each pairs its
    local and referenced columns position by position as the rows were
    scanned, so both lists have the same length, and names the referenced
    table as [buildTableName] builds it.  It fails exactly with the error of
    the listing of the referenced tables or of the first query for a
    referenced table that fails: the queries for the tables listed before
    that one have succeeded.  Of the model only the reports change. *)
Theorem getForeignKeys_spec (conv : internal.Conv)
    (refQuery : postgres.result (list (string * string)))
    (fkQuery : postgres.schemaAndName →
               postgres.result (list (postgres.result (string * string)))) :
  match infoschema.getForeignKeys conv refQuery fkQuery with
  | (postgres.Ok fks, conv') =>
      ∃ listed,
        refQuery = postgres.Ok listed ∧
        Forall2 (λ r fk,
                   ∃ rows,
                     fkQuery (postgres.mkSchemaAndName r.1 r.2) = postgres.Ok rows ∧
                     infoschema.ReferTable fk = postgres.buildTableName r.1 r.2 ∧
                     zip (infoschema.Column fk) (infoschema.ReferColumn fk)
                     = scanned rows)
          listed fks ∧
        Forall (λ fk, length (infoschema.Column fk)
                      = length (infoschema.ReferColumn fk)) fks ∧
        only_reports conv conv'
  | (postgres.Err err, conv') =>
      ((∃ e, refQuery = postgres.Err e ∧
             err = "couldn't get reference tables: " +:+ e) ∨
       ∃ listed before r after,
         refQuery = postgres.Ok listed ∧ listed = before ++ r :: after ∧
         Forall (λ r', ∃ rows, fkQuery (postgres.mkSchemaAndName r'.1 r'.2)
                               = postgres.Ok rows) before ∧
         fkQuery (postgres.mkSchemaAndName r.1 r.2) = postgres.Err err) ∧
      only_reports conv conv'
  end.
Proof.
  unfold infoschema.getForeignKeys, infoschema.getRefTables.
  destruct refQuery as [listed | e].
  2: { split; [left; by exists e | apply only_reports_refl]. }
  pose proof (getForeignKeys_loop_spec fkQuery
                ((λ r, postgres.mkSchemaAndName r.1 r.2) <$> listed) [] conv)
    as Hloop.
  destruct (infoschema.getForeignKeys_loop _ _ _ _) as [[fks | err] conv'].
  - destruct Hloop as (Hall & _ & Hrep). simpl in Hall. exists listed.
    apply Forall2_fmap_l in Hall.
    assert (Hzip : ∀ rows : list (postgres.result (string * string)),
              zip (scanned rows).*1 (scanned rows).*2 = scanned rows).
    { intros rows. apply zip_fst_snd. }
    split_and!; [done | | | done].
    + eapply Forall2_impl; [exact Hall |]. intros r fk (rows & Hq & ->).
      exists rows. split_and!; [done | done | apply Hzip].
    + eapply Forall2_Forall_r; [exact Hall |]. apply Forall_forall.
      intros r _ fk (rows & _ & ->). simpl. by rewrite !length_fmap.
  - destruct Hloop as [(before & rt & after & Hsplit & Hbefore & Hrt) Hrep].
    split; [| done]. right.
    apply fmap_app_inv in Hsplit as (before' & rest & -> & Hrest & ->).
    symmetry in Hrest. apply fmap_cons_inv in Hrest as (r & after' & -> & -> & ->).
    exists (before' ++ r :: after'), before', r, after'.
    split_and!; [done | done | | done]. rewrite Forall_fmap in Hbefore.
    eapply Forall_impl; [exact Hbefore |]. by intros r'.
Qed.

(** ** Row counts *)

Lemma wrap64_add_l a b : wrap64 (wrap64 a + b) = wrap64 (a + b).
Proof.
  unfold wrap64. f_equal.
  replace ((a + 2 ^ 63) `mod` 2 ^ 64 - 2 ^ 63 + b + 2 ^ 63)
    with ((a + 2 ^ 63) `mod` 2 ^ 64 + b) by lia.
  rewrite Z.add_mod_idemp_l by lia. f_equal. lia.
Qed.

(** The model [c'] is [c] with other row counts and more reports. *)
Definition only_row_counts (c c' : internal.Conv) : Prop :=
  ∃ rows u,
    c' = internal.with_Stats (λ st, internal.mkStats rows (internal.BadRows st) u) c.

Lemma only_row_counts_refl c : only_row_counts c c.
Proof.
  exists (internal.Rows (internal.Stats c)), (internal.UnexpectedCount (internal.Stats c)).
  destruct c as [? ? ? ? ? ? [? ? ?] ? ? ?]. reflexivity.
Qed.

Lemma only_row_counts_trans c1 c2 c3 :
  only_row_counts c1 c2 → only_row_counts c2 c3 → only_row_counts c1 c3.
Proof. intros (r1 & u1 & ->) (r2 & u2 & ->). by exists r2, u2. Qed.

Lemma only_row_counts_Unexpected msg c :
  only_row_counts c (internal.Unexpected msg c).
Proof.
  exists (internal.Rows (internal.Stats c)),
    (<[msg := index 0 (internal.UnexpectedCount (internal.Stats c)) msg + 1]>
       (internal.UnexpectedCount (internal.Stats c))).
  reflexivity.
Qed.

(** The counts that the count queries give for the tables named [name],
    in the order of the listing. *)
Definition counts_for (countQuery : postgres.schemaAndName → infoschema.countAnswer)
    (tables : list postgres.schemaAndName) (name : string) : list Z :=
  omap (λ t,
          if String_eqb (postgres.buildTableName (postgres.schema t) (postgres.name t))
               name
          then match countQuery t with
               | infoschema.Count count => Some count
               | _ => None
               end
          else None)
    tables.

Lemma setRowStats_spec countQuery t conv name :
  let conv' := infoschema.setRowStats countQuery t conv in
  only_row_counts conv conv' ∧
  internal.Rows (internal.Stats conv') !! name
  = match counts_for countQuery [t] name with
    | [] => internal.Rows (internal.Stats conv) !! name
    | count :: _ =>
        Some (wrap64 (index 0 (internal.Rows (internal.Stats conv)) name + count))
    end.
Proof.
  unfold infoschema.setRowStats, counts_for, String_eqb.
  cbn [omap list_omap].
  destruct (countQuery t) as [e | | e | count].
  - split; [apply only_row_counts_Unexpected | by case_bool_decide].
  - split; [apply only_row_counts_refl | by case_bool_decide].
  - split; [apply only_row_counts_Unexpected | by case_bool_decide].
  - split.
    { eexists _, (internal.UnexpectedCount (internal.Stats conv)). reflexivity. }
    cbn. case_bool_decide as Hname.
    + subst name. by rewrite lookup_insert_eq.
    + by rewrite lookup_insert_ne.
Qed.

Lemma setRowStats_fold countQuery tables conv name :
  let conv' := foldl (λ conv t, infoschema.setRowStats countQuery t conv) conv tables in
  only_row_counts conv conv' ∧
  internal.Rows (internal.Stats conv') !! name
  = match counts_for countQuery tables name with
    | [] => internal.Rows (internal.Stats conv) !! name
    | counts =>
        Some (wrap64 (index 0 (internal.Rows (internal.Stats conv)) name +
                      foldr Z.add 0 counts))
    end.
Proof.
  revert conv. induction tables as [|t tables IH]; intros conv.
  { split; [apply only_row_counts_refl | done]. }
  cbn [foldl]. destruct (IH (infoschema.setRowStats countQuery t conv)) as [Hf Hrows].
  destruct (setRowStats_spec countQuery t conv name) as [Hf1 Hrows1].
  split; [by eapply only_row_counts_trans |].
  rewrite Hrows. clear Hrows IH Hf Hf1.
  assert (Hcons : counts_for countQuery (t :: tables) name
                  = counts_for countQuery [t] name ++ counts_for countQuery tables name).
  { unfold counts_for. cbn [omap list_omap]. by repeat case_match. }
  rewrite Hcons. destruct (counts_for countQuery [t] name) as [|count l] eqn:Hone.
  - simpl. unfold index. by rewrite Hrows1.
  - assert (l = []) as ->.
    { unfold counts_for in Hone. cbn [omap list_omap] in Hone.
      repeat case_match; by simplify_eq. }
    cbn [app]. destruct (counts_for countQuery tables name) as [|c' l'] eqn:Hrest.
    + rewrite Hrows1. cbn [foldr]. by rewrite Z.add_0_r.
    + unfold index at 1. rewrite Hrows1. cbn [default foldr id].
      rewrite wrap64_add_l. do 2 f_equal. lia.
Qed.

Section RowStats.

Context `{postgres.Runtime}.

(** X11: [SetRowStats] adds to the row count of a table the count that
    its query gives, with 64-bit wrap-around and on top of what the count
    was; tables under one name add up, and a table whose query or scan
    fails, or gives no row, leaves its count alone.  When the listing of
    the tables fails no count changes.  Nothing of the model changes but the
    row counts and the reports. *)
Theorem SetRowStats_spec (db : postgres.DB)
    (countQuery : postgres.schemaAndName → infoschema.countAnswer)
    (conv : internal.Conv) :
  let conv' := infoschema.SetRowStats db countQuery conv in
  let rows := internal.Rows (internal.Stats conv) in
  only_row_counts conv conv' ∧
  ∀ name,
    internal.Rows (internal.Stats conv') !! name
    = match postgres.getTables db with
      | postgres.Err _ => rows !! name
      | postgres.Ok tables =>
          match counts_for countQuery tables name with
          | [] => rows !! name
          | counts => Some (wrap64 (index 0 rows name + foldr Z.add 0 counts))
          end
      end.
Proof.
  intros conv' rows. unfold conv', infoschema.SetRowStats.
  destruct (postgres.getTables db) as [tables | err].
  - split; [apply setRowStats_fold with (name := "") | intros name; apply setRowStats_fold].
  - split; [apply only_row_counts_Unexpected | done].
Qed.

End RowStats.

(** ** The type map of the conversion *)

Section TypeMapFilter.

Variable typeIssue : Type.
Variable mysqlTypeMap postgresTypeMap : gmap string (list typeIssue).

Lemma filterTypeMap_lookup (typeMap : gmap string (list typeIssue))
    (visit : list schema.Column) (n : string) :
  typemap.filterTypeMap typeIssue typeMap visit !! n
  = if bool_decide (n ∈ (λ c, schema.Name (schema.Type' c)) <$> visit)
    then Some (index [] typeMap n) else None.
Proof.
  unfold typemap.filterTypeMap.
  induction visit as [|c visit IH] using rev_ind.
  { cbn [foldl]. rewrite lookup_empty. case_bool_decide as Hin; [| done].
    by apply elem_of_nil in Hin. }
  rewrite foldl_app, fmap_app. cbn [foldl fmap list_fmap].
  set (name := schema.Name (schema.Type' c)) in *.
  set (m := foldl _ ∅ visit) in *.
  destruct (decide (n = name)) as [-> | Hne].
  - rewrite (bool_decide_true (name ∈ _ ++ [name])) by set_solver.
    destruct (m !! name) as [v|] eqn:Hm.
    + rewrite Hm. rewrite IH in Hm. by case_bool_decide.
    + by rewrite lookup_insert_eq.
  - destruct (m !! name) eqn:Hm; rewrite ?lookup_insert_ne by done; rewrite IH;
      apply (f_equal (λ b : bool, if b then Some (index [] typeMap n) else None));
      apply bool_decide_ext; set_solver.
Qed.

(** X12: [getTypeMap] refuses a missing model or an empty driver (not
    found) and a driver that is neither MySQL nor PostgreSQL (bad request);
    otherwise the map it sends has exactly the type names of the columns of
    the source schema as keys, each with the entry of the driver's type map
    (empty when the driver's map has none), so the answer does not depend on
    the order in which the loops visit the columns. *)
Theorem getTypeMap_spec (conv : option internal.Conv) (driver : string)
    (visit visit' : list schema.Column) :
  let answer := typemap.getTypeMap typeIssue mysqlTypeMap postgresTypeMap conv driver in
  let typeMap :=
    if bool_decide (driver ∈ ["mysql"; "mysqldump"]) then mysqlTypeMap
    else postgresTypeMap in
  (if bool_decide (conv = None ∨ driver = "") then
     answer visit = typemap.StatusNotFound
   else if bool_decide (driver ∈ ["mysql"; "mysqldump"; "postgres"; "pg_dump"]) then
     ∃ m, answer visit = typemap.StatusOK m ∧
       ∀ n, m !! n
            = if bool_decide (n ∈ (λ c, schema.Name (schema.Type' c)) <$> visit)
              then Some (index [] typeMap n) else None
   else answer visit = typemap.StatusBadRequest) ∧
  (visit ≡ₚ visit' → answer visit = answer visit').
Proof.
  intros answer typeMap.
  assert (Hperm : ∀ tm, visit ≡ₚ visit' →
            typemap.filterTypeMap typeIssue tm visit
            = typemap.filterTypeMap typeIssue tm visit').
  { intros tm Hp. apply map_eq. intros n. rewrite !filterTypeMap_lookup.
    apply (f_equal (λ b : bool, if b then Some (index [] tm n) else None)).
    apply bool_decide_ext. by rewrite Hp. }
  unfold answer, typeMap, typemap.getTypeMap, String_eqb.
  destruct conv as [c|]; [| by rewrite bool_decide_true by (by left)].
  destruct (decide (driver = "")) as [-> | Hd].
  { rewrite (bool_decide_true (_ ∨ _)) by (by right). done. }
  rewrite (bool_decide_false (_ ∨ _)) by (by intros [? | ?]).
  rewrite (bool_decide_false (driver = "")) by done.
  destruct (decide (driver = "mysql")) as [-> | H1].
  { simpl. split; [| intros Hp; f_equal; by apply Hperm]. eexists. split; [done |].
    apply filterTypeMap_lookup. }
  destruct (decide (driver = "mysqldump")) as [-> | H2].
  { simpl. split; [| intros Hp; f_equal; by apply Hperm]. eexists. split; [done |].
    apply filterTypeMap_lookup. }
  rewrite (bool_decide_false (driver = "mysql")),
    (bool_decide_false (driver = "mysqldump")) by done.
  rewrite (bool_decide_false (driver ∈ ["mysql"; "mysqldump"])) by set_solver.
  cbn [orb].
  destruct (decide (driver = "postgres")) as [-> | H3].
  { simpl. split; [| intros Hp; f_equal; by apply Hperm]. eexists. split; [done |].
    apply filterTypeMap_lookup. }
  destruct (decide (driver = "pg_dump")) as [-> | H4].
  { simpl. split; [| intros Hp; f_equal; by apply Hperm]. eexists. split; [done |].
    apply filterTypeMap_lookup. }
  rewrite (bool_decide_false (driver = "postgres")),
    (bool_decide_false (driver = "pg_dump")) by done.
  rewrite (bool_decide_false (driver ∈ _)) by set_solver. done.
Qed.

End TypeMapFilter.

(** ** Edits and their inverses *)

Lemma remove_first_app_last {A} (p : A → bool) (l : list A) (y : A) :
  Forall (λ x, p x = false) l → p y = true → remove_first p (l ++ [y]) = l.
Proof.
  intros Hl Hy. induction Hl as [|x l Hx _ IH]; simpl.
  - by rewrite remove_first_cons, Hy.
  - by rewrite remove_first_cons, Hx, IH.
Qed.

(** After the removal of the first element with the key [c] from a list
    with pairwise distinct keys, no element has the key [c]. *)
Lemma remove_first_gone {A} (f : A → string) (c : string) (l : list A) :
  NoDup (f <$> l) → c ∉ f <$> remove_first (λ x, String_eqb (f x) c) l.
Proof.
  induction l as [|x l IH]; [intros _; apply not_elem_of_nil |].
  rewrite fmap_cons, NoDup_cons. intros [Hx Hl].
  rewrite remove_first_cons. cbv beta. unfold String_eqb at 1.
  case_bool_decide as Hc.
  - by rewrite <- Hc.
  - rewrite fmap_cons, not_elem_of_cons. split; [done | by apply IH].
Qed.

Lemma CreateTable_eta (sp : ddl.CreateTable) :
  ddl.mkCreateTable (ddl.ctName sp) (ddl.ColNames sp) (ddl.ColDefs sp) (ddl.Pks sp)
    (ddl.Fks sp) (ddl.Parent sp) = sp.
Proof. by destruct sp. Qed.

(** X13: on a table without synthetic key, adding a column to the
    primary key appends it, ascending, at the end of the key and changes
    nothing else; if the column was not in the key, removing it from the key
    afterwards gives back the model as it was. *)
Theorem pk_added_then_removed (table colName : string) (conv : internal.Conv)
    (sp : ddl.CreateTable) :
  internal.SpSchema conv !! table = Some sp →
  internal.SyntheticPKeys conv !! table = None →
  web.pkChanged "ADDED" table colName conv
  = internal.with_SpSchema
      (<[table := ddl.with_Pks (λ pks, pks ++ [ddl.mkIndexKey colName false]) sp]>)
      conv ∧
  ((colName ∉ ddl.Col <$> ddl.Pks sp) →
   web.pkChanged "REMOVED" table colName (web.pkChanged "ADDED" table colName conv)
   = conv).
Proof.
  intros Hsp Hsyn.
  assert (Hadd : web.pkChanged "ADDED" table colName conv
                 = internal.with_SpSchema
                     (<[table := ddl.with_Pks
                                   (λ pks, pks ++ [ddl.mkIndexKey colName false]) sp]>)
                     conv).
  { unfold web.pkChanged. cbn [String_eqb]. rewrite Hsyn.
    by rewrite (index_lookup _ _ _ _ Hsp). }
  split; [done |]. intros Hnew. rewrite Hadd.
  apply Conv_eq; conv_proj; try done.
  rewrite index_insert_eq, insert_insert_eq. unfold String_eqb.
  rewrite (bool_decide_true ("REMOVED" = "REMOVED")) by done.
  rewrite (bool_decide_false ("REMOVED" = "ADDED")) by done.
  unfold ddl.with_Pks. cbn [ddl.ctName ddl.ColNames ddl.ColDefs ddl.Pks ddl.Fks ddl.Parent].
  unfold web.dropPk. rewrite remove_first_app_last.
  - rewrite CreateTable_eta. by apply insert_id.
  - apply Forall_forall. intros pk Hpk. apply bool_decide_eq_false.
    intros Hcol. apply Hnew, list_elem_of_fmap. by exists pk.
  - by apply bool_decide_eq_true.
Qed.

Lemma pk_added_then_removed_witness :
  web.pkChanged "REMOVED" "orders" "total"
    (web.pkChanged "ADDED" "orders" "total" sample_conv) = sample_conv.
Proof.
  apply (proj2 (pk_added_then_removed "orders" "total" sample_conv sample_sp
                  eq_refl eq_refl)).
  by_compute.
Defined.

Section RetiredKey.

Context `{postgres.Runtime}.

(** X14: adding a key column to a table that has a synthetic key takes
    the synthetic column out of the table's column names, definitions and
    key, and appends the new column to the key; the entry of the synthetic
    key in [SyntheticPKeys] stays, so [ConvertSQLRow] on the edited model
    still ends every converted row of the table with the synthetic column,
    which the table no longer has. *)
Theorem added_key_retires_synthetic_column (table colName : string)
    (conv : internal.Conv) (sp : ddl.CreateTable) (sPk : internal.SyntheticPKey) :
  internal.SpSchema conv !! table = Some sp →
  internal.SyntheticPKeys conv !! table = Some sPk →
  NoDup (ddl.ColNames sp) → NoDup (ddl.Col <$> ddl.Pks sp) →
  internal.Col sPk ≠ colName →
  let conv' := web.pkChanged "ADDED" table colName conv in
  let sp' := index ddl.zeroCreateTable (internal.SpSchema conv') table in
  (internal.Col sPk ∉ ddl.ColNames sp') ∧
  ddl.ColDefs sp' ≫= (.!! internal.Col sPk) = None ∧
  (internal.Col sPk ∉ ddl.Col <$> ddl.Pks sp') ∧
  last (ddl.Pks sp') = Some (ddl.mkIndexKey colName false) ∧
  internal.SyntheticPKeys conv' !! table = Some sPk ∧
  ∀ srcTable srcCols srcSchema spCols spSchema srcVals cs vs c,
    postgres.ConvertSQLRow conv' srcTable srcCols srcSchema table spCols spSchema
      srcVals = Some (cs, vs, None, c) →
    last cs = Some (internal.Col sPk).
Proof.
  intros Hsp Hsyn Hnames Hpks Hne conv' sp'.
  assert (Hsp' : sp' = ddl.with_Pks (λ pks, pks ++ [ddl.mkIndexKey colName false])
                         (ddl.with_Pks (web.dropPk (internal.Col sPk))
                            (ddl.with_ColDefs (fmap (delete (internal.Col sPk)))
                               (ddl.with_ColNames (web.dropName (internal.Col sPk))
                                  sp)))).
  { unfold sp', conv', web.pkChanged. cbn [String_eqb]. rewrite Hsyn.
    rewrite (index_lookup _ _ _ _ Hsp). conv_proj. by rewrite index_insert_eq. }
  assert (Hkeys : internal.SyntheticPKeys conv' = internal.SyntheticPKeys conv)
    by done.
  rewrite Hsp'. unfold ddl.with_Pks, ddl.with_ColDefs, ddl.with_ColNames.
  cbn [ddl.ctName ddl.ColNames ddl.ColDefs ddl.Pks ddl.Fks ddl.Parent].
  split_and!.
  - pose proof (remove_first_gone id (internal.Col sPk) (ddl.ColNames sp)) as Hgone.
    rewrite !list_fmap_id in Hgone. by apply Hgone.
  - destruct (ddl.ColDefs sp) as [g|]; [| done]. simpl. apply lookup_delete_eq.
  - rewrite fmap_app, elem_of_app. intros [Hin | Hin].
    + by apply (remove_first_gone ddl.Col (internal.Col sPk) (ddl.Pks sp)).
    + simpl in Hin. by apply list_elem_of_singleton in Hin.
  - apply last_snoc.
  - by rewrite Hkeys.
  - intros srcTable srcCols srcSchema spCols spSchema srcVals cs vs c.
    unfold postgres.ConvertSQLRow. rewrite Hkeys, Hsyn.
    destruct (postgres.convertColumns _ _ _ _ _ _ _ _ _ _) as [[e | [cs0 vs0]]|];
      cbn [mbind option_bind]; [done | | done].
    intros [= <- _ _]. apply last_snoc.
Qed.

End RetiredKey.

Lemma added_key_retires_synthetic_column_witness :
  ("synth_id" ∉ ddl.ColNames
                  (index ddl.zeroCreateTable
                     (internal.SpSchema (web.pkChanged "ADDED" "events" "n" events_conv))
                     "events")) ∧
  internal.SyntheticPKeys (web.pkChanged "ADDED" "events" "n" events_conv) !! "events"
  = Some (internal.mkSyntheticPKey "synth_id" 0).
Proof.
  destruct (@added_key_retires_synthetic_column sample_runtime "events" "n"
              events_conv events_sp (internal.mkSyntheticPKey "synth_id" 0))
    as (Hnames & _ & _ & _ & Hkey & _).
  - reflexivity.
  - reflexivity.
  - by_compute.
  - by_compute.
  - done.
  - split; [exact Hnames | exact Hkey].
Defined.

(** X15: on a column with a definition, adding the not-null constraint
    sets the flag of the column and leaves its name, type and comment and the
    other columns alone; if the column was nullable, removing the constraint
    afterwards gives back the model as it was. *)
Theorem not_null_added_then_removed (table colName : string) (conv : internal.Conv)
    (sp : ddl.CreateTable) (g : gmap string ddl.ColumnDef) (cd : ddl.ColumnDef) :
  internal.SpSchema conv !! table = Some sp →
  ddl.ColDefs sp = Some g → g !! colName = Some cd →
  ∃ conv1,
    web.updateNotNull "ADDED" table colName conv = Some conv1 ∧
    conv1 = internal.with_SpSchema
              (<[table := ddl.with_ColDefs
                            (λ _, Some (<[colName := ddl.with_NotNull true cd]> g)) sp]>)
              conv ∧
    (ddl.NotNull cd = false →
     web.updateNotNull "REMOVED" table colName conv1 = Some conv).
Proof.
  intros Hsp Hg Hcd.
  assert (Hadd : web.updateNotNull "ADDED" table colName conv
                 = Some (internal.with_SpSchema
                           (<[table := ddl.with_ColDefs
                                         (λ _, Some (<[colName := ddl.with_NotNull true cd]> g))
                                         sp]>) conv)).
  { unfold web.updateNotNull, String_eqb. rewrite (index_lookup _ _ _ _ Hsp).
    rewrite (bool_decide_true ("ADDED" = "ADDED")) by done.
    unfold web.setColDef, web.colDef. rewrite Hg. cbn [mbind option_bind].
    by rewrite Hcd. }
  eexists. split; [exact Hadd |]. split; [done |]. intros Hnn.
  unfold web.updateNotNull, String_eqb. conv_proj.
  rewrite index_insert_eq.
  rewrite (bool_decide_false ("REMOVED" = "ADDED")) by done.
  rewrite (bool_decide_true ("REMOVED" = "REMOVED")) by done.
  unfold web.setColDef, web.colDef, ddl.with_ColDefs.
  cbn [ddl.ctName ddl.ColNames ddl.ColDefs ddl.Pks ddl.Fks ddl.Parent mbind option_bind].
  rewrite lookup_insert_eq. cbn [default]. f_equal.
  apply Conv_eq; conv_proj; try done.
  rewrite insert_insert_eq. apply insert_id. rewrite Hsp. f_equal.
  rewrite insert_insert_eq. clear Hsp Hadd.
  destruct sp as [n names defs pks fks parent]. simpl in Hg |- *. subst defs.
  do 2 f_equal. symmetry. apply insert_id. rewrite Hcd. f_equal.
  destruct cd as [cn t nn cm]. simpl in *. by rewrite Hnn.
Qed.

Lemma not_null_added_then_removed_witness :
  ∃ conv1,
    web.updateNotNull "ADDED" "orders" "total" sample_conv = Some conv1 ∧
    web.updateNotNull "REMOVED" "orders" "total" conv1 = Some sample_conv.
Proof.
  destruct (not_null_added_then_removed "orders" "total" sample_conv sample_sp
              {[ "order_id" := ddl.mkColumnDef "order_id"
                                 (ddl.mkType ddl.Int64 0 false) true "";
                 "total" := ddl.mkColumnDef "total"
                              (ddl.mkType ddl.Numeric 0 false) false "";
                 "tags" := ddl.mkColumnDef "tags"
                             (ddl.mkType ddl.String ddl.MaxLength true) false "";
                 "grid" := ddl.mkColumnDef "grid"
                             (ddl.mkType ddl.String ddl.MaxLength false) false "" ]}
              (ddl.mkColumnDef "total" (ddl.mkType ddl.Numeric 0 false) false ""))
    as (conv1 & Hadd & _ & Hback).
  - reflexivity.
  - reflexivity.
  - reflexivity.
  - exists conv1. split; [exact Hadd | by apply Hback].
Defined.

(** ** Renaming a column, there and back *)

Definition rename_in (a b x : string) : string :=
  if String_eqb x a then b else x.

Definition rename_key (a b : string) (pk : ddl.IndexKey) : ddl.IndexKey :=
  if String_eqb (ddl.Col pk) a then ddl.mkIndexKey b (ddl.Desc pk) else pk.

Lemma rename_in_absent a b (l : list string) : a ∉ l → rename_in a b <$> l = l.
Proof.
  intros Ha. induction l as [|x l IH]; [done |].
  apply not_elem_of_cons in Ha as [Hx Hl]. rewrite fmap_cons, IH by done.
  unfold rename_in, String_eqb. by rewrite bool_decide_false by done.
Qed.

Lemma rename_key_absent a b (pks : list ddl.IndexKey) :
  a ∉ ddl.Col <$> pks → rename_key a b <$> pks = pks.
Proof.
  intros Ha. induction pks as [|pk pks IH]; [done |].
  rewrite fmap_cons in Ha. apply not_elem_of_cons in Ha as [Hx Hl].
  rewrite fmap_cons, IH by done.
  unfold rename_key, String_eqb. by rewrite bool_decide_false by done.
Qed.

(** The loop that renames the first column named [a] renames, in a list
    without repetition, the column named [a]. *)
Lemma insert_first a b (l : list string) :
  NoDup l →
  match find_index (λ col, String_eqb col a) l with
  | Some i => <[i := b]> l
  | None => l
  end = rename_in a b <$> l.
Proof.
  induction l as [|x l IH]; [done |]. rewrite NoDup_cons. intros [Hx Hl].
  cbn [find_index fmap list_fmap]. unfold rename_in at 1, String_eqb at 1 3.
  case_bool_decide as Hxa.
  - subst x. simpl. by rewrite rename_in_absent.
  - specialize (IH Hl). destruct (find_index _ l) as [i|]; simpl; by rewrite <- IH.
Qed.

Lemma alter_first a b (pks : list ddl.IndexKey) :
  NoDup (ddl.Col <$> pks) →
  match find_index (λ pk, String_eqb (ddl.Col pk) a) pks with
  | Some i => alter (λ pk, ddl.mkIndexKey b (ddl.Desc pk)) i pks
  | None => pks
  end = rename_key a b <$> pks.
Proof.
  induction pks as [|pk pks IH]; [done |]. rewrite fmap_cons, NoDup_cons.
  intros [Hx Hl].
  cbn [find_index fmap list_fmap]. unfold rename_key at 1, String_eqb at 1 3.
  case_bool_decide as Hxa.
  - simpl. rewrite rename_key_absent; [done | by rewrite <- Hxa].
  - specialize (IH Hl). destruct (find_index _ pks) as [i|]; simpl; by rewrite <- IH.
Qed.

(** The table after the renaming of its column [a], defined by [cd], to
    [b]: the column keeps its place in the column names and in the key, and
    its definition moves to the new name. *)
Definition renamed_table (a b : string) (sp : ddl.CreateTable)
    (g : gmap string ddl.ColumnDef) (cd : ddl.ColumnDef) : ddl.CreateTable :=
  ddl.mkCreateTable (ddl.ctName sp) (rename_in a b <$> ddl.ColNames sp)
    (Some (delete a (<[b := ddl.mkColumnDef b (ddl.T cd) (ddl.NotNull cd)
                             (ddl.Comment cd)]> g)))
    (rename_key a b <$> ddl.Pks sp) (ddl.Fks sp) (ddl.Parent sp).

(** The model after the renaming. *)
Definition renamed_model (a b table src : string) (conv : internal.Conv)
    (sp : ddl.CreateTable) (g : gmap string ddl.ColumnDef) (cd : ddl.ColumnDef)
    (nc nc' : internal.NameAndCols) : internal.Conv :=
  let sc := index "" (internal.Cols nc) a in
  internal.mkConv
    (<[table := renamed_table a b sp g cd]> (internal.SpSchema conv))
    (internal.SyntheticPKeys conv) (internal.SrcSchema conv) (internal.Issues conv)
    (<[src := internal.mkNameAndCols (internal.Name nc')
                (<[sc := b]> (internal.Cols nc'))]> (internal.ToSpanner conv))
    (<[table := internal.mkNameAndCols (internal.Name nc)
                  (delete a (<[b := sc]> (internal.Cols nc)))]>
       (internal.ToSource conv))
    (internal.Stats conv) (internal.sampleBadRows conv) (internal.dataMode conv)
    (internal.Location conv).

Lemma renameColumn_result a b table src conv sp g cd nc nc' :
  internal.SpSchema conv !! table = Some sp →
  NoDup (ddl.ColNames sp) → NoDup (ddl.Col <$> ddl.Pks sp) →
  ddl.ColDefs sp = Some g → g !! a = Some cd →
  internal.ToSource conv !! table = Some nc →
  internal.ToSpanner conv !! src = Some nc' →
  web.renameColumn b table a src conv
  = Some (renamed_model a b table src conv sp g cd nc nc').
Proof.
  intros Hsp Hnames Hpks Hg Hcd Hnc Hnc'. unfold web.renameColumn.
  rewrite (index_lookup _ _ _ _ Hsp), (colsOf_lookup _ _ _ Hnc).
  unfold internal.setCol. rewrite Hnc'. cbn [mbind option_bind]. conv_proj.
  rewrite Hnc. cbn [mbind option_bind]. f_equal.
  apply Conv_eq; conv_proj; try done.
  - unfold renamed_model. conv_proj. f_equal.
    pose proof (insert_first a b (ddl.ColNames sp) Hnames) as Hn.
    pose proof (alter_first a b (ddl.Pks sp) Hpks) as Hp.
    destruct sp as [n names defs pks fks parent]. simpl in Hg, Hn, Hp |- *.
    subst defs.
    unfold renamed_table.
    cbn [ddl.ctName ddl.ColNames ddl.ColDefs ddl.Pks ddl.Fks ddl.Parent].
    rewrite <- Hn, <- Hp. clear Hn Hp.
    destruct (find_index _ names) as [i|];
      unfold ddl.with_ColNames;
      cbn [ddl.ctName ddl.ColNames ddl.ColDefs ddl.Pks ddl.Fks ddl.Parent
           mbind option_bind];
      rewrite Hcd; unfold ddl.with_ColDefs;
      cbn [ddl.ctName ddl.ColNames ddl.ColDefs ddl.Pks ddl.Fks ddl.Parent
           fmap option_fmap option_map];
      destruct (find_index _ pks) as [j|]; done.
  - unfold renamed_model. conv_proj.
    by rewrite (deleteCol_lookup _ _ _ _ (lookup_insert_eq _ _ _)), insert_insert_eq.
Qed.

Lemma NoDup_rename_in a b (l : list string) :
  NoDup l → b ∉ l → NoDup (rename_in a b <$> l).
Proof.
  intros Hl Hb. induction Hl as [|x l Hx Hl IH]; [constructor |].
  apply not_elem_of_cons in Hb as [Hbx Hbl].
  rewrite fmap_cons. constructor; [| by apply IH].
  rewrite list_elem_of_fmap. intros (y & Hxy & Hy).
  unfold rename_in, String_eqb in Hxy. repeat case_bool_decide; congruence.
Qed.

Lemma rename_in_back a b (l : list string) :
  b ∉ l → rename_in b a <$> (rename_in a b <$> l) = l.
Proof.
  intros Hb. induction l as [|x l IH]; [done |].
  apply not_elem_of_cons in Hb as [Hbx Hbl]. rewrite !fmap_cons, IH by done.
  f_equal. unfold rename_in, String_eqb. repeat case_bool_decide; congruence.
Qed.

Lemma rename_key_col a b (pks : list ddl.IndexKey) :
  ddl.Col <$> (rename_key a b <$> pks) = rename_in a b <$> (ddl.Col <$> pks).
Proof.
  induction pks as [|pk pks IH]; [done |]. rewrite !fmap_cons, IH. f_equal.
  unfold rename_key, rename_in. by destruct (String_eqb _ _).
Qed.

Lemma rename_key_back a b (pks : list ddl.IndexKey) :
  b ∉ ddl.Col <$> pks → rename_key b a <$> (rename_key a b <$> pks) = pks.
Proof.
  intros Hb. induction pks as [|pk pks IH]; [done |].
  rewrite fmap_cons in Hb. apply not_elem_of_cons in Hb as [Hbx Hbl].
  rewrite !fmap_cons, IH by done. f_equal.
  unfold rename_key, String_eqb. destruct pk as [c d]. simpl in *.
  repeat (case_bool_decide; simpl in * ); congruence.
Qed.

(** X16: in a model where the table's column names and key columns are
    listed once, the column [a] has a definition under its own name and is
    mapped to a source column that maps back to it, and [b] is a name that
    the table does not use, renaming [a] to [b] keeps the place of the column
    in the column names and in the key (with its order), moves its
    definition (type, not-null flag, comment) to [b] and re-points both
    correspondence maps; renaming [b] back to [a] gives back the model as it
    was. *)
Theorem rename_there_and_back (a b table src : string) (conv : internal.Conv)
    (sp : ddl.CreateTable) (g : gmap string ddl.ColumnDef) (cd : ddl.ColumnDef)
    (nc nc' : internal.NameAndCols) (sc : string) :
  internal.SpSchema conv !! table = Some sp →
  NoDup (ddl.ColNames sp) → NoDup (ddl.Col <$> ddl.Pks sp) →
  ddl.ColDefs sp = Some g → g !! a = Some cd → ddl.cdName cd = a →
  internal.ToSource conv !! table = Some nc → internal.Cols nc !! a = Some sc →
  internal.ToSpanner conv !! src = Some nc' → internal.Cols nc' !! sc = Some a →
  b ≠ a → b ∉ ddl.ColNames sp → b ∉ ddl.Col <$> ddl.Pks sp → g !! b = None →
  internal.Cols nc !! b = None →
  ∃ conv1,
    web.renameColumn b table a src conv = Some conv1 ∧
    internal.SpSchema conv1 !! table = Some (renamed_table a b sp g cd) ∧
    internal.colsOf (internal.ToSource conv1) table !! b = Some sc ∧
    internal.colsOf (internal.ToSource conv1) table !! a = None ∧
    internal.colsOf (internal.ToSpanner conv1) src !! sc = Some b ∧
    web.renameColumn a table b src conv1 = Some conv.
Proof.
  intros Hsp Hnames Hpks Hg Hcd Hname Hnc Hsc Hnc' Hback Hne Hbn Hbp Hgb Hcb.
  exists (renamed_model a b table src conv sp g cd nc nc').
  assert (Hsc' : index "" (internal.Cols nc) a = sc) by (unfold index; by rewrite Hsc).
  split; [by apply renameColumn_result |].
  unfold renamed_model. rewrite Hsc'. conv_proj.
  split; [by rewrite lookup_insert_eq |].
  rewrite !(colsOf_lookup _ _ _ (lookup_insert_eq _ _ _)). cbn [internal.Cols].
  split; [by rewrite lookup_delete_ne, lookup_insert_eq by done |].
  split; [by rewrite lookup_delete_eq |].
  split; [by rewrite lookup_insert_eq |].
  erewrite (renameColumn_result b a table src _ (renamed_table a b sp g cd));
    [| conv_proj; apply lookup_insert_eq
     | by apply NoDup_rename_in
     | simpl; rewrite rename_key_col; by apply NoDup_rename_in
     | reflexivity
     | by rewrite lookup_delete_ne, lookup_insert_eq by done
     | conv_proj; apply lookup_insert_eq
     | conv_proj; apply lookup_insert_eq].
  f_equal. unfold renamed_model. conv_proj. cbn [internal.Cols internal.Name].
  assert (Hsc2 : index "" (delete a (<[b := sc]> (internal.Cols nc))) b = sc).
  { unfold index. by rewrite lookup_delete_ne, lookup_insert_eq by done. }
  rewrite Hsc2.
  apply Conv_eq; conv_proj; try done.
  - rewrite insert_insert_eq. apply insert_id. rewrite Hsp. f_equal.
    unfold renamed_table.
    cbn [ddl.ctName ddl.ColNames ddl.ColDefs ddl.Pks ddl.Fks ddl.Parent
         ddl.T ddl.NotNull ddl.Comment].
    rewrite rename_in_back, rename_key_back by done.
    clear Hsp. destruct sp as [n names defs pks fks parent]. simpl in Hg |- *.
    subst defs. do 2 f_equal. apply map_eq. intros i.
    destruct (decide (i = b)) as [-> | Hib]; [by rewrite lookup_delete_eq, Hgb |].
    rewrite lookup_delete_ne by done.
    destruct (decide (i = a)) as [-> | Hia].
    + rewrite lookup_insert_eq, Hcd. f_equal. destruct cd as [cn t nn cm].
      simpl in *. by rewrite Hname.
    + rewrite lookup_insert_ne, lookup_delete_ne, lookup_insert_ne by done. done.
  - rewrite insert_insert_eq. apply insert_id. rewrite Hnc'. f_equal.
    rewrite insert_insert_eq. destruct nc' as [n' c']. simpl in *. f_equal.
    symmetry. by apply insert_id.
  - rewrite insert_insert_eq. apply insert_id. rewrite Hnc. f_equal.
    destruct nc as [n0 c0]. simpl in *. f_equal. apply map_eq. intros i.
    destruct (decide (i = b)) as [-> | Hib]; [by rewrite lookup_delete_eq, Hcb |].
    rewrite lookup_delete_ne by done.
    destruct (decide (i = a)) as [-> | Hia].
    + by rewrite lookup_insert_eq, Hsc.
    + rewrite lookup_insert_ne, lookup_delete_ne, lookup_insert_ne by done. done.
Qed.

Lemma rename_there_and_back_witness :
  ∃ conv1,
    web.renameColumn "amount" "orders" "total" "sales.orders" sample_conv
    = Some conv1 ∧
    web.renameColumn "total" "orders" "amount" "sales.orders" conv1
    = Some sample_conv.
Proof.
  destruct (rename_there_and_back "total" "amount" "orders" "sales.orders"
              sample_conv sample_sp
              {[ "order_id" := ddl.mkColumnDef "order_id"
                                 (ddl.mkType ddl.Int64 0 false) true "";
                 "total" := ddl.mkColumnDef "total"
                              (ddl.mkType ddl.Numeric 0 false) false "";
                 "tags" := ddl.mkColumnDef "tags"
                             (ddl.mkType ddl.String ddl.MaxLength true) false "";
                 "grid" := ddl.mkColumnDef "grid"
                             (ddl.mkType ddl.String ddl.MaxLength false) false "" ]}
              (ddl.mkColumnDef "total" (ddl.mkType ddl.Numeric 0 false) false "")
              (internal.mkNameAndCols "sales.orders"
                 {[ "order_id" := "id"; "total" := "total"; "tags" := "tags";
                    "grid" := "grid" ]})
              (internal.mkNameAndCols "orders"
                 {[ "id" := "order_id"; "total" := "total"; "tags" := "tags";
                    "grid" := "grid" ]})
              "total")
    as (conv1 & Hthere & _ & _ & _ & _ & Hback);
    [reflexivity | by_compute | by_compute | reflexivity | reflexivity
     | reflexivity | reflexivity | reflexivity | reflexivity | reflexivity
     | done | by_compute | by_compute | reflexivity | reflexivity |].
  exists conv1. split; [exact Hthere | exact Hback].
Defined.

(** ** Edits of a table that the schema does not have *)

Section AbsentTable.

Variable toSpannerTypeMySQL toSpannerTypePostgres :
  string → string → list Z → ddl.Type_ * list internal.SchemaIssue.

Local Abbreviation updateType := (web.updateType toSpannerTypeMySQL toSpannerTypePostgres).
Local Abbreviation setTypeMapGlobal :=
  (web.setTypeMapGlobal toSpannerTypeMySQL toSpannerTypePostgres).

(** X17: the edits do not check that the table exists.  On a table that
    the Spanner schema does not have, removing a column stores an empty table
    under the name, adding a key column stores a table that has nothing but
    that key column, and setting or clearing the not-null flag and changing
    the type (with a supported driver) panic on the nil map of column
    definitions; renaming panics when the table has no entry in
    [ToSource]. *)
Theorem edits_of_absent_table (driver table colName src other : string)
    (conv : internal.Conv) :
  internal.SpSchema conv !! table = None →
  internal.SpSchema (web.removeColumn table colName src conv) !! table
  = Some ddl.zeroCreateTable ∧
  internal.SpSchema (web.pkChanged "ADDED" table colName conv) !! table
  = Some (ddl.mkCreateTable "" [] None [ddl.mkIndexKey colName false] [] "") ∧
  web.updateNotNull "ADDED" table colName conv = None ∧
  web.updateNotNull "REMOVED" table colName conv = None ∧
  (supported_driver driver → updateType driver other table colName src conv = None) ∧
  (internal.ToSource conv !! table = None →
   web.renameColumn other table colName src conv = None).
Proof.
  intros Hsp.
  assert (Hzero : index ddl.zeroCreateTable (internal.SpSchema conv) table
                  = ddl.zeroCreateTable) by (unfold index; by rewrite Hsp).
  split_and!.
  - unfold web.removeColumn. conv_proj. by rewrite Hzero, lookup_insert_eq.
  - unfold web.pkChanged. rewrite Hzero. conv_proj. rewrite lookup_insert_eq.
    cbn [String_eqb]. by destruct (internal.SyntheticPKeys conv !! table).
  - unfold web.updateNotNull. by rewrite Hzero.
  - unfold web.updateNotNull. by rewrite Hzero.
  - intros Hdrv. unfold web.updateType. rewrite Hzero.
    rewrite (mapType_supported _ _ _ _ _ _ Hdrv).
    destruct (web.retyped _ _) as [ty issues].
    by destruct (web.setIssues _ _ _ _).
  - intros Hsrc. unfold web.renameColumn, internal.setCol.
    destruct (internal.ToSpanner conv !! src); cbn [mbind option_bind]; [| done].
    conv_proj. by rewrite Hsrc.
Qed.

(** X18: [setTypeMapGlobal] changes nothing, whatever the order of the
    visit, when the type map of the request is empty, and also when the
    driver is none of the supported ones: it then stops at the first column
    whose source type is in the map, before any change. *)
Theorem setTypeMapGlobal_noop (driver : string) (typeMap : gmap string string)
    (visit : list (string * string)) (conv : internal.Conv) :
  typeMap = ∅ ∨ ¬ supported_driver driver →
  setTypeMapGlobal driver typeMap visit conv = Some conv.
Proof.
  intros Hnoop. induction visit as [|[t col] visit IH]; [done |].
  cbn [web.setTypeMapGlobal]. unfold web.setTypeMapGlobal_col.
  destruct (typeMap !! _) as [newType|] eqn:Hty; [| exact IH].
  destruct Hnoop as [-> | Hdrv]; [by rewrite lookup_empty in Hty |].
  assert (Hmap : ∀ s n m,
    web.mapType toSpannerTypeMySQL toSpannerTypePostgres driver s n m = None).
  { intros s n m. unfold web.mapType, String_eqb.
    repeat case_bool_decide; simpl; try done;
      exfalso; apply Hdrv; unfold supported_driver; subst; set_solver. }
  by rewrite Hmap.
Qed.

End AbsentTable.

Lemma edits_of_absent_table_witness :
  internal.SpSchema (web.removeColumn "ghost" "c" "" sample_conv) !! "ghost"
  = Some ddl.zeroCreateTable ∧
  web.updateNotNull "ADDED" "ghost" "c" sample_conv = None.
Proof.
  destruct (edits_of_absent_table sample_mapper sample_mapper "postgres" "ghost" "c"
              "" "INT64" sample_conv) as (Hrm & _ & Hnn & _).
  - reflexivity.
  - split; [exact Hrm | exact Hnn].
Defined.

Lemma setTypeMapGlobal_noop_witness :
  web.setTypeMapGlobal sample_mapper sample_mapper "oracle" {[ "int4" := "STRING" ]}
    [("orders", "grid"); ("orders", "total")] sample_conv = Some sample_conv.
Proof.
  apply (setTypeMapGlobal_noop sample_mapper sample_mapper "oracle").
  right. unfold supported_driver. by_compute.
Defined.

(** ** The rating grows with the warnings *)

(** The labels of [rateSchema], from the best to the worst. *)
Definition severity (label : string) : nat :=
  if String_eqb label "GRAY" then 0
  else if String_eqb label "GREEN" then 1
  else if String_eqb label "BLUE" then 2
  else if String_eqb label "YELLOW" then 3
  else 4.

(** X19: for a given number of columns and a given answer to whether
    the key is missing, more warnings never give a better label: the
    severity of the label of [rateSchema] grows with the number of
    warnings. *)
Theorem rateSchema_monotone (cols warnings warnings' : Z) (missingPKey : bool) :
  0 ≤ warnings → warnings ≤ warnings' →
  (severity (web.rateSchema cols warnings missingPKey)
   ≤ severity (web.rateSchema cols warnings' missingPKey))%nat.
Proof.
  intros H0 Hle. unfold web.rateSchema.
  destruct missingPKey; cbn [negb andb];
    repeat (case_bool_decide; cbn [negb andb]);
    try (vm_compute; lia); lia.
Qed.

Lemma rateSchema_monotone_witness :
  (severity (web.rateSchema 40 1 false) ≤ severity (web.rateSchema 40 2 false))%nat.
Proof. apply rateSchema_monotone; lia. Defined.

(** ** A row shorter than its columns *)

Section ShortRow.

Context `{postgres.Runtime}.

Lemma convertColumns_short conv srcTable srcSchema spCols spSchema
    (srcVals : list postgres.sqlval) i todo cs vs :
  (i ≤ length spCols)%nat → (i ≤ length srcVals)%nat →
  (length spCols < i + length todo)%nat ∨ (length srcVals < i + length todo)%nat →
  match postgres.convertColumns conv srcTable srcSchema spCols spSchema srcVals
          i todo cs vs with
  | Some (inr _) => False
  | _ => True
  end.
Proof.
  revert i cs vs. induction todo as [|c todo IH]; intros i cs vs Hsp Hvals Hshort.
  { simpl in Hshort. lia. }
  cbn [postgres.convertColumns].
  destruct (spCols !! i) as [spc|] eqn:Hspc; cbn [mbind option_bind]; [| done].
  apply lookup_lt_Some in Hspc.
  destruct (schema.ColDefs srcSchema !! c) as [srcCd|]; [| done].
  destruct (ddl.ColDefs spSchema ≫= (.!! spc)) as [spCd|]; [| done].
  destruct (srcVals !! i) as [v|] eqn:Hv; cbn [mbind option_bind]; [| done].
  apply lookup_lt_Some in Hv.
  assert (Hnext : (length spCols < S i + length todo)%nat ∨
                  (length srcVals < S i + length todo)%nat)
    by (simpl in Hshort; lia).
  destruct (postgres.is_nil v); [apply IH; [lia | lia | done] |].
  destruct (if ddl.IsArray (ddl.T spCd) then _ else _); [| done].
  apply IH; [lia | lia | done].
Qed.

(** X20: a row with fewer Spanner columns or fewer values than source
    columns is never converted: [ConvertSQLRow] either returns an error for
    a column that comes before the missing position, or panics on the index
    out of range. *)
Theorem short_row_never_converts (conv : internal.Conv) (srcTable : string)
    (srcCols : list string) (srcSchema : schema.Table) (spTable : string)
    (spCols : list string) (spSchema : ddl.CreateTable)
    (srcVals : list postgres.sqlval) :
  (length spCols < length srcCols)%nat ∨ (length srcVals < length srcCols)%nat →
  postgres.ConvertSQLRow conv srcTable srcCols srcSchema spTable spCols spSchema
    srcVals = None ∨
  ∃ err,
    postgres.ConvertSQLRow conv srcTable srcCols srcSchema spTable spCols spSchema
      srcVals = Some ([], [], Some err, conv).
Proof.
  intros Hshort. unfold postgres.ConvertSQLRow.
  pose proof (convertColumns_short conv srcTable srcSchema spCols spSchema srcVals
                0 srcCols [] []) as Hloop.
  destruct (postgres.convertColumns _ _ _ _ _ _ _ _ _ _) as [[e | r]|];
    cbn [mbind option_bind].
  - right. by exists e.
  - destruct Hloop; [lia | lia | simpl; lia].
  - by left.
Qed.

End ShortRow.

Lemma short_row_never_converts_witness :
  @postgres.ConvertSQLRow sample_runtime events_conv "sales.events"
    ["msg"; "n"] events_src "events" ["msg"] events_sp
    [postgres.SqlString "a"; postgres.SqlInt64 1] = None ∨
  ∃ err,
    @postgres.ConvertSQLRow sample_runtime events_conv "sales.events"
      ["msg"; "n"] events_src "events" ["msg"] events_sp
      [postgres.SqlString "a"; postgres.SqlInt64 1]
    = Some ([], [], Some err, events_conv).
Proof.
  apply (@short_row_never_converts sample_runtime events_conv "sales.events"
           ["msg"; "n"] events_src "events" ["msg"] events_sp
           [postgres.SqlString "a"; postgres.SqlInt64 1]).
  left. simpl. lia.
Defined.

(** ** A parent without key *)

(** X21: a foreign key whose parent has no synthetic key and no key
    column in the Spanner schema (a table that the schema does not have, for
    one) passes the prefix check whatever its columns are: when it is the
    first foreign key of a table without synthetic key,
    [checkForInterleavedTables] places the table under that parent. *)
Theorem keyless_parent_is_chosen (driver table : string) (conv : internal.Conv)
    (fk : ddl.Foreignkey) (rest : list ddl.Foreignkey) :
  driver ≠ "" →
  internal.SyntheticPKeys conv !! table = None →
  ddl.Fks (index ddl.zeroCreateTable (internal.SpSchema conv) table) = fk :: rest →
  internal.SyntheticPKeys conv !! ddl.ReferTable fk = None →
  ddl.Pks (index ddl.zeroCreateTable (internal.SpSchema conv) (ddl.ReferTable fk))
  = [] →
  web.checkPrimaryKeyPrefix table (ddl.ReferTable fk) fk conv = Some true ∧
  web.checkForInterleavedTables driver table conv
  = Some (interleaved table 0 (ddl.ReferTable fk) conv,
          Some (if String_eqb (ddl.ReferTable fk) ""
                then web.mkTableInterleaveStatus false "" "No valid prefix"
                else web.mkTableInterleaveStatus true (ddl.ReferTable fk) "")).
Proof.
  intros Hdrv Hsyn Hfks Hpsyn Hkeyless.
  assert (Hcheck : web.checkPrimaryKeyPrefix table (ddl.ReferTable fk) fk conv
                   = Some true).
  { unfold web.checkPrimaryKeyPrefix. rewrite Hkeyless. cbn [length].
    by rewrite bool_decide_true by lia. }
  split; [done |].
  unfold web.checkForInterleavedTables, String_eqb.
  rewrite (bool_decide_false (driver = "")) by done.
  rewrite (bool_decide_false (is_Some _)) by (rewrite Hsyn; by intros [? ?]).
  cbn [web.Possible web.Parent]. rewrite Hfks. cbn [web.interleaveLoop].
  rewrite (bool_decide_false (is_Some _)) by (rewrite Hpsyn; by intros [? ?]).
  rewrite Hcheck. cbn [mbind option_bind web.Parent web.Possible web.Comment].
  unfold interleaved, web.removeFk. rewrite Hfks.
  case_bool_decide as Hname; [by rewrite Hname | done].
Qed.

(** [child] refers to [ghost], a table that the schema does not have. *)
Definition orphan_conv : internal.Conv :=
  internal.mkConv
    {[ "child" := ddl.mkCreateTable "child" ["a"] (Some ∅)
                    [ddl.mkIndexKey "a" false]
                    [ddl.mkForeignkey ["a"] "ghost" ["z"]] "" ]}
    ∅ ∅ ∅ ∅ ∅ (internal.mkStats ∅ ∅ ∅) [] false "".

Lemma keyless_parent_is_chosen_witness :
  web.checkForInterleavedTables "postgres" "child" orphan_conv
  = Some (interleaved "child" 0 "ghost" orphan_conv,
          Some (web.mkTableInterleaveStatus true "ghost" "")).
Proof.
  apply (keyless_parent_is_chosen "postgres" "child" orphan_conv
           (ddl.mkForeignkey ["a"] "ghost" ["z"]) []); done.
Defined.

(** ** What a retype leaves alone *)

Section RetypeFrame.

Variable toSpannerTypeMySQL toSpannerTypePostgres :
  string → string → list Z → ddl.Type_ * list internal.SchemaIssue.

Local Abbreviation updateType := (web.updateType toSpannerTypeMySQL toSpannerTypePostgres).
Local Abbreviation retyping :=
  (retype_of toSpannerTypeMySQL toSpannerTypePostgres).



End RetypeFrame.


(** ** Rows of values that need no parser *)

Section DirectRows.

Context `{postgres.Runtime}.

(** The cell is NULL, or its column is a scalar column that takes the
    value as it is. *)
Definition taken_directly (srcSchema : schema.Table) (spSchema : ddl.CreateTable)
    (cell : string * (string * postgres.sqlval)) : Prop :=
  is_Some (schema.ColDefs srcSchema !! cell.1) ∧
  ∃ spCd, ddl.ColDefs spSchema ≫= (.!! cell.2.1) = Some spCd ∧
    (non_null cell = true →
     ddl.IsArray (ddl.T spCd) = false ∧
     converts_directly (ddl.Name (ddl.T spCd)) cell.2.2 = true).

(** X23: a row with as many Spanner columns and values as source columns
    in which every column has its definitions and every value that is not
    NULL meets a scalar column on a case of [cvtSQLScalar] that calls no
    parser (any value of a known kind for a STRING column, a value of the
    column's own kind, ...) always converts: [ConvertSQLRow] returns no
    error, the columns of the values that are not NULL followed by the
    synthetic key column, and as many values. *)
Theorem direct_row_converts (conv : internal.Conv) (srcTable : string)
    (srcCols : list string) (srcSchema : schema.Table) (spTable : string)
    (spCols : list string) (spSchema : ddl.CreateTable)
    (srcVals : list postgres.sqlval) :
  length spCols = length srcCols → length srcVals = length srcCols →
  Forall (taken_directly srcSchema spSchema) (cells srcCols spCols srcVals) →
  ∃ vs,
    postgres.ConvertSQLRow conv srcTable srcCols srcSchema spTable spCols spSchema
      srcVals
    = Some ((filter (λ cell, non_null cell = true)
               (cells srcCols spCols srcVals)).*1 ++ synthetic_col conv spTable,
            vs, None, sequence_advanced conv spTable) ∧
    length vs
    = length ((filter (λ cell, non_null cell = true)
                 (cells srcCols spCols srcVals)).*1 ++ synthetic_col conv spTable).
Proof.
  intros Hsp Hvals Hall.
  destruct (ConvertSQLRow_spec conv srcTable srcCols srcSchema spTable spCols
              spSchema srcVals Hsp Hvals)
    as [(Hf & _) | (_ & vs1 & Hvs & Hrun)].
  - exfalso. apply Exists_exists in Hf as (cell & Hin & Hfail).
    rewrite Forall_forall in Hall.
    destruct (Hall cell Hin) as ([srcCd Hsrc] & spCd & Hcd & Hdirect).
    unfold cell_fails, convertCell in Hfail. rewrite Hsrc, Hcd in Hfail.
    cbn [mbind option_bind] in Hfail.
    destruct Hfail as [Hnone | (Hnn & err & Herr)]; [done |].
    destruct (Hdirect Hnn) as [Harr Hd]. rewrite Harr in Herr.
    pose proof (cvtSQLScalar_direct conv srcCd spCd cell.2.2 Hd) as Hok.
    injection Herr as Herr. by rewrite Herr in Hok.
  - eexists. split; [exact Hrun |].
    rewrite !length_app, length_fmap, (Forall2_length _ _ _ Hvs).
    unfold synthetic_col, synthetic_val.
    by destruct (internal.SyntheticPKeys conv !! spTable).
Qed.

End DirectRows.

Lemma direct_row_converts_witness :
  ∃ vs,
    @postgres.ConvertSQLRow sample_runtime events_conv "sales.events"
      ["msg"; "n"] events_src "events" ["msg"; "n"] events_sp
      [postgres.SqlInt64 1; postgres.SqlNil]
    = Some (["msg"; "synth_id"], vs, None, sequence_advanced events_conv "events").
Proof.
  destruct (@direct_row_converts sample_runtime events_conv "sales.events"
              ["msg"; "n"] events_src "events" ["msg"; "n"] events_sp
              [postgres.SqlInt64 1; postgres.SqlNil] eq_refl eq_refl)
    as (vs & Hrun & _).
  - repeat constructor; try (by eexists); eexists; (split; [reflexivity |]);
      by intros.
  - exists vs. exact Hrun.
Defined.
